(** * compartment.hpp: allocators and containers

    A shallow embedding of the allocator layer (the scratch
    [FixedBufferAllocator], the region-based [ArenaAllocator]), of the
    hash containers ([Table], [Set]), of [List], [Slice], [String] and
    [StringView], and of the [to_string] overloads of [compartment.hpp].

    Conventions.
    - [size_t], [uintptr_t] and [uint64_t] are 64-bit: values are [Z] and
      every arithmetic operation is reduced with [u64].  Pointers are
      addresses, [0] is [nullptr]; a pointer is 8 bytes wide and
      [sizeof(Region)] is 32 (four 8-byte fields).
    - Arrays are lists read through the guarded [cell]; reading or writing
      outside the list is undefined behaviour in the source and [Fault]
      here.
    - Loops without a static bound take a [fuel]; running out of it is
      [Spin].  Results about a returned value are stated for all fuel
      above an explicit bound. *)

From Stdlib Require Import ZArith Lia List Bool.
From stdpp Require Import base tactics option list numbers gmap.

Local Open Scope Z_scope.

(** ** Outcomes of a call *)

Inductive outcome (X : Type) : Type :=
| Done (x : X)   (* the call returned x *)
| Fault          (* undefined behaviour: null / out-of-bounds access, x % 0 *)
| Trap           (* COMT_ASSERT fired (__builtin_trap) *)
| Spin.          (* the loop did not finish within the given fuel *)
Arguments Done {X} x.
Arguments Fault {X}.
Arguments Trap {X}.
Arguments Spin {X}.

Definition obind {X Y : Type} (m : outcome X) (f : X -> outcome Y) : outcome Y :=
  match m with
  | Done x => f x
  | Fault => Fault
  | Trap => Trap
  | Spin => Spin
  end.

Notation "'let!' x ':=' m 'in' k" := (obind m (fun x => k))
  (at level 10, x pattern, m at level 100, k at level 200).

(** A dereference that may hit nothing. *)
Definition deref {X : Type} (o : option X) : outcome X :=
  match o with
  | Some x => Done x
  | None => Fault
  end.

(** ** 64-bit arithmetic *)

Definition u64 (x : Z) : Z := x mod 2 ^ 64.

(** [align_to(size, align)]:
    [size + ((align - (size & (align - 1))) & (align - 1))]. *)
Definition align_to (size align : Z) : Z :=
  u64 (size + Z.land (u64 (align - Z.land size (align - 1))) (align - 1)).

Definition COMT_PAGE_SIZE : Z := 4096.
Definition sizeof_ptr : Z := 8.
Definition sizeof_Region : Z := 32.

(** [comt::max(x, y)]: [x > xs_max ? x : xs_max]. *)
Definition max (x xs_max : Z) : Z := if xs_max <? x then x else xs_max.

(** ** The operating system boundary

    [COMT_ALLOC_PAGE] is an anonymous [mmap], [COMT_DEALLOC_PAGE] is
    [munmap] and [COMT_ALLOC_SMOL] is [sbrk].  The model keeps the program
    break, the next free mapping address and the trace of calls.  [mmap]
    hands out page-aligned, pairwise disjoint blocks; it fails with
    [MAP_FAILED] (all bits set) on a zero length or when the user address
    space is exhausted. *)

Inductive syscall : Type :=
| Mmap (len ret : Z)
| Munmap (addr len : Z)
| Sbrk (incr ret : Z).

Record OS : Type := mkOS {
  os_brk : Z;
  os_map : Z;
  os_trace : list syscall
}.

Definition MAP_FAILED : Z := 2 ^ 64 - 1.
Definition USER_TOP : Z := 2 ^ 47.

Definition COMT_ALLOC_PAGE (sz : Z) (os : OS) : Z * OS :=
  let len := align_to sz COMT_PAGE_SIZE in
  if (sz =? 0) || (USER_TOP <? os_map os + len) then
    (MAP_FAILED,
     mkOS (os_brk os) (os_map os) (os_trace os ++ [Mmap sz MAP_FAILED]))
  else
    (os_map os,
     mkOS (os_brk os) (os_map os + len) (os_trace os ++ [Mmap sz (os_map os)])).

Definition COMT_DEALLOC_PAGE (page size : Z) (os : OS) : OS :=
  mkOS (os_brk os) (os_map os) (os_trace os ++ [Munmap page size]).

Definition COMT_ALLOC_SMOL (sz : Z) (os : OS) : Z * OS :=
  (os_brk os,
   mkOS (os_brk os + sz) (os_map os) (os_trace os ++ [Sbrk sz (os_brk os)])).

(** A process right after start-up: nothing mapped, nothing traced. *)
Definition boot : OS := mkOS (2 ^ 24) (2 ^ 32) [].

(** The [munmap] calls of a trace, in order. *)
Definition released (tr : list syscall) : list (Z * Z) :=
  omap (fun c => match c with Munmap p n => Some (p, n) | _ => None end) tr.

(** ** FixedBufferAllocator (the scratch allocator) *)

Module FixedBufferAllocator.

Record t : Type := mk {
  buffer : Z;
  buffer_size : Z;
  buffer_off : Z
}.

Definition DEFAULT_PAGE_COUNT : Z := 5.

(** [_temp_allocator_impl{}]: all fields zero. *)
Definition zero : t := mk 0 0 0.

Definition raw_alloc (size : Z) (s : t) (os : OS) : Z * t * OS :=
  let size := align_to size sizeof_ptr in
  let '(s, os) :=
    if buffer s =? 0 then
      let bs := max size (COMT_PAGE_SIZE * DEFAULT_PAGE_COUNT) in
      let bs := align_to bs COMT_PAGE_SIZE in
      let '(p, os') := COMT_ALLOC_PAGE bs os in
      (mk p bs 0, os')
    else (s, os) in
  if buffer_size s <? size then (0, s, os)
  else if u64 (buffer_size s - buffer_off s) <? size then
    (buffer s, mk (buffer s) (buffer_size s) size, os)
  else
    (u64 (buffer s + buffer_off s),
     mk (buffer s) (buffer_size s) (u64 (buffer_off s + size)), os).

Definition raw_dealloc (ptr size : Z) (s : t) : t :=
  if ptr =? u64 (buffer s + buffer_off s)
  then mk (buffer s) (buffer_size s) (u64 (buffer_off s - size))
  else s.

(** The buffer exists and the cursor lies inside it. *)
Definition initialized (s : t) : Prop :=
  buffer s <> 0 /\ 0 <= buffer_off s <= buffer_size s /\ buffer_size s < 2 ^ 64.

End FixedBufferAllocator.

(** ** ArenaAllocator

    Region descriptors are objects in memory, linked through [next]; the
    memory that holds them is the store [regions], keyed by address.  The
    arena itself is the pair of chain heads. *)

Module ArenaAllocator.

Record Region : Type := mkRegion {
  next : Z;
  data : Z;
  size : Z;
  off : Z
}.

Record t : Type := mk {
  head : Z;
  region_pool : Z
}.

Record world : Type := mkWorld {
  regions : gmap Z Region;
  os : OS
}.

Definition load (p : Z) (w : world) : outcome Region :=
  if p =? 0 then Fault else deref (regions w !! p).

Definition set_off (r : Region) (o : Z) : Region :=
  mkRegion (next r) (data r) (size r) o.
Definition set_next (r : Region) (n : Z) : Region :=
  mkRegion n (data r) (size r) (off r).

(** [_init_region(region, size)].  The descriptor is written through
    [region], which [alloc_region] may have taken from an unchecked
    [COMT_ALLOC_PAGE]. *)
Definition _init_region (region sz : Z) (w : world) : outcome world :=
  if (region =? 0) || (region =? MAP_FAILED) then Fault else
  let '(p, os') := COMT_ALLOC_PAGE sz (os w) in
  if p =? MAP_FAILED then Trap
  else Done (mkWorld (<[region := mkRegion 0 p sz 0]> (regions w)) os').

(** The [while (current_region)] loop of [alloc_region].  The loop
    variable [current_region] is never reassigned: the last statement
    of the body is [head = head->next], on the arena's [head]. *)
Fixpoint alloc_region_loop (fuel : nat) (current_region region_size : Z)
    (a : t) (w : world) : outcome (option Z * t * world) :=
  match fuel with
  | O => Spin
  | S fuel' =>
    if current_region =? 0 then Done (None, a, w)
    else
      let! cr := load current_region w in
      if sizeof_Region <=? u64 (size cr - off cr) then
        let region := u64 (data cr + off cr) in
        let! w1 := _init_region region region_size w in
        let! cr1 := load current_region w1 in
        let o := u64 (off cr1 + align_to sizeof_Region sizeof_ptr) in
        Done (Some region, a,
              mkWorld (<[current_region := set_off cr1 o]> (regions w1)) (os w1))
      else
        let! h := load (head a) w in
        alloc_region_loop fuel' current_region region_size
          (mk (next h) (region_pool a)) w
  end.

Definition alloc_region (fuel : nat) (region_size : Z) (a : t) (w : world)
    : outcome (Z * t * world) :=
  let region_size := align_to region_size COMT_PAGE_SIZE in
  let! (found, a, w) := alloc_region_loop fuel (region_pool a) region_size a w in
  match found with
  | Some region => Done (region, a, w)
  | None =>
    let '(current_region, os1) := COMT_ALLOC_SMOL sizeof_Region (os w) in
    if current_region =? 0 then Fault else
    let '(page, os2) := COMT_ALLOC_PAGE COMT_PAGE_SIZE os1 in
    let pool := mkRegion (region_pool a) page COMT_PAGE_SIZE
                  (align_to sizeof_Region sizeof_ptr) in
    let w1 := mkWorld (<[current_region := pool]> (regions w)) os2 in
    let a1 := mk (head a) current_region in
    let! pr := load current_region w1 in
    let resulting_region := data pr in
    let! w2 := _init_region resulting_region region_size w1 in
    Done (resulting_region, a1, w2)
  end.

(** The [while (head)] scan of [raw_alloc], on the local [head]. *)
Fixpoint raw_alloc_scan (fuel : nat) (head size : Z) (w : world)
    : outcome (option Z * world) :=
  match fuel with
  | O => Spin
  | S fuel' =>
    if head =? 0 then Done (None, w)
    else
      let! r := load head w in
      if size <=? u64 (ArenaAllocator.size r - off r) then
        let ptr := u64 (data r + off r) in
        Done (Some ptr,
              mkWorld (<[head := set_off r (u64 (off r + size))]> (regions w)) (os w))
      else raw_alloc_scan fuel' (next r) size w
  end.

Definition raw_alloc (fuel : nat) (size : Z) (a : t) (w : world)
    : outcome (Z * t * world) :=
  let size := align_to size sizeof_ptr in
  let! (served, w) := raw_alloc_scan fuel (head a) size w in
  match served with
  | Some ptr => Done (ptr, a, w)
  | None =>
    let region_size := align_to size COMT_PAGE_SIZE in
    let! (hd, a, w) := alloc_region fuel region_size a w in
    let! r := load hd w in
    let w := mkWorld (<[hd := set_next r (head a)]> (regions w)) (os w) in
    let a := mk hd (region_pool a) in
    let! r := load hd w in
    let ptr := u64 (data r + off r) in
    Done (ptr, a,
          mkWorld (<[hd := set_off r (u64 (off r + size))]> (regions w)) (os w))
  end.

(** [raw_dealloc]: both arguments unused. *)
Definition raw_dealloc (ptr size : Z) (a : t) (w : world) : t * world := (a, w).

(** [free]: [for (r = head; r != nullptr; r = r->next)
    COMT_DEALLOC_PAGE(head->data, head->size);]. *)
Fixpoint free_loop (fuel : nat) (r : Z) (a : t) (w : world) : outcome world :=
  match fuel with
  | O => Spin
  | S fuel' =>
    if r =? 0 then Done w
    else
      let! h := load (head a) w in
      let w1 := mkWorld (regions w) (COMT_DEALLOC_PAGE (data h) (size h) (os w)) in
      let! cur := load r w1 in
      free_loop fuel' (next cur) a w1
  end.

Definition free (fuel : nat) (a : t) (w : world) : outcome world :=
  free_loop fuel (head a) a w.

(** The addresses of a chain, front first (fuel bounds the walk). *)
Fixpoint chain (fuel : nat) (p : Z) (w : world) : list Z :=
  match fuel with
  | O => []
  | S fuel' =>
    if p =? 0 then []
    else match regions w !! p with
         | Some r => p :: chain fuel' (next r) w
         | None => []
         end
  end.

(** A chain that ends: the regions from [p] on are [l], front first. *)
Inductive chained (w : world) : Z -> list Region -> Prop :=
| chained_nil : chained w 0 []
| chained_cons p r l :
    p <> 0 -> regions w !! p = Some r -> chained w (next r) l ->
    chained w p (r :: l).

(** Within [n] links the chain from [p] ends, and none of its regions
    has [sz] bytes left. *)
Fixpoint all_full (n : nat) (p sz : Z) (w : world) : bool :=
  match n with
  | O => false
  | S n' =>
    if p =? 0 then true
    else match regions w !! p with
         | Some r => (u64 (size r - off r) <? sz) && all_full n' (next r) sz w
         | None => false
         end
  end.

Definition is_fault {X : Type} (o : outcome X) : bool :=
  match o with Fault => true | _ => false end.

(** A zero-initialised arena in a fresh process. *)
Definition empty : t := mk 0 0.
Definition fresh : world := mkWorld ∅ boot.

(** [n] requests of [sz] bytes in a row. *)
Fixpoint repeat_alloc (n : nat) (fuel : nat) (sz : Z) (a : t) (w : world)
    : outcome (t * world) :=
  match n with
  | O => Done (a, w)
  | S n' =>
    let! (_, a, w) := raw_alloc fuel sz a w in
    repeat_alloc n' fuel sz a w
  end.

(** What is checked, by evaluation, of the arena after 128 page-sized
    requests. *)
Definition crowded_check : Prop :=
  match repeat_alloc 128 200 COMT_PAGE_SIZE empty fresh with
  | Done (a, w) =>
      (length (chain 200 (head a) w) =? 128)%nat
      && negb (region_pool a =? 0)
      && match regions w !! region_pool a with
         | Some cr => u64 (size cr - off cr) <? sizeof_Region
         | None => false
         end
      && all_full 200 (head a) (align_to 8 sizeof_ptr) w
      && is_fault (alloc_region 200 COMT_PAGE_SIZE a w)
      && is_fault (raw_alloc 200 8 a w) = true
  | _ => False
  end.

(** [Region::avail]: [COMT_ASSERT(off <= size); return size - off;]. *)
Definition Region_avail (r : Region) : outcome Z :=
  if off r <=? size r then Done (u64 (size r - off r)) else Trap.

(** [avail]: [for (r = head; r != nullptr; r = r->next)
    result += r->avail();]. *)
Fixpoint avail_loop (fuel : nat) (r result : Z) (w : world) : outcome Z :=
  match fuel with
  | O => Spin
  | S fuel' =>
    if r =? 0 then Done result
    else
      let! cur := load r w in
      let! n := Region_avail cur in
      avail_loop fuel' (next cur) (u64 (result + n)) w
  end.

Definition avail (fuel : nat) (a : t) (w : world) : outcome Z :=
  avail_loop fuel (head a) 0 w.

(** [reserve(bytes)]. *)
Definition reserve (fuel : nat) (bytes : Z) (a : t) (w : world)
    : outcome (t * world) :=
  let! available_bytes := avail fuel a w in
  if available_bytes <? bytes then
    let bytes_needed := u64 (bytes - available_bytes) in
    let! (r, a, w) := alloc_region fuel bytes_needed a w in
    let! reg := load r w in
    let w := mkWorld (<[r := set_next reg (head a)]> (regions w)) (os w) in
    Done (mk r (region_pool a), w)
  else Done (a, w).

(** [reset]: [for (r = head; r != nullptr; r = r->next) r->off = 0;]. *)
Fixpoint reset_loop (fuel : nat) (r : Z) (w : world) : outcome world :=
  match fuel with
  | O => Spin
  | S fuel' =>
    if r =? 0 then Done w
    else
      let! cur := load r w in
      let w1 := mkWorld (<[r := set_off cur 0]> (regions w)) (os w) in
      let! cur1 := load r w1 in
      reset_loop fuel' (next cur1) w1
  end.

Definition reset (fuel : nat) (a : t) (w : world) : outcome world :=
  reset_loop fuel (head a) w.

(** A chain that ends, with the address of each descriptor: from [p] on
    the descriptors are those of [l], front first. *)
Inductive linked (w : world) : Z -> list (Z * Region) -> Prop :=
| linked_nil : linked w 0 []
| linked_cons p r l :
    p <> 0 -> regions w !! p = Some r -> linked w (next r) l ->
    linked w p ((p, r) :: l).

(** The bytes left in the regions of a chain. *)
Fixpoint free_bytes (l : list (Z * Region)) : Z :=
  match l with
  | [] => 0
  | (_, r) :: l' => (size r - off r) + free_bytes l'
  end.

(** The cursor is inside the region, and the region inside the address
    space. *)
Definition in_bounds (r : Region) : Prop :=
  0 <= off r <= size r /\ 0 <= data r /\ data r + size r < 2 ^ 64.

(** A fragmented arena, as two requests leave it (5000 bytes, then
    4096): the front region of [head] is full, the region behind it has
    3192 bytes left; both descriptors sit in the one metadata page. *)
Definition fragmented_arena : t := mk (2 ^ 32 + 32) (2 ^ 24).

Definition fragmented_chain : list (Z * Region) :=
  [(2 ^ 32 + 32, mkRegion (2 ^ 32) (2 ^ 32 + 12288) 4096 4096);
   (2 ^ 32, mkRegion 0 (2 ^ 32 + 4096) 8192 5000)].

Definition fragmented_world : world :=
  mkWorld
    (<[2 ^ 32 + 32 := mkRegion (2 ^ 32) (2 ^ 32 + 12288) 4096 4096]>
       (<[2 ^ 32 := mkRegion 0 (2 ^ 32 + 4096) 8192 5000]>
          (<[2 ^ 24 := mkRegion 0 (2 ^ 32) 4096 64]> ∅)))
    (mkOS (2 ^ 24 + 32) (2 ^ 32 + 16384)
       [Sbrk 32 (2 ^ 24); Mmap 4096 (2 ^ 32); Mmap 8192 (2 ^ 32 + 4096);
        Mmap 4096 (2 ^ 32 + 12288)]).

(** The state two requests leave is the fragmented arena. *)
Definition fragmented_check : Prop :=
  match (let! (_, a, w) := raw_alloc 5 5000 empty fresh in raw_alloc 5 4096 a w) with
  | Done (p, a, w) =>
      p = 2 ^ 32 + 12288 /\ a = fragmented_arena /\ os w = os fragmented_world /\
      map_to_list (regions w) = map_to_list (regions fragmented_world)
  | _ => False
  end.

End ArenaAllocator.

(** ** Arrays and the allocator as the containers see it *)

(** [l[i]]: a read outside the array is undefined behaviour. *)
Definition cell {T : Type} (l : list T) (i : Z) : outcome T :=
  if i <? 0 then Fault else deref (l !! Z.to_nat i).

(** [l[i] = x]. *)
Definition store {T : Type} (l : list T) (i : Z) (x : T) : outcome (list T) :=
  if (0 <=? i) && (i <? Z.of_nat (length l))
  then Done (<[Z.to_nat i := x]> l)
  else Fault.

(** [Allocator::alloc<T>(size)] as a container sees it: the array of [T]
    behind the returned pointer, with whatever contents the memory has.
    A null pointer is the empty array.  [A] is the allocator's state. *)
Class Allocator (A T : Type) := Allocator_alloc : Z -> A -> list T * A.

Definition COMT_TAB_META_OCCUPIED : Z := 1.
Definition COMT_TAB_IS_OCCUPIED (meta : Z) : bool :=
  negb (Z.land meta COMT_TAB_META_OCCUPIED =? 0).
Definition COMT_TAB_IS_FREE (meta : Z) : bool := negb (COMT_TAB_IS_OCCUPIED meta).
Definition COMT_TABLE_GROWTH_FACTOR (x : Z) : Z := u64 (u64 (x + 1) * 3).
Definition COMT_SET_GROWTH_FACTOR : Z -> Z := COMT_TABLE_GROWTH_FACTOR.

(** The number of occupied slots of a [meta] array. *)
Fixpoint occupied_count (ms : list Z) : Z :=
  match ms with
  | [] => 0
  | m :: ms' => (if COMT_TAB_IS_OCCUPIED m then 1 else 0) + occupied_count ms'
  end.

(** The value of the latest pair with key [k] in a run of [put] calls
    (first call first). *)
Fixpoint latest {K V : Type} `{EqDecision K} (ops : list (K * V)) (k : K) : option V :=
  match ops with
  | [] => None
  | (k', v) :: ops' =>
    match latest ops' k with
    | Some v' => Some v'
    | None => if decide (k' = k) then Some v else None
    end
  end.

(** The number of distinct keys in a run of [put] calls. *)
Definition distinct {K V : Type} `{EqDecision K} (ops : list (K * V)) : Z :=
  Z.of_nat (length (remove_dups (ops.*1))).

(** ** Table<K, V>

    [operator==] on keys is a decidable equality and [Hash<K>::hash] is
    [hash], reduced to 64 bits.  The [allocator] pointer of the struct is
    not a field here: the allocator's state is passed to and returned by
    the operations that allocate. *)

Module Table.
Section Table.
Context {K V : Type} `{EqDecision K} (hash : K -> Z).
Context {A : Type} `{Allocator A K, Allocator A V, Allocator A Z}.

Record t : Type := mk {
  keys : list K;
  values : list V;
  meta : list Z;
  count : Z;
  capacity : Z
}.

Definition DEFAULT_CAPACITY : Z := 47.

(** [(uint8_t)((double)(count * 100) / (double)capacity)].  The product
    is a [size_t].  Below 2^53 both conversions to [double] are exact
    and the truncation of the rounded quotient is the integer quotient;
    the results on runs of [put] are stated under that bound. *)
Definition load_percentage (tab : t) : Z :=
  (u64 (count tab * 100) / capacity tab) mod 256.

Definition alloc (a : A) (capacity : Z) : t * A :=
  let '(ks, a) := Allocator_alloc (T:=K) capacity a in
  let '(vs, a) := Allocator_alloc (T:=V) capacity a in
  let '(ms, a) := Allocator_alloc (T:=Z) capacity a in
  (mk ks vs ms 0 capacity, a).

(** The [while (true)] probe of [put]. *)
Fixpoint put_probe (fuel : nat) (tab : t) (key : K) (value : V) (idx : Z)
    : outcome t :=
  match fuel with
  | O => Spin
  | S fuel' =>
    let! m := cell (meta tab) idx in
    if COMT_TAB_IS_FREE m then
      let! meta' := store (meta tab) idx (Z.lor m COMT_TAB_META_OCCUPIED) in
      let! values' := store (values tab) idx value in
      let! keys' := store (keys tab) idx key in
      Done (mk keys' values' meta' (u64 (count tab + 1)) (capacity tab))
    else
      let! k := cell (keys tab) idx in
      if bool_decide (k = key) then
        let! values' := store (values tab) idx value in
        let! keys' := store (keys tab) idx key in
        Done (mk keys' values' (meta tab) (count tab) (capacity tab))
      else if capacity tab =? 0 then Fault
      else put_probe fuel' tab key value (u64 (idx + 1) mod capacity tab)
  end.

(** The reinsertion loop [for (i = 0; i < capacity; i++)] of [put];
    [reput] is [new_table.put]. *)
Fixpoint rehash_loop (reput : t -> K -> V -> A -> outcome (t * A))
    (old : t) (n : nat) (i : Z) (new_table : t) (a : A) : outcome (t * A) :=
  match n with
  | O => Done (new_table, a)
  | S n' =>
    let! m := cell (meta old) i in
    if COMT_TAB_IS_OCCUPIED m then
      let! k := cell (keys old) i in
      let! v := cell (values old) i in
      let! (new_table, a) := reput new_table k v a in
      rehash_loop reput old n' (i + 1) new_table a
    else rehash_loop reput old n' (i + 1) new_table a
  end.

(** The load-factor gate: the [if (load_percentage() >= 70)] block. *)
Definition grow (reput : t -> K -> V -> A -> outcome (t * A))
    (tab : t) (a : A) : outcome (t * A) :=
  if 70 <=? load_percentage tab then
    let '(new_table, a) := alloc a (COMT_TABLE_GROWTH_FACTOR (capacity tab)) in
    rehash_loop reput tab (Z.to_nat (capacity tab)) 0 new_table a
  else Done (tab, a).

Fixpoint put (fuel : nat) (tab : t) (key : K) (value : V) (a : A)
    : outcome (t * A) :=
  match fuel with
  | O => Spin
  | S fuel' =>
    let! (tab, a) := grow (put fuel') tab a in
    if capacity tab =? 0 then Fault else
    let! tab := put_probe fuel' tab key value (u64 (hash key) mod capacity tab) in
    Done (tab, a)
  end.

(** One iteration test of [get] and [has]:
    [COMT_TAB_IS_OCCUPIED(meta[idx]) && keys[idx] == key]. *)
Definition hit (tab : t) (key : K) (idx : Z) : outcome bool :=
  let! m := cell (meta tab) idx in
  if COMT_TAB_IS_OCCUPIED m then
    let! k := cell (keys tab) idx in
    Done (bool_decide (k = key))
  else Done false.

(** The [do ... while (idx != initial_idx)] loop of [get]; [out] is the
    cell behind the out-pointer. *)
Fixpoint get_loop (fuel : nat) (tab : t) (key : K) (out : V)
    (idx initial_idx : Z) : outcome (bool * V) :=
  match fuel with
  | O => Spin
  | S fuel' =>
    let! found := hit tab key idx in
    if found then
      let! v := cell (values tab) idx in
      Done (true, v)
    else if capacity tab =? 0 then Fault
    else
      let idx := u64 (idx + 1) mod capacity tab in
      if idx =? initial_idx then Done (false, out)
      else get_loop fuel' tab key out idx initial_idx
  end.

Definition get (fuel : nat) (tab : t) (key : K) (out : V) : outcome (bool * V) :=
  if capacity tab =? 0 then Fault else
  let idx := u64 (hash key) mod capacity tab in
  get_loop fuel tab key out idx idx.

Fixpoint has_loop (fuel : nat) (tab : t) (key : K) (idx initial_idx : Z)
    : outcome bool :=
  match fuel with
  | O => Spin
  | S fuel' =>
    let! found := hit tab key idx in
    if found then Done true
    else if capacity tab =? 0 then Fault
    else
      let idx := u64 (idx + 1) mod capacity tab in
      if idx =? initial_idx then Done false
      else has_loop fuel' tab key idx initial_idx
  end.

Definition has (fuel : nat) (tab : t) (key : K) : outcome bool :=
  if capacity tab =? 0 then Fault else
  let idx := u64 (hash key) mod capacity tab in
  has_loop fuel tab key idx idx.

(** A run of [put] calls, first pair first. *)
Fixpoint put_all (fuel : nat) (ops : list (K * V)) (tab : t) (a : A)
    : outcome (t * A) :=
  match ops with
  | [] => Done (tab, a)
  | (k, v) :: ops' =>
    let! (tab, a) := put fuel tab k v a in
    put_all fuel ops' tab a
  end.

(** *** Reading a table *)

(** Slot [i] is occupied and holds key [k]. *)
Definition holds (tab : t) (i : Z) (k : K) : Prop :=
  exists m, cell (meta tab) i = Done m /\ COMT_TAB_IS_OCCUPIED m = true /\
            cell (keys tab) i = Done k.

(** Some occupied slot holds [k] with value [v]. *)
Definition entry (tab : t) (k : K) (v : V) : Prop :=
  exists i, holds tab i k /\ cell (values tab) i = Done v.

(** The slot [d] steps along the probe path of [k]. *)
Definition slot (tab : t) (k : K) (d : Z) : Z :=
  (u64 (hash k) + d) mod capacity tab.

(** The invariant of a table: the three arrays have [capacity] cells,
    [count] is the number of occupied slots, and every slot on the
    probe path of a stored key, from its start slot up to the slot that
    stores it, is occupied by another key. *)
Record wf (tab : t) : Prop := mkwf {
  wf_cap : 0 < capacity tab;
  wf_cap_hi : 100 * capacity tab < 2 ^ 64;
  wf_keys : Z.of_nat (length (keys tab)) = capacity tab;
  wf_values : Z.of_nat (length (values tab)) = capacity tab;
  wf_meta : Z.of_nat (length (meta tab)) = capacity tab;
  wf_count : count tab = occupied_count (meta tab);
  wf_path : forall i k, holds tab i k ->
    forall e, 0 <= e < (i - u64 (hash k)) mod capacity tab ->
    exists k', holds tab (slot tab k e) k' /\ k' <> k
}.

(** The table written by the insert branch of the probe at slot [i]
    (whose occupancy byte was [m]), and by the update branch. *)
Definition fill (tab : t) (i m : Z) (key : K) (value : V) : t :=
  mk (<[Z.to_nat i := key]> (keys tab)) (<[Z.to_nat i := value]> (values tab))
     (<[Z.to_nat i := Z.lor m COMT_TAB_META_OCCUPIED]> (meta tab))
     (u64 (count tab + 1)) (capacity tab).

Definition update (tab : t) (i : Z) (key : K) (value : V) : t :=
  mk (<[Z.to_nat i := key]> (keys tab)) (<[Z.to_nat i := value]> (values tab))
     (meta tab) (count tab) (capacity tab).

(** What one [put key value] that needs no growth makes of [tab]. *)
Definition put_post (tab : t) (key : K) (value : V) (tab' : t) : Prop :=
  wf tab' /\ capacity tab' = capacity tab /\
  entry tab' key value /\
  (forall k v, k <> key -> entry tab' k v <-> entry tab k v) /\
  (((exists v0, entry tab key v0) /\ count tab' = count tab) \/
   ((forall v0, ~ entry tab key v0) /\ count tab' = count tab + 1)).

(** [new_table] after the reinsertion loop of [put] has gone through
    the slots below [i] of [old]: it stores exactly what those slots
    store. *)
Definition rehash_inv (old new_table : t) (i : Z) : Prop :=
  wf new_table /\
  count new_table = occupied_count (take (Z.to_nat i) (meta old)) /\
  forall k v, entry new_table k v <->
    exists j, 0 <= j < i /\ holds old j k /\ cell (values old) j = Done v.

(** [tab] stores what the run [ops] of [put] calls has put. *)
Definition represents (tab : t) (ops : list (K * V)) : Prop :=
  wf tab /\
  (forall k v, entry tab k v <-> latest ops k = Some v) /\
  count tab = distinct ops.

(** What the allocator must deliver for a table to start empty: arrays
    of the requested length, and occupancy bytes with bit 0 clear (as
    in fresh zero-filled pages). *)
Definition clean : Prop :=
  forall (n : Z) (a : A),
    length (Allocator_alloc (T:=K) n a).1 = Z.to_nat n /\
    length (Allocator_alloc (T:=V) n a).1 = Z.to_nat n /\
    length (Allocator_alloc (T:=Z) n a).1 = Z.to_nat n /\
    Forall (fun m => COMT_TAB_IS_FREE m = true) (Allocator_alloc (T:=Z) n a).1.

End Table.
Arguments t : clear implicits.
End Table.

(** ** Set<T> *)

Module Set_.
Section Set_.
Context {T : Type} `{EqDecision T} (hash : T -> Z).
Context {A : Type} `{Allocator A T, Allocator A Z}.

Record t : Type := mk {
  capacity : Z;
  count : Z;
  values : list T;
  meta : list Z
}.

Definition DEFAULT_CAPACITY : Z := 47.

(** [(uint8_t)(100.0 * (double)count / (double)capacity)]. *)
Definition load_percentage (s : t) : Z :=
  (100 * count s / capacity s) mod 256.

Definition alloc (a : A) (capacity : Z) : t * A :=
  let '(vs, a) := Allocator_alloc (T:=T) capacity a in
  let '(ms, a) := Allocator_alloc (T:=Z) capacity a in
  (mk capacity 0 vs ms, a).

(** The [while (true)] probe of [put], on the variable [hash]. *)
Fixpoint put_probe (fuel : nat) (s : t) (elem : T) (hash : Z) : outcome t :=
  match fuel with
  | O => Spin
  | S fuel' =>
    let! m := cell (meta s) hash in
    if COMT_TAB_IS_FREE m then
      let! meta' := store (meta s) hash (Z.lor m COMT_TAB_META_OCCUPIED) in
      let! values' := store (values s) hash elem in
      Done (mk (capacity s) (u64 (count s + 1)) values' meta')
    else
      let! x := cell (values s) hash in
      if bool_decide (x = elem) then
        let! values' := store (values s) hash elem in
        Done (mk (capacity s) (count s) values' (meta s))
      else if capacity s =? 0 then Fault
      else put_probe fuel' s elem (u64 (hash + 1) mod capacity s)
  end.

Fixpoint rehash_loop (reput : t -> T -> A -> outcome (t * A))
    (old : t) (n : nat) (i : Z) (new_set : t) (a : A) : outcome (t * A) :=
  match n with
  | O => Done (new_set, a)
  | S n' =>
    let! m := cell (meta old) i in
    if COMT_TAB_IS_FREE m then rehash_loop reput old n' (i + 1) new_set a
    else
      let! x := cell (values old) i in
      let! (new_set, a) := reput new_set x a in
      rehash_loop reput old n' (i + 1) new_set a
  end.

Definition grow (reput : t -> T -> A -> outcome (t * A)) (s : t) (a : A)
    : outcome (t * A) :=
  if 70 <=? load_percentage s then
    let '(new_set, a) := alloc a (COMT_SET_GROWTH_FACTOR (capacity s)) in
    rehash_loop reput s (Z.to_nat (capacity s)) 0 new_set a
  else Done (s, a).

(** The start slot is [Hash<T>::hash(elem)] itself. *)
Fixpoint put (fuel : nat) (s : t) (elem : T) (a : A) : outcome (t * A) :=
  match fuel with
  | O => Spin
  | S fuel' =>
    let! (s, a) := grow (put fuel') s a in
    let! s := put_probe fuel' s elem (u64 (hash elem)) in
    Done (s, a)
  end.

Fixpoint has_loop (fuel : nat) (s : t) (elem : T) (idx hash : Z) : outcome bool :=
  match fuel with
  | O => Spin
  | S fuel' =>
    let! m := cell (meta s) idx in
    let! found :=
      (if COMT_TAB_IS_OCCUPIED m then
         let! x := cell (values s) idx in
         Done (bool_decide (x = elem))
       else Done false) in
    if found then Done true
    else if capacity s =? 0 then Fault
    else
      let idx := u64 (idx + 1) mod capacity s in
      if idx =? hash then Done false
      else has_loop fuel' s elem idx hash
  end.

Definition has (fuel : nat) (s : t) (elem : T) : outcome bool :=
  let hash := u64 (hash elem) in
  has_loop fuel s elem hash hash.

(** A run of [put] calls, first element first. *)
Fixpoint put_all (fuel : nat) (xs : list T) (s : t) (a : A) : outcome (t * A) :=
  match xs with
  | [] => Done (s, a)
  | x :: xs' =>
    let! (s, a) := put fuel s x a in
    put_all fuel xs' s a
  end.

(** What the allocator must deliver for a set to start empty: arrays of
    the requested length, and occupancy bytes with bit 0 clear. *)
Definition clean : Prop :=
  forall (n : Z) (a : A),
    length (Allocator_alloc (T:=T) n a).1 = Z.to_nat n /\
    length (Allocator_alloc (T:=Z) n a).1 = Z.to_nat n /\
    Forall (fun m => COMT_TAB_IS_FREE m = true) (Allocator_alloc (T:=Z) n a).1.

End Set_.
Arguments t : clear implicits.
End Set_.

(** ** Two allocators for the containers *)

(** Fresh anonymous pages: every cell is zero.  The state is the list of
    requested lengths, oldest first. *)
Record ZeroPages : Type := mkZeroPages { requests : list Z }.

#[export] Instance ZeroPages_alloc : Allocator ZeroPages Z :=
  fun n a => (replicate (Z.to_nat n) 0, mkZeroPages (requests a ++ [n])).

(** Recycled memory (an arena after [reset], the scratch buffer after a
    wrap): every cell still holds the 1 written by an earlier user. *)
Inductive Recycled : Type := recycled.

#[export] Instance Recycled_alloc : Allocator Recycled Z :=
  fun n a => (replicate (Z.to_nat n) 1, a).

(** ** The scenario of 47 slots

    Keys are [size_t] values, hashed by [Hash<size_t>] (the identity);
    the table is allocated with capacity 47 and the keys 0, 1, 2, ... are
    put in order, each with twice its value. *)

Definition scenario_ops (n : nat) : list (Z * Z) :=
  map (fun k => (Z.of_nat k, Z.of_nat k * 2)) (seq 0 n).

Definition scenario_start : Table.t Z Z * ZeroPages :=
  Table.alloc (mkZeroPages []) Table.DEFAULT_CAPACITY.

Definition scenario (n : nat) : outcome (Table.t Z Z * ZeroPages) :=
  Table.put_all id 200 (scenario_ops n) scenario_start.1 scenario_start.2.

(** The rehashes between two states of the allocator: each one makes the
    three requests of one [Table::alloc], and [put] requests nothing
    else. *)
Definition rehashes (before after : ZeroPages) : Z :=
  (Z.of_nat (length (requests after)) - Z.of_nat (length (requests before))) / 3.

(** ** Runs of scratch allocations

    Requests served one after the other by the scratch allocator, with
    the pointers returned, in order. *)

Fixpoint raw_alloc_all (sizes : list Z) (s : FixedBufferAllocator.t) (os : OS)
    : list Z * FixedBufferAllocator.t * OS :=
  match sizes with
  | [] => ([], s, os)
  | size :: sizes' =>
    let '(p, s, os) := FixedBufferAllocator.raw_alloc size s os in
    let '(ps, s, os) := raw_alloc_all sizes' s os in
    (p :: ps, s, os)
  end.

(** The bytes a run of requests takes, each rounded up to the pointer size. *)
Fixpoint aligned_total (sizes : list Z) : Z :=
  match sizes with
  | [] => 0
  | size :: sizes' => align_to size sizeof_ptr + aligned_total sizes'
  end.

(** ** List<T> and Slice<T>

    [Allocator::dealloc<T>(ptr, count)] as a container sees it: only the
    allocator's state changes.  [Allocator::resize<T>] is [alloc], then
    [memcpy] of the old cells, then [dealloc] of the old array.

    Counted loops ([for (i = a; i < b; i++)] with [b] fixed on entry)
    run over their index range. *)

Class Deallocator (A T : Type) := Allocator_dealloc : list T -> Z -> A -> A.

(** [memcpy(dst, src, n * sizeof(T))] on arrays of [T]. *)
Definition memcpy {T : Type} (dst src : list T) (n : Z) : outcome (list T) :=
  if (n <=? Z.of_nat (length src)) && (n <=? Z.of_nat (length dst))
  then Done (take (Z.to_nat n) src ++ drop (Z.to_nat n) dst)
  else Fault.

Definition resize {A T : Type} `{Allocator A T, Deallocator A T}
    (ptr : list T) (old_size new_size : Z) (a : A) : outcome (list T * A) :=
  let '(new_ptr, a) := Allocator_alloc new_size a in
  let! new_ptr := memcpy new_ptr ptr old_size in
  Done (new_ptr, Allocator_dealloc ptr old_size a).

Definition COMT_LIST_GROW_FACTOR (x : Z) : Z :=
  Z.shiftr (u64 (u64 (x + 1) * 3)) 1.

Module Slice.
Section Slice.
Context {T : Type}.

Record t : Type := mk {
  items : list T;
  count : Z
}.

Definition slice (s : t) (start end_ : Z) : outcome t :=
  if start <=? end_
  then Done (mk (drop (Z.to_nat start) (items s)) (u64 (end_ - start)))
  else Trap.

Definition slice_from (s : t) (start : Z) : outcome t := slice s start (count s).

Definition slice_all (s : t) : outcome t := slice s 0 (count s).

(** [operator []]. *)
Definition subscript (s : t) (idx : Z) : outcome T :=
  if idx <? count s then cell (items s) idx else Trap.

End Slice.
Arguments t : clear implicits.
End Slice.

Module List_.
Section List_.
Context {T : Type} `{EqDecision T}.
Context {A : Type} `{Allocator A T, Deallocator A T}.

Record t : Type := mk {
  items : list T;
  count : Z;
  capacity : Z
}.

Definition DEFAULT_CAP : Z := 7.

Definition alloc (a : A) (cap : Z) : t * A :=
  let '(items, a) := Allocator_alloc cap a in
  (mk items 0 cap, a).

(** [operator []], as a value and as the target of an assignment. *)
Definition subscript (l : t) (idx : Z) : outcome T :=
  if idx <? count l then cell (items l) idx else Trap.

Definition assign (l : t) (idx : Z) (x : T) : outcome t :=
  if idx <? count l then
    let! items := store (items l) idx x in
    Done (mk items (count l) (capacity l))
  else Trap.

Definition push (l : t) (item : T) (a : A) : outcome (t * A) :=
  let! (l, a) :=
    if capacity l <=? count l then
      let new_capacity := COMT_LIST_GROW_FACTOR (capacity l) in
      let! (items, a) := resize (items l) (capacity l) new_capacity a in
      Done (mk items (count l) new_capacity, a)
    else Done (l, a) in
  let! items := store (items l) (count l) item in
  Done (mk items (u64 (count l + 1)) (capacity l), a).

(** [for (i = idx; i < count - 1; i++) items[i] = items[i + 1];]. *)
Fixpoint remove_at_loop (n : nat) (items : list T) (i : Z) : outcome (list T) :=
  match n with
  | O => Done items
  | S n' =>
    let! x := cell items (i + 1) in
    let! items := store items i x in
    remove_at_loop n' items (i + 1)
  end.

Definition remove_at (l : t) (idx : Z) : outcome t :=
  if idx <? count l then
    let! items :=
      remove_at_loop (Z.to_nat (u64 (count l - 1) - idx)) (items l) idx in
    Done (mk items (u64 (count l - 1)) (capacity l))
  else Trap.

(** [for (...; i++) res.push(items[i]);], the loop of [copy] and of
    [extend], from index [i] on. *)
Fixpoint push_each (n : nat) (src : list T) (i : Z) (res : t) (a : A)
    : outcome (t * A) :=
  match n with
  | O => Done (res, a)
  | S n' =>
    let! x := cell src i in
    let! (res, a) := push res x a in
    push_each n' src (i + 1) res a
  end.

Definition copy (l : t) (start end_ : Z) (a : A) : outcome (t * A) :=
  if start <=? end_ then
    let '(res, a) := alloc a (u64 (end_ - start)) in
    push_each (Z.to_nat (end_ - start)) (items l) start res a
  else Trap.

Definition reserve (l : t) (new_cap : Z) (a : A) : outcome (t * A) :=
  if new_cap <=? capacity l then Done (l, a)
  else
    let! (items, a) := resize (items l) (capacity l) new_cap a in
    Done (mk items (count l) new_cap, a).

Definition extend (l other : t) (a : A) : outcome (t * A) :=
  let! (l, a) := reserve l (u64 (capacity l + capacity other)) a in
  push_each (Z.to_nat (count other)) (items other) 0 l a.

(** The loop of both [find_index]: the first index whose cell passes
    the test, [(size_t)-1] when the loop runs out. *)
Fixpoint find_index_loop (n : nat) (items : list T) (i : Z) (pred : T -> bool)
    : outcome Z :=
  match n with
  | O => Done (2 ^ 64 - 1)
  | S n' =>
    let! x := cell items i in
    if pred x then Done i else find_index_loop n' items (i + 1) pred
  end.

Definition find_index_if (l : t) (pred : T -> bool) : outcome Z :=
  find_index_loop (Z.to_nat (count l)) (items l) 0 pred.

Definition find_index (l : t) (elem : T) : outcome Z :=
  find_index_loop (Z.to_nat (count l)) (items l) 0
    (fun x => bool_decide (x = elem)).

Definition slice (l : t) (start end_ : Z) : outcome (Slice.t T) :=
  if start <=? end_
  then Done (Slice.mk (drop (Z.to_nat start) (items l)) (u64 (end_ - start)))
  else Trap.

Definition slice_from (l : t) (start : Z) : outcome (Slice.t T) :=
  slice l start (count l).

Definition slice_all (l : t) : outcome (Slice.t T) := slice l 0 (count l).

(** The elements of a list: the first [count] cells. *)
Definition elems (l : t) : list T := take (Z.to_nat (count l)) (items l).

(** The array has [capacity] cells and [count] is within it. *)
Definition wf (l : t) : Prop :=
  0 <= count l <= capacity l /\
  Z.of_nat (length (items l)) = capacity l /\
  capacity l < 2 ^ 64.

(** The allocator hands out arrays of the requested length. *)
Definition sound : Prop :=
  forall (n : Z) (a : A), length (Allocator_alloc (T:=T) n a).1 = Z.to_nat n.

(** [push] for each element of [xs], in order. *)
Fixpoint push_all (xs : list T) (l : t) (a : A) : outcome (t * A) :=
  match xs with
  | [] => Done (l, a)
  | x :: xs' =>
    let! (l, a) := push l x a in
    push_all xs' l a
  end.

End List_.
Arguments t : clear implicits.
End List_.

#[export] Instance ZeroPages_dealloc : Deallocator ZeroPages Z :=
  fun _ _ a => a.

(** ** StringView and String

    [Char] is [uint8_t]: a character is its code, a [Z] reduced with
    [u8].  A [StringView] is a pointer with a length; a [String] is a
    [List<Char>] whose last element is the terminator. *)

Definition u8 (x : Z) : Z := x mod 2 ^ 8.

Module StringView.

Record t : Type := mk {
  data : list Z;
  count : Z
}.

(** The loop of [operator ==]. *)
Fixpoint eq_loop (n : nat) (lhs rhs : list Z) (i : Z) : outcome bool :=
  match n with
  | O => Done true
  | S n' =>
    let! x := cell lhs i in
    let! y := cell rhs i in
    if x =? y then eq_loop n' lhs rhs (i + 1) else Done false
  end.

(** [operator ==]. *)
Definition eq (lhs rhs : t) : outcome bool :=
  if count lhs =? count rhs
  then eq_loop (Z.to_nat (count lhs)) (data lhs) (data rhs) 0
  else Done false.

End StringView.

Module String_.
Section String_.
Context {A : Type} `{Allocator A Z, Deallocator A Z}.

Record t : Type := mk {
  data : List_.t Z
}.

Definition NULL_CHAR : Z := 0.
Definition DEFAULT_CAPACITY : Z := 7.

Definition count (s : t) : outcome Z :=
  if List_.count (data s) =? 0 then Trap
  else Done (u64 (List_.count (data s) - 1)).

Definition view (s : t) : outcome StringView.t :=
  let! n := count s in
  Done (StringView.mk (List_.items (data s)) n).

(** [String::alloc(a, capacity)]. *)
Definition alloc (a : A) (capacity : Z) : outcome (t * A) :=
  let '(data, a) := List_.alloc a (u64 (capacity + 1)) in
  let! (data, a) := List_.push data NULL_CHAR a in
  Done (mk data, a).

(** [push]: [data.push(NULL_CHAR); data[data.count - 2] = character;]. *)
Definition push (s : t) (character : Z) (a : A) : outcome (t * A) :=
  let! (data, a) := List_.push (data s) NULL_CHAR a in
  let! data := List_.assign data (u64 (List_.count data - 2)) character in
  Done (mk data, a).

(** [for (i = 0; i < n; i++) s.push(src[i]);], the loop of
    [String::alloc(a, data, data_len)] and of both [append]. *)
Fixpoint push_chars (n : nat) (src : list Z) (i : Z) (s : t) (a : A)
    : outcome (t * A) :=
  match n with
  | O => Done (s, a)
  | S n' =>
    let! c := cell src i in
    let! (s, a) := push s c a in
    push_chars n' src (i + 1) s a
  end.

(** [String::alloc(a, data, data_len)]. *)
Definition alloc_from (a : A) (data : list Z) (data_len : Z) : outcome (t * A) :=
  let! (s, a) := alloc a data_len in
  push_chars (Z.to_nat data_len) data 0 s a.

(** [append(StringView)]. *)
Definition append (s : t) (sv : StringView.t) (a : A) : outcome (t * A) :=
  push_chars (Z.to_nat (StringView.count sv)) (StringView.data sv) 0 s a.

(** [append(String)]. *)
Definition append_string (s str : t) (a : A) : outcome (t * A) :=
  let! str_count := count str in
  push_chars (Z.to_nat str_count) (List_.items (data str)) 0 s a.

Definition reserve (s : t) (chars : Z) (a : A) : outcome (t * A) :=
  let! available_size := count s in
  if chars <=? available_size then Done (s, a)
  else
    let! (data, a) := List_.reserve (data s) (u64 (chars + 1)) a in
    Done (mk data, a).

(** [StringView::to_string(a)]. *)
Definition to_string (sv : StringView.t) (a : A) : outcome (t * A) :=
  alloc_from a (StringView.data sv) (StringView.count sv).

(** The characters of a string: the elements before the terminator. *)
Definition chars (s : t) : list Z :=
  take (Z.to_nat (List_.count (data s) - 1)) (List_.items (data s)).

(** The list is well formed and its last element is the terminator. *)
Definition terminated (s : t) : Prop :=
  List_.wf (data s) /\ 1 <= List_.count (data s) /\
  List_.items (data s) !! Z.to_nat (List_.count (data s) - 1) = Some NULL_CHAR.

End String_.
End String_.

(** ** Numbers to strings

    The four [to_string] overloads share their text: the two unsigned
    ones differ in the width of [value] only, and so do the two signed
    ones.  [/] and [%] are C's, truncating; [idx] is an [int] that stays
    small.  [wrap bits] is the conversion to the unsigned type of that
    width, [signed bits] the conversion back to the signed one. *)

Definition wrap (bits x : Z) : Z := x mod 2 ^ bits.

Definition signed (bits x : Z) : Z :=
  if wrap bits x <? 2 ^ (bits - 1) then wrap bits x else wrap bits x - 2 ^ bits.

(** [while (value_copy /= 10) idx++;]. *)
Fixpoint count_digits (fuel : nat) (value_copy idx : Z) : outcome Z :=
  match fuel with
  | O => Spin
  | S fuel' =>
    let value_copy := Z.quot value_copy 10 in
    if value_copy =? 0 then Done idx
    else count_digits fuel' value_copy (idx + 1)
  end.

(** [do { digit = value % 10; value /= 10; items[idx--] = digit + '0'; }
    while (value != 0);]. *)
Fixpoint write_digits (fuel : nat) (value idx : Z) (items : list Z)
    : outcome (list Z) :=
  match fuel with
  | O => Spin
  | S fuel' =>
    let digit := Z.rem value 10 in
    let value := Z.quot value 10 in
    let! items := store items idx (u8 (digit + 48)) in
    if value =? 0 then Done items
    else write_digits fuel' value (idx - 1) items
  end.

Section to_string.
Context {A : Type} `{Allocator A Z, Deallocator A Z}.

(** The common end of the four overloads: the digits, the terminator
    and the new [count], written into the array directly. *)
Definition finish_digits (fuel : nat) (s : String_.t) (value value_copy idx : Z)
    : outcome String_.t :=
  let! idx := count_digits fuel value_copy idx in
  let string_count := idx + 1 in
  let! items := write_digits fuel value idx (List_.items (String_.data s)) in
  let! items := store items string_count String_.NULL_CHAR in
  Done (String_.mk
          (List_.mk items (u64 (string_count + 1))
             (List_.capacity (String_.data s)))).

(** [to_string(Allocator*, uint32_t)] and [to_string(Allocator*, uint64_t)],
    for [bits] 32 and 64. *)
Definition to_string_unsigned (bits : Z) (fuel : nat) (a : A) (value : Z)
    : outcome (String_.t * A) :=
  let! (s, a) := String_.alloc a 10 in
  let value := wrap bits value in
  let value_copy := value in
  let! s := finish_digits fuel s value value_copy 0 in
  Done (s, a).

(** [to_string(Allocator*, int32_t)] and [to_string(Allocator*, int64_t)]. *)
Definition to_string_signed (bits : Z) (fuel : nat) (a : A) (input_value : Z)
    : outcome (String_.t * A) :=
  let! (s, a) := String_.alloc a 10 in
  let value := wrap bits input_value in
  let! (s, a, value, idx) :=
    if input_value <? 0 then
      let! (s, a) := String_.push s 45 a in
      Done (s, a, wrap bits (- value), 1)
    else Done (s, a, value, 0) in
  let value_copy := signed bits value in
  let! s := finish_digits fuel s value value_copy idx in
  Done (s, a).

End to_string.

(** The number a string of decimal digits stands for. *)
Definition parse (cs : list Z) : Z :=
  foldl (fun acc c => 10 * acc + (c - 48)) 0 cs.

(** [cs] is the decimal numeral of [v]: digits only, no leading zero
    (a single 0 for zero), and the value is [v]. *)
Definition numeral (cs : list Z) (v : Z) : Prop :=
  Forall (fun c => 48 <= c <= 57) cs /\ parse cs = v /\
  (cs <> []) /\ (length cs = 1%nat \/ head cs <> Some 48).

(** [v] is written with exactly [k] decimal digits. *)
Definition has_digits (k : nat) (v : Z) : Prop :=
  (1 <= k)%nat /\ 0 <= v < 10 ^ Z.of_nat k /\ (k = 1%nat \/ 10 ^ (Z.of_nat k - 1) <= v).

(** ** A set as a table without values

    [Set<T>] is [Table<K, V>] with the value array left out: the set
    [s] corresponds to the table [as_table s], whose values carry no
    information and whose value array costs the allocator nothing. *)

Definition no_values {A : Type} : Allocator A unit :=
  fun n a => (replicate (Z.to_nat n) tt, a).

Definition as_table {T : Type} (s : Set_.t T) : Table.t T unit :=
  Table.mk (Set_.values s) (replicate (length (Set_.values s)) tt)
    (Set_.meta s) (Set_.count s) (Set_.capacity s).

(** * Results *)

(** ** 64-bit arithmetic *)

Lemma u64_small x : 0 <= x < 2 ^ 64 -> u64 x = x.
Proof. intros Hx. unfold u64. apply Z.mod_small. exact Hx. Qed.

Lemma u64_range x : 0 <= u64 x < 2 ^ 64.
Proof. unfold u64. apply Z.mod_pos_bound. lia. Qed.

(** [align_to] rounds up to the next multiple of a power of two, as long
    as that multiple fits in 64 bits. *)
Lemma align_to_round_up size k :
  0 <= k < 64 -> 0 <= size -> size + 2 ^ k <= 2 ^ 64 ->
  align_to size (2 ^ k) mod 2 ^ k = 0 /\
  size <= align_to size (2 ^ k) < size + 2 ^ k.
Proof.
  intros Hk Hsize Hfit.
  assert (Ha : 0 < 2 ^ k) by (apply Z.pow_pos_nonneg; lia).
  assert (Hlt : 2 ^ k < 2 ^ 64) by (apply Z.pow_lt_mono_r; lia).
  assert (Hones : 2 ^ k - 1 = Z.ones k) by (rewrite Z.ones_equiv; lia).
  unfold align_to. rewrite Hones, !Z.land_ones by lia.
  pose proof (Z.mod_pos_bound size (2 ^ k) Ha) as Hr.
  pose proof (Z.div_mod size (2 ^ k) ltac:(lia)) as Hdm.
  rewrite (u64_small (2 ^ k - size mod 2 ^ k)) by lia.
  destruct (Z.eq_dec (size mod 2 ^ k) 0) as [E | Hne].
  - rewrite E, Z.sub_0_r, Z.mod_same, Z.add_0_r by lia.
    rewrite u64_small by lia. lia.
  - rewrite (Z.mod_small (2 ^ k - size mod 2 ^ k)) by lia.
    rewrite u64_small by lia. split; [| lia].
    replace (size + (2 ^ k - size mod 2 ^ k)) with ((size / 2 ^ k + 1) * 2 ^ k) by lia.
    apply Z.mod_mul. lia.
Qed.

(** ** FixedBufferAllocator *)

Section FixedBuffer.
Import FixedBufferAllocator.

(** C7.  With the buffer in place and the cursor inside it, a request
    whose aligned size fits the buffer as a whole but not the space
    behind the cursor is served from the start of the buffer, and the
    cursor becomes the aligned size. *)
Theorem raw_alloc_wraps_to_start (size : Z) (s : t) (os : OS) :
  initialized s ->
  align_to size sizeof_ptr <= buffer_size s ->
  buffer_size s < buffer_off s + align_to size sizeof_ptr ->
  raw_alloc size s os
  = (buffer s, mk (buffer s) (buffer_size s) (align_to size sizeof_ptr), os).
Proof.
  intros (Hbuf & Hoff & Hsz) Hfit Hover.
  unfold raw_alloc.
  destruct (Z.eqb_spec (buffer s) 0) as [E | _]; [contradiction |].
  destruct (Z.ltb_spec (buffer_size s) (align_to size sizeof_ptr)) as [L | _]; [lia |].
  rewrite (u64_small (buffer_size s - buffer_off s)) by lia.
  destruct (Z.ltb_spec (buffer_size s - buffer_off s) (align_to size sizeof_ptr))
    as [_ | G]; [reflexivity | lia].
Qed.

Lemma raw_alloc_wraps_to_start_witness :
  raw_alloc 1000 (mk 4096 20480 20000) boot
  = (4096, mk 4096 20480 1000, boot).
Proof.
  apply (raw_alloc_wraps_to_start 1000 (mk 4096 20480 20000) boot).
  - unfold initialized; simpl; lia.
  - vm_compute; discriminate.
  - vm_compute; reflexivity.
Defined.

(** C8.  The comparison in [raw_dealloc] is against the cursor
    [buffer + buffer_off], which lies behind the block handed out
    last.  On the first 16 bytes of a fresh scratch buffer: freeing the
    pointer just returned leaves the cursor at 16, while the address 16
    bytes further, which no call returned, rewinds it to 0. *)
Theorem raw_dealloc_compares_with_cursor :
  let '(p, s, _) := raw_alloc 16 zero boot in
  p = buffer s /\ buffer_off s = 16 /\
  raw_dealloc p 16 s = s /\
  raw_dealloc (p + 16) 16 s = mk (buffer s) (buffer_size s) 0.
Proof. vm_compute. repeat split; reflexivity. Qed.

(** The same for every served request of non-zero aligned size. *)
Lemma raw_dealloc_of_last_block (size n : Z) (s : t) (os : OS) :
  initialized s -> buffer s + buffer_size s < 2 ^ 64 -> 0 < buffer s ->
  0 < align_to size sizeof_ptr <= buffer_size s ->
  let '(p, s', _) := raw_alloc size s os in
  raw_dealloc p n s' = s'.
Proof.
  intros (Hbuf & Hoff & Hsz) Htop Hpos Hreq.
  unfold raw_alloc.
  destruct (Z.eqb_spec (buffer s) 0) as [E | _]; [contradiction |].
  destruct (Z.ltb_spec (buffer_size s) (align_to size sizeof_ptr)) as [L | _]; [lia |].
  rewrite (u64_small (buffer_size s - buffer_off s)) by lia.
  destruct (Z.ltb_spec (buffer_size s - buffer_off s) (align_to size sizeof_ptr))
    as [W | G]; unfold raw_dealloc; simpl.
  - rewrite u64_small by lia.
    destruct (Z.eqb_spec (buffer s) (buffer s + align_to size sizeof_ptr)); [lia | reflexivity].
  - rewrite (u64_small (buffer_off s + _)) by lia.
    rewrite !u64_small by lia.
    destruct (Z.eqb_spec (buffer s + buffer_off s)
                (buffer s + (buffer_off s + align_to size sizeof_ptr))); [lia | reflexivity].
Qed.

End FixedBuffer.

(** ** ArenaAllocator *)

Section Arena.
Import ArenaAllocator.

Lemma load_Some p r w : p <> 0 -> regions w !! p = Some r -> load p w = Done r.
Proof.
  intros Hp Hr. unfold load.
  destruct (Z.eqb_spec p 0); [contradiction |]. rewrite Hr. reflexivity.
Qed.

(** A pool whose front region has no room for a descriptor stops
    [alloc_region] from ever returning: the loop test reads
    [current_region], the loop body advances [head]. *)
Lemma alloc_region_loop_stuck fuel cur rs a w cr :
  cur <> 0 -> regions w !! cur = Some cr ->
  u64 (size cr - off cr) < sizeof_Region ->
  forall x, alloc_region_loop fuel cur rs a w <> Done x.
Proof.
  intros Hcur Hcr Hfull.
  revert a. induction fuel as [| fuel IH]; intros a x; simpl; [discriminate |].
  destruct (Z.eqb_spec cur 0); [contradiction |].
  rewrite (load_Some cur cr w Hcur Hcr). simpl.
  destruct (Z.leb_spec sizeof_Region (u64 (size cr - off cr))); [lia |].
  destruct (load (head a) w) as [h | | |]; simpl; try discriminate.
  apply IH.
Qed.

Lemma alloc_region_stuck fuel rs a w cr :
  region_pool a <> 0 -> regions w !! region_pool a = Some cr ->
  u64 (size cr - off cr) < sizeof_Region ->
  forall x, alloc_region fuel rs a w <> Done x.
Proof.
  intros Hp Hcr Hfull x. unfold alloc_region.
  pose proof (alloc_region_loop_stuck fuel (region_pool a)
                (align_to rs COMT_PAGE_SIZE) a w cr Hp Hcr Hfull) as Hloop.
  destruct (alloc_region_loop fuel (region_pool a) (align_to rs COMT_PAGE_SIZE) a w)
    as [y | | |]; simpl; try discriminate.
  exfalso. exact (Hloop y eq_refl).
Qed.

(** The scan of [raw_alloc] serves nothing from a chain of full
    regions. *)
Lemma raw_alloc_scan_all_full w sz n :
  forall p, all_full n p sz w = true ->
  forall fuel y, raw_alloc_scan fuel p sz w = Done y -> y = (None, w).
Proof.
  induction n as [| n IH]; intros p Hfull fuel y; [discriminate |].
  simpl in Hfull.
  destruct fuel as [| fuel]; simpl; [discriminate |].
  destruct (Z.eqb_spec p 0) as [Hp0 | Hp]; [intros [= <-]; reflexivity |].
  unfold load. destruct (Z.eqb_spec p 0); [contradiction |].
  destruct (regions w !! p) as [r |]; [| discriminate]. simpl.
  apply andb_true_iff in Hfull. destruct Hfull as [Hr Hrest].
  apply Z.ltb_lt in Hr.
  destruct (Z.leb_spec sz (u64 (size r - off r))); [lia |].
  apply IH. exact Hrest.
Qed.

(** The scan finds nothing in a chain whose regions all lack [sz] bytes. *)
Lemma raw_alloc_scan_none w l :
  forall p fuel sz,
  chained w p l ->
  Forall (fun r => u64 (size r - off r) < sz) l ->
  (length l < fuel)%nat ->
  raw_alloc_scan fuel p sz w = Done (None, w).
Proof.
  induction l as [| r l IH]; intros p fuel sz Hch Hfull Hfuel.
  - inversion Hch; subst. destruct fuel; [simpl in Hfuel; lia | reflexivity].
  - inversion Hch as [| p' r' l' Hp Hr Hnext]; subst.
    destruct fuel as [| fuel]; [simpl in Hfuel; lia |].
    cbn [raw_alloc_scan].
    destruct (Z.eqb_spec p 0); [contradiction |].
    rewrite (load_Some p r w Hp Hr). cbn [obind].
    inversion Hfull as [| ? ? Hr_full Hrest]; subst.
    destruct (Z.leb_spec sz (u64 (size r - off r))); [lia |].
    apply IH; [assumption | assumption | simpl in Hfuel; lia].
Qed.

(** [alloc_region] where the defect of its loop is out of reach: the
    front pool region has room for a descriptor.  The descriptor is
    carved at the pool cursor, one page block is mapped for it, and
    [head] is not touched. *)
Lemma alloc_region_carves fuel rs a w cr :
  region_pool a <> 0 -> regions w !! region_pool a = Some cr ->
  sizeof_Region <= u64 (size cr - off cr) ->
  let region := u64 (data cr + off cr) in
  let region_size := align_to rs COMT_PAGE_SIZE in
  region <> 0 -> region <> MAP_FAILED -> region <> region_pool a ->
  region_size <> 0 ->
  0 <= os_map (os w) ->
  os_map (os w) + align_to region_size COMT_PAGE_SIZE <= USER_TOP ->
  alloc_region (S fuel) rs a w
  = Done (region, a,
          mkWorld
            (<[region_pool a := set_off cr (u64 (off cr + 32))]>
               (<[region := mkRegion 0 (os_map (os w)) region_size 0]> (regions w)))
            (mkOS (os_brk (os w))
               (os_map (os w) + align_to region_size COMT_PAGE_SIZE)
               (os_trace (os w) ++ [Mmap region_size (os_map (os w))]))).
Proof.
  intros Hp Hcr Hroom region region_size Hr0 Hr1 Hr2 Hsz Hmap Htop.
  unfold alloc_region. fold region_size. cbn [alloc_region_loop].
  destruct (Z.eqb_spec (region_pool a) 0); [contradiction |].
  rewrite (load_Some _ cr w Hp Hcr). cbn [obind].
  destruct (Z.leb_spec sizeof_Region (u64 (size cr - off cr))); [| lia].
  fold region. unfold _init_region.
  destruct (Z.eqb_spec region 0); [contradiction |].
  destruct (Z.eqb_spec region MAP_FAILED); [contradiction |]. cbn [orb].
  unfold COMT_ALLOC_PAGE.
  destruct (Z.eqb_spec region_size 0); [contradiction |]. cbn [orb].
  destruct (Z.ltb_spec USER_TOP (os_map (os w) + align_to region_size COMT_PAGE_SIZE));
    [lia |].
  destruct (Z.eqb_spec (os_map (os w)) MAP_FAILED) as [E | _].
  { pose proof (u64_range (region_size + Z.land (u64 (COMT_PAGE_SIZE -
        Z.land region_size (COMT_PAGE_SIZE - 1))) (COMT_PAGE_SIZE - 1))) as R.
    fold (align_to region_size COMT_PAGE_SIZE) in R.
    unfold MAP_FAILED, USER_TOP in *. lia. }
  cbn [obind]. unfold load at 1. cbn [regions].
  destruct (Z.eqb_spec (region_pool a) 0); [contradiction |].
  rewrite lookup_insert_ne by exact Hr2. rewrite Hcr. cbn [deref obind os].
  replace (align_to sizeof_Region sizeof_ptr) with 32 by (vm_compute; reflexivity).
  reflexivity.
Qed.

(** [raw_alloc] when no region of [head] fits and the pool has room: one
    page block is mapped, its descriptor becomes the new front of [head]
    with the old front as [next], the request is served from the start of
    the block, and every other descriptor is as before. *)
Lemma raw_alloc_new_region fuel sz a w cr l :
  chained w (head a) l ->
  Forall (fun r => u64 (size r - off r) < align_to sz sizeof_ptr) l ->
  (length l < S fuel)%nat ->
  region_pool a <> 0 -> regions w !! region_pool a = Some cr ->
  sizeof_Region <= u64 (size cr - off cr) ->
  let region := u64 (data cr + off cr) in
  let size := align_to sz sizeof_ptr in
  let region_size := align_to (align_to size COMT_PAGE_SIZE) COMT_PAGE_SIZE in
  region <> 0 -> region <> MAP_FAILED -> region <> region_pool a ->
  region_size <> 0 ->
  0 <= os_map (os w) ->
  os_map (os w) + align_to region_size COMT_PAGE_SIZE <= USER_TOP ->
  exists w',
    raw_alloc (S fuel) sz a w = Done (os_map (os w), mk region (region_pool a), w') /\
    regions w' !! region = Some (mkRegion (head a) (os_map (os w)) region_size size) /\
    (forall q, q <> region -> q <> region_pool a -> regions w' !! q = regions w !! q) /\
    os_trace (os w') = os_trace (os w) ++ [Mmap region_size (os_map (os w))].
Proof.
  intros Hch Hfull Hfuel Hp Hcr Hroom region size region_size Hr0 Hr1 Hr2 Hsz Hmap Htop.
  unfold raw_alloc. fold size.
  rewrite (raw_alloc_scan_none w l (head a) (S fuel) size Hch Hfull Hfuel). cbn [obind].
  rewrite (alloc_region_carves fuel (align_to size COMT_PAGE_SIZE) a w cr
             Hp Hcr Hroom Hr0 Hr1 Hr2 Hsz Hmap Htop).
  fold region region_size. cbn [obind].
  unfold load. cbn [regions os].
  destruct (Z.eqb_spec region 0); [contradiction |].
  rewrite lookup_insert_ne by congruence. rewrite lookup_insert_eq. cbn [deref obind].
  rewrite lookup_insert_eq. cbn [deref obind].
  unfold set_next, set_off. cbn [next data ArenaAllocator.size off head region_pool].
  eexists. split.
  - rewrite Z.add_0_r, Z.add_0_l.
    rewrite (u64_small (os_map (os w))) by (unfold USER_TOP in Htop;
      pose proof (u64_range (region_size + Z.land (u64 (COMT_PAGE_SIZE -
        Z.land region_size (COMT_PAGE_SIZE - 1))) (COMT_PAGE_SIZE - 1))) as R;
      fold (align_to region_size COMT_PAGE_SIZE) in R; lia).
    replace (u64 size) with size
      by (symmetry; unfold size, align_to; apply u64_small, u64_range).
    reflexivity.
  - cbn [regions os os_trace]. split; [apply lookup_insert_eq |]. split; [| reflexivity].
    intros q Hq1 Hq2.
    rewrite !lookup_insert_ne by congruence. reflexivity.
Qed.

(** First fit: the front region serves the request when it has room. *)
Lemma raw_alloc_first_fit fuel sz a w r :
  head a <> 0 -> regions w !! head a = Some r ->
  align_to sz sizeof_ptr <= u64 (size r - off r) ->
  raw_alloc (S fuel) sz a w
  = Done (u64 (data r + off r), a,
          mkWorld (<[head a := set_off r (u64 (off r + align_to sz sizeof_ptr))]>
                     (regions w)) (os w)).
Proof.
  intros Hh Hr Hfit. unfold raw_alloc. simpl.
  destruct (Z.eqb_spec (head a) 0); [contradiction |].
  rewrite (load_Some (head a) r w Hh Hr). simpl.
  destruct (Z.leb_spec (align_to sz sizeof_ptr) (u64 (size r - off r))); [| lia].
  reflexivity.
Qed.

(** [free] on a chain of [n] regions: [n] releases, each of the front
    region's page. *)
Lemma free_loop_releases_head w0 a h l :
  forall fuel r tr,
  head a <> 0 -> regions w0 !! head a = Some h ->
  chained w0 r l -> (length l < fuel)%nat ->
  free_loop fuel r a (mkWorld (regions w0) (mkOS (os_brk (os w0)) (os_map (os w0)) tr))
  = Done (mkWorld (regions w0)
            (mkOS (os_brk (os w0)) (os_map (os w0))
               (tr ++ replicate (length l) (Munmap (data h) (size h))))).
Proof.
  induction l as [| x l IH]; intros fuel r tr Hh Hhead Hch Hfuel.
  - inversion Hch; subst. destruct fuel; [simpl in Hfuel; lia |].
    simpl. rewrite app_nil_r. reflexivity.
  - inversion Hch as [| p' r' l' Hp Hr Hnext]; subst.
    destruct fuel as [| fuel]; [simpl in Hfuel; lia |].
    cbn [free_loop].
    destruct (Z.eqb_spec r 0); [contradiction |].
    unfold load. cbn [regions].
    destruct (Z.eqb_spec (head a) 0); [contradiction |].
    rewrite Hhead. cbn [deref obind].
    destruct (Z.eqb_spec r 0); [contradiction |].
    rewrite Hr. cbn [deref obind].
    unfold COMT_DEALLOC_PAGE. cbn [os os_brk os_map os_trace regions].
    rewrite (IH fuel (next x) (tr ++ [Munmap (data h) (size h)]) Hh Hhead Hnext)
      by (simpl in Hfuel; lia).
    cbn [length replicate]. rewrite <- app_assoc. reflexivity.
Qed.

Lemma crowded_checked : crowded_check.
Proof. vm_compute. reflexivity. Qed.

(** The arena after 128 page-sized requests: 128 full data regions,
    and a metadata page filled by their 128 descriptors. *)
Lemma crowded_arena :
  exists a w cr,
    repeat_alloc 128 200 COMT_PAGE_SIZE empty fresh = Done (a, w) /\
    length (chain 200 (head a) w) = 128%nat /\
    region_pool a <> 0 /\ regions w !! region_pool a = Some cr /\
    u64 (size cr - off cr) < sizeof_Region /\
    all_full 200 (head a) (align_to 8 sizeof_ptr) w = true /\
    alloc_region 200 COMT_PAGE_SIZE a w = Fault /\
    raw_alloc 200 8 a w = Fault.
Proof.
  pose proof crowded_checked as Hc. unfold crowded_check in Hc.
  destruct (repeat_alloc 128 200 COMT_PAGE_SIZE empty fresh) as [[a w] | | |];
    try contradiction.
  destruct (regions w !! region_pool a) as [cr |] eqn:Hcr;
    [| rewrite !andb_false_r in Hc; discriminate].
  repeat (apply andb_true_iff in Hc; destruct Hc as [Hc ?]).
  exists a, w, cr. split; [reflexivity |].
  split; [apply Nat.eqb_eq; assumption |].
  split; [apply Z.eqb_neq, negb_true_iff; assumption |].
  split; [exact Hcr |].
  split; [apply Z.ltb_lt; assumption |].
  split; [assumption |].
  split.
  - destruct (alloc_region 200 COMT_PAGE_SIZE a w); try discriminate; reflexivity.
  - destruct (raw_alloc 200 8 a w); try discriminate; reflexivity.
Qed.

(** C4.  After 128 page-sized requests on a new arena the metadata page
    holds 128 descriptors and is full.  From that state [alloc_region]
    returns for no fuel; with enough fuel to walk the whole [head] chain
    it ends in a null dereference ([head->next] on an exhausted
    [head]). *)
Theorem alloc_region_full_pool_never_returns :
  exists a w,
    repeat_alloc 128 200 COMT_PAGE_SIZE empty fresh = Done (a, w) /\
    length (chain 200 (head a) w) = 128%nat /\
    (forall fuel sz x, alloc_region fuel sz a w <> Done x) /\
    alloc_region 200 COMT_PAGE_SIZE a w = Fault.
Proof.
  destruct crowded_arena as (a & w & cr & E & Hlen & Hp & Hcr & Hfull & _ & Hfault & _).
  exists a, w. repeat split; [exact E | exact Hlen | | exact Hfault].
  intros fuel sz x. exact (alloc_region_stuck fuel sz a w cr Hp Hcr Hfull x).
Qed.

(** C6.  In the same state every region of [head] is full, so an 8-byte
    request finds no fit and needs a new region; [raw_alloc] returns
    for no fuel and faults once the fuel covers the chain. *)
Theorem raw_alloc_full_pool_never_returns :
  exists a w,
    repeat_alloc 128 200 COMT_PAGE_SIZE empty fresh = Done (a, w) /\
    all_full 200 (head a) (align_to 8 sizeof_ptr) w = true /\
    (forall fuel x, raw_alloc fuel 8 a w <> Done x) /\
    raw_alloc 200 8 a w = Fault.
Proof.
  destruct crowded_arena as (a & w & cr & E & _ & Hp & Hcr & Hfull & Hscan & _ & Hfault).
  exists a, w. repeat split; [exact E | exact Hscan | | exact Hfault].
  intros fuel x. unfold raw_alloc.
  set (sz := align_to 8 sizeof_ptr) in *.
  set (rs := align_to sz COMT_PAGE_SIZE).
  destruct (raw_alloc_scan fuel (head a) sz w) as [y | | |] eqn:Es; cbn [obind];
    [| discriminate | discriminate | discriminate].
  apply (raw_alloc_scan_all_full w sz 200 _ Hscan) in Es. subst y. cbn beta iota.
  pose proof (alloc_region_stuck fuel rs a w cr Hp Hcr Hfull) as Hstuck.
  destruct (alloc_region fuel rs a w) as [z | | |]; cbn [obind];
    [| discriminate | discriminate | discriminate].
  exfalso. exact (Hstuck z eq_refl).
Qed.

(** The part of [raw_alloc] that the metadata pool does not disturb:
    one 4096-byte region in [head], then a request of 5000 bytes.  The
    new region has 8192 bytes, comes first in [head] and serves the
    request from its start; the old region follows it. *)
Lemma raw_alloc_5000_after_4096 :
  match raw_alloc 10 64 empty fresh with
  | Done (_, a0, w0) =>
    match raw_alloc 10 5000 a0 w0 with
    | Done (p, a, w) =>
      match load (head a) w with
      | Done r_new =>
        match load (next r_new) w with
        | Done r_old =>
          chain 10 (head a0) w0 = [head a0] /\
          next r_new = head a0 /\ next r_old = 0 /\
          size r_old = 4096 /\ size r_new = 8192 /\
          p = data r_new /\ off r_new = 5000
        | _ => False
        end
      | _ => False
      end
    | _ => False
    end
  | _ => False
  end.
Proof. vm_compute. repeat split; reflexivity. Qed.

(** C9.  An arena with two regions in [head] (two requests of 5000
    bytes): [free] calls the page release twice, both times with the
    page and size of the front region; the page of the region behind
    it is not released. *)
Theorem free_releases_front_page_only :
  match repeat_alloc 2 10 5000 empty fresh with
  | Done (a, w) =>
    match load (head a) w, free 10 a w with
    | Done r2, Done w' =>
      match load (next r2) w with
      | Done r1 =>
        next r1 = 0 /\ data r1 <> data r2 /\
        released (os_trace (os w'))
        = [(data r2, size r2); (data r2, size r2)]
      | _ => False
      end
    | _, _ => False
    end
  | _ => False
  end.
Proof. vm_compute. split; [reflexivity | split; [discriminate | reflexivity]]. Qed.

End Arena.

(** ** Arrays *)

Section Arrays.
Context {T : Type}.
Implicit Types (l : list T) (i j : Z) (x : T).

Lemma cell_Done l i x :
  cell l i = Done x -> 0 <= i < Z.of_nat (length l) /\ l !! Z.to_nat i = Some x.
Proof.
  unfold cell. destruct (Z.ltb_spec i 0); [discriminate |].
  destruct (l !! Z.to_nat i) as [y |] eqn:E; simpl; [| discriminate].
  intros [= ->]. split; [| reflexivity].
  apply lookup_lt_Some in E. lia.
Qed.

Lemma cell_in_range l i :
  0 <= i < Z.of_nat (length l) -> exists x, cell l i = Done x.
Proof.
  intros Hi. unfold cell. destruct (Z.ltb_spec i 0); [lia |].
  destruct (lookup_lt_is_Some_2 l (Z.to_nat i)) as [x Hx]; [lia |].
  exists x. rewrite Hx. reflexivity.
Qed.

Lemma cell_out_of_range l i : Z.of_nat (length l) <= i -> cell l i = Fault.
Proof.
  intros Hi. unfold cell. destruct (Z.ltb_spec i 0); [reflexivity |].
  rewrite lookup_ge_None_2 by lia. reflexivity.
Qed.

Lemma store_in_range l i x :
  0 <= i < Z.of_nat (length l) -> store l i x = Done (<[Z.to_nat i := x]> l).
Proof.
  intros Hi. unfold store.
  destruct (Z.leb_spec 0 i); [| lia].
  destruct (Z.ltb_spec i (Z.of_nat (length l))); [reflexivity | lia].
Qed.

Lemma cell_insert_eq l i x :
  0 <= i < Z.of_nat (length l) -> cell (<[Z.to_nat i := x]> l) i = Done x.
Proof.
  intros Hi. unfold cell. destruct (Z.ltb_spec i 0); [lia |].
  rewrite list_lookup_insert_eq by lia. reflexivity.
Qed.

Lemma cell_insert_ne l i j x :
  0 <= i -> i <> j -> cell (<[Z.to_nat i := x]> l) j = cell l j.
Proof.
  intros Hi Hij. unfold cell. destruct (Z.ltb_spec j 0); [reflexivity |].
  rewrite list_lookup_insert_ne by lia. reflexivity.
Qed.

End Arrays.

(** ** Occupancy bytes *)

Lemma occupied_after_lor m : COMT_TAB_IS_OCCUPIED (Z.lor m COMT_TAB_META_OCCUPIED) = true.
Proof.
  unfold COMT_TAB_IS_OCCUPIED, COMT_TAB_META_OCCUPIED.
  apply negb_true_iff, Z.eqb_neq. intros E.
  apply (f_equal (fun z => Z.testbit z 0)) in E.
  rewrite Z.land_spec, Z.lor_spec in E. simpl in E.
  rewrite orb_true_r in E. discriminate.
Qed.

Lemma free_not_occupied m : COMT_TAB_IS_FREE m = true <-> COMT_TAB_IS_OCCUPIED m = false.
Proof. unfold COMT_TAB_IS_FREE. apply negb_true_iff. Qed.

Lemma occupied_count_range ms : 0 <= occupied_count ms <= Z.of_nat (length ms).
Proof.
  induction ms as [| m ms IH]; simpl; [lia |].
  destruct (COMT_TAB_IS_OCCUPIED m); lia.
Qed.

Lemma occupied_count_app ms ms' :
  occupied_count (ms ++ ms') = occupied_count ms + occupied_count ms'.
Proof. induction ms as [| m ms IH]; simpl; [reflexivity | rewrite IH; lia]. Qed.

Lemma occupied_count_free ms :
  Forall (fun m => COMT_TAB_IS_FREE m = true) ms -> occupied_count ms = 0.
Proof.
  induction 1 as [| m ms Hm _ IH]; simpl; [reflexivity |].
  apply free_not_occupied in Hm. rewrite Hm, IH. reflexivity.
Qed.

(** A table that is not full has a free slot. *)
Lemma occupied_count_room ms :
  occupied_count ms < Z.of_nat (length ms) ->
  exists i m, cell ms i = Done m /\ COMT_TAB_IS_OCCUPIED m = false.
Proof.
  induction ms as [| m ms IH]; simpl; [lia |].
  destruct (COMT_TAB_IS_OCCUPIED m) eqn:Em; intros Hlt.
  - destruct IH as (i & m' & Hi & Hm'); [lia |].
    apply cell_Done in Hi as Hr. destruct Hr as [Hr Hl].
    exists (i + 1), m'. split; [| exact Hm'].
    unfold cell. destruct (Z.ltb_spec (i + 1) 0); [lia |].
    replace (Z.to_nat (i + 1)) with (S (Z.to_nat i)) by lia.
    simpl. rewrite Hl. reflexivity.
  - exists 0, m. split; [reflexivity | exact Em].
Qed.

Lemma occupied_count_insert ms (n : nat) m m' :
  ms !! n = Some m -> COMT_TAB_IS_OCCUPIED m = false -> COMT_TAB_IS_OCCUPIED m' = true ->
  occupied_count (<[n := m']> ms) = occupied_count ms + 1.
Proof.
  revert n. induction ms as [| x ms IH]; intros n Hn Hm Hm'; [discriminate |].
  destruct n as [| n]; simpl in *.
  - injection Hn as ->. rewrite Hm, Hm'. lia.
  - rewrite (IH n Hn Hm Hm'). lia.
Qed.

Lemma occupied_count_take_S ms (n : nat) m :
  ms !! n = Some m ->
  occupied_count (take (S n) ms)
  = occupied_count (take n ms) + (if COMT_TAB_IS_OCCUPIED m then 1 else 0).
Proof.
  intros Hn. rewrite (take_S_r _ _ _ Hn), occupied_count_app. simpl. lia.
Qed.

(** ** Probe arithmetic *)

Section Probe.
Variables (h c : Z).
Hypothesis Hc : 0 < c.

Lemma probe_range d : 0 <= (h + d) mod c < c.
Proof. apply Z.mod_pos_bound. exact Hc. Qed.

Lemma probe_next d :
  c < 2 ^ 64 -> u64 ((h + d) mod c + 1) mod c = (h + (d + 1)) mod c.
Proof.
  intros Hhi. pose proof (probe_range d).
  rewrite u64_small by lia.
  rewrite Zplus_mod_idemp_l. f_equal. lia.
Qed.

Lemma probe_dist d : 0 <= d < c -> ((h + d) mod c - h) mod c = d.
Proof.
  intros Hd. rewrite Zminus_mod_idemp_l.
  replace (h + d - h) with d by lia. apply Z.mod_small. exact Hd.
Qed.

Lemma probe_back i : 0 <= i < c -> (h + (i - h) mod c) mod c = i.
Proof.
  intros Hi. rewrite Zplus_mod_idemp_r.
  replace (h + (i - h)) with i by lia. apply Z.mod_small. exact Hi.
Qed.

Lemma probe_inj d e :
  0 <= d < c -> 0 <= e < c -> (h + d) mod c = (h + e) mod c -> d = e.
Proof.
  intros Hd He E. rewrite <- (probe_dist d Hd), <- (probe_dist e He), E. reflexivity.
Qed.

Lemma probe_full_circle : (h + c) mod c = (h + 0) mod c.
Proof.
  rewrite Z.add_0_r. rewrite <- (Z.mul_1_l c) at 1.
  apply Z.mod_add. lia.
Qed.

End Probe.

(** ** Runs of [put] calls *)

Section Runs.
Context {K V : Type} `{EqDecision K}.
Implicit Types (ops : list (K * V)) (k : K) (v : V) (l : list K).

Lemma latest_snoc ops k v k' :
  latest (ops ++ [(k, v)]) k' = if decide (k = k') then Some v else latest ops k'.
Proof.
  induction ops as [| [k0 v0] ops IH]; simpl.
  - reflexivity.
  - rewrite IH. destruct (decide (k = k')); reflexivity.
Qed.

Lemma latest_None ops k : latest ops k = None <-> k ∉ ops.*1.
Proof.
  induction ops as [| [k0 v0] ops IH]; simpl.
  - split; [intros _; apply not_elem_of_nil | reflexivity].
  - rewrite not_elem_of_cons. destruct (latest ops k) as [v |].
    + split; [discriminate |]. intros [_ Hn]. apply IH in Hn. discriminate.
    + destruct (decide (k0 = k)) as [-> | Hne].
      * split; [discriminate | intros [Hn _]; contradiction].
      * split; [| reflexivity]. intros _. split; [congruence | apply IH; reflexivity].
Qed.

Lemma remove_dups_snoc_length l k :
  length (remove_dups (l ++ [k]))
  = (length (remove_dups l) + (if decide (k ∈ l) then 0 else 1))%nat.
Proof.
  induction l as [| x l IH].
  - simpl. destruct (decide_rel elem_of k []) as [Hin | _]; [inversion Hin |].
    destruct (decide (k ∈ [])) as [Hin | _]; [inversion Hin | reflexivity].
  - cbn [app remove_dups].
    assert (Hx : x ∈ l ++ [k] <-> x ∈ l \/ x = k)
      by (rewrite elem_of_app, list_elem_of_singleton; reflexivity).
    assert (Hxk : k ∈ x :: l <-> k = x \/ k ∈ l) by apply elem_of_cons.
    destruct (decide_rel elem_of x (l ++ [k])) as [Hin | Hout];
      destruct (decide_rel elem_of x l) as [Hin' | Hout'];
      cbn [length]; rewrite ?IH;
      destruct (decide (k ∈ l)) as [Hk' | Hk'];
      destruct (decide (k ∈ x :: l)) as [Hk2 | Hk2];
      try lia; exfalso; rewrite ?Hx, ?Hxk in *; intuition congruence.
Qed.

Lemma distinct_snoc ops k v :
  distinct (ops ++ [(k, v)]) = distinct ops + (if decide (k ∈ ops.*1) then 0 else 1).
Proof.
  unfold distinct. rewrite fmap_app. cbn [fmap list_fmap fst].
  rewrite remove_dups_snoc_length. destruct (decide (k ∈ ops.*1)); lia.
Qed.

Lemma distinct_range ops : 0 <= distinct ops <= Z.of_nat (length ops).
Proof.
  unfold distinct. rewrite <- (length_fmap fst ops).
  generalize (ops.*1). intros l. split; [lia |].
  induction l as [| x l IH]; simpl; [lia |].
  destruct (decide_rel elem_of x l); simpl; lia.
Qed.

End Runs.

(** ** Table: slots and the probe of [put] *)

Section TableFacts.
Context {K V : Type} `{EqDecision K} (hash : K -> Z).
Context {A : Type} `{Allocator A K, Allocator A V, Allocator A Z}.
Import Table.
Implicit Types (tab : Table.t K V) (k key : K) (v value : V) (i j d e m : Z).

Lemma holds_range tab i k : holds tab i k -> 0 <= i < Z.of_nat (length (meta tab)).
Proof. intros (m & Hm & _). apply cell_Done in Hm. tauto. Qed.

Lemma holds_key_unique tab i k k' : holds tab i k -> holds tab i k' -> k = k'.
Proof. intros (m & _ & _ & Hk) (m' & _ & _ & Hk'). congruence. Qed.

Lemma holds_not_free tab i k m :
  holds tab i k -> cell (meta tab) i = Done m -> COMT_TAB_IS_OCCUPIED m = false -> False.
Proof. intros (m' & Hm' & Ho & _) Hm Hf. congruence. Qed.

(** A key is stored in at most one slot. *)
Lemma holds_unique tab i j k : wf hash tab -> holds tab i k -> holds tab j k -> i = j.
Proof.
  intros [Hcap _ _ _ Hm _ Hpath] Hi Hj.
  pose proof (holds_range _ _ _ Hi) as Ri. pose proof (holds_range _ _ _ Hj) as Rj.
  rewrite Hm in Ri, Rj.
  pose proof (Z.mod_pos_bound (i - u64 (hash k)) _ Hcap) as Di.
  pose proof (Z.mod_pos_bound (j - u64 (hash k)) _ Hcap) as Dj.
  destruct (Z.lt_trichotomy ((i - u64 (hash k)) mod capacity tab)
              ((j - u64 (hash k)) mod capacity tab)) as [L | [E | G]].
  - destruct (Hpath j k Hj ((i - u64 (hash k)) mod capacity tab)) as (k' & Hk' & Hne);
      [lia |].
    unfold slot in Hk'. rewrite probe_back in Hk' by lia.
    elim Hne. eapply holds_key_unique; eassumption.
  - rewrite <- (probe_back (u64 (hash k)) (capacity tab) i), <- (probe_back (u64 (hash k)) (capacity tab) j)
      by lia.
    rewrite E. reflexivity.
  - destruct (Hpath i k Hi ((j - u64 (hash k)) mod capacity tab)) as (k' & Hk' & Hne);
      [lia |].
    unfold slot in Hk'. rewrite probe_back in Hk' by lia.
    elim Hne. eapply holds_key_unique; eassumption.
Qed.

Lemma entry_unique tab k v v' :
  wf hash tab -> entry tab k v -> entry tab k v' -> v = v'.
Proof.
  intros Hwf (i & Hi & Hv) (j & Hj & Hv').
  rewrite (holds_unique tab i j k Hwf Hi Hj) in Hv. congruence.
Qed.

(** *** The three branches of one probe step *)

Lemma put_probe_free fuel tab key value i m :
  wf hash tab -> cell (meta tab) i = Done m -> COMT_TAB_IS_OCCUPIED m = false ->
  put_probe (S fuel) tab key value i = Done (fill tab i m key value).
Proof.
  intros [_ _ Hk Hv Hm _ _] Hcell Hfree.
  apply cell_Done in Hcell as Hr. destruct Hr as [Hr _].
  cbn [put_probe]. rewrite Hcell. cbn [obind].
  unfold COMT_TAB_IS_FREE. rewrite Hfree. cbn [negb].
  rewrite !store_in_range by lia. reflexivity.
Qed.

Lemma put_probe_match fuel tab key value i :
  wf hash tab -> holds tab i key ->
  put_probe (S fuel) tab key value i = Done (update tab i key value).
Proof.
  intros [_ _ Hk Hv Hm _ _] (m & Hcell & Hocc & Hkey).
  apply cell_Done in Hcell as Hr. destruct Hr as [Hr _].
  cbn [put_probe]. rewrite Hcell. cbn [obind].
  unfold COMT_TAB_IS_FREE. rewrite Hocc. cbn [negb].
  rewrite Hkey. cbn [obind].
  rewrite bool_decide_eq_true_2 by reflexivity.
  rewrite !store_in_range by lia. reflexivity.
Qed.

Lemma put_probe_skip fuel tab key value k' d :
  wf hash tab -> holds tab (slot hash tab key d) k' -> k' <> key ->
  put_probe (S fuel) tab key value (slot hash tab key d)
  = put_probe fuel tab key value (slot hash tab key (d + 1)).
Proof.
  intros [Hcap Hhi _ _ _ _ _] (m & Hcell & Hocc & Hkey) Hne.
  cbn [put_probe]. rewrite Hcell. cbn [obind].
  unfold COMT_TAB_IS_FREE. rewrite Hocc. cbn [negb].
  rewrite Hkey. cbn [obind].
  rewrite bool_decide_eq_false_2 by exact Hne.
  destruct (Z.eqb_spec (capacity tab) 0); [lia |].
  unfold slot. rewrite probe_next by lia. reflexivity.
Qed.

(** *** Slots after a write *)

Lemma holds_fill_ne tab i m key value j k :
  0 <= i -> j <> i -> holds (fill tab i m key value) j k <-> holds tab j k.
Proof.
  intros Hi Hne. unfold holds, fill. cbn [meta keys].
  rewrite !cell_insert_ne by congruence. reflexivity.
Qed.

Lemma holds_fill_eq tab i m key value :
  wf hash tab -> 0 <= i < capacity tab -> holds (fill tab i m key value) i key.
Proof.
  intros [_ _ Hk _ Hm _ _] Hi. exists (Z.lor m COMT_TAB_META_OCCUPIED).
  unfold fill. cbn [meta keys].
  rewrite !cell_insert_eq by lia.
  split; [reflexivity |]. split; [apply occupied_after_lor | reflexivity].
Qed.

Lemma update_keys tab i key value :
  holds tab i key ->
  update tab i key value
  = mk (keys tab) (<[Z.to_nat i := value]> (values tab)) (meta tab) (count tab)
       (capacity tab).
Proof.
  intros (m & _ & _ & Hkey). apply cell_Done in Hkey as [_ Hkey].
  unfold update. rewrite (list_insert_id _ _ _ Hkey). reflexivity.
Qed.

Lemma holds_update tab i key value j k :
  holds tab i key -> holds (update tab i key value) j k <-> holds tab j k.
Proof. intros Hi. rewrite (update_keys _ _ _ _ Hi). reflexivity. Qed.

(** *** The insert branch keeps the invariant *)

Lemma fill_post tab key value n m :
  wf hash tab -> 0 <= n < capacity tab ->
  cell (meta tab) (slot hash tab key n) = Done m -> COMT_TAB_IS_OCCUPIED m = false ->
  (forall e, 0 <= e < n -> exists k', holds tab (slot hash tab key e) k' /\ k' <> key) ->
  put_post hash tab key value (fill tab (slot hash tab key n) m key value).
Proof.
  intros Hwf Hn Hcell Hfree Hbefore.
  pose proof Hwf as [Hcap Hhi Hk Hv Hm Hcnt Hpath].
  set (i := slot hash tab key n) in *.
  assert (Hi : 0 <= i < capacity tab) by (apply probe_range; exact Hcap).
  assert (Hfresh : forall j k, holds tab j k -> j <> i).
  { intros j k Hj ->. exact (holds_not_free _ _ _ _ Hj Hcell Hfree). }
  assert (Habsent : forall v0, ~ entry tab key v0).
  { intros v0 (j & Hj & _).
    pose proof (holds_range _ _ _ Hj) as Rj. rewrite Hm in Rj.
    pose proof (Z.mod_pos_bound (j - u64 (hash key)) _ Hcap) as Dj.
    destruct (Z.lt_trichotomy ((j - u64 (hash key)) mod capacity tab) n) as [L | [E | G]].
    - destruct (Hbefore _ (conj (proj1 Dj) L)) as (k' & Hk' & Hne).
      unfold slot in Hk'. rewrite probe_back in Hk' by lia.
      apply Hne. eapply holds_key_unique; eassumption.
    - apply (Hfresh j key Hj). unfold i, slot. rewrite <- E.
      rewrite probe_back by lia. reflexivity.
    - destruct (Hpath j key Hj n) as (k' & Hk' & _); [lia |].
      exact (Hfresh _ _ Hk' eq_refl). }
  assert (Hwf' : wf hash (fill tab i m key value)).
  { constructor;
      [exact Hcap | exact Hhi
      | unfold fill; cbn [keys capacity]; rewrite length_insert; exact Hk
      | unfold fill; cbn [values capacity]; rewrite length_insert; exact Hv
      | unfold fill; cbn [meta capacity]; rewrite length_insert; exact Hm
      | unfold fill; cbn [meta count] | ].
    - apply cell_Done in Hcell as [_ Hl].
      rewrite (occupied_count_insert _ _ _ _ Hl Hfree (occupied_after_lor m)).
      rewrite Hcnt. apply u64_small.
      pose proof (occupied_count_range
                    (<[Z.to_nat i := Z.lor m COMT_TAB_META_OCCUPIED]> (meta tab))) as R.
      rewrite (occupied_count_insert _ _ _ _ Hl Hfree (occupied_after_lor m)) in R.
      rewrite length_insert in R. lia.
    - intros j k Hj e He.
      destruct (Z.eq_dec j i) as [-> | Hji].
      + assert (k = key) as ->.
        { eapply holds_key_unique; [exact Hj |]. apply holds_fill_eq; assumption. }
        assert (Hd : (i - u64 (hash key)) mod capacity tab = n)
          by (unfold i, slot; apply probe_dist; lia).
        unfold fill in He; cbn [capacity] in He. rewrite Hd in He.
        destruct (Hbefore e He) as (k' & Hk' & Hne).
        exists k'. split; [| exact Hne].
        change (slot hash (fill tab i m key value) key e) with (slot hash tab key e).
        apply holds_fill_ne; [lia | | exact Hk'].
        exact (Hfresh _ _ Hk').
      + apply holds_fill_ne in Hj; [| lia | exact Hji].
        unfold fill in He; cbn [capacity] in He.
        destruct (Hpath j k Hj e He) as (k' & Hk' & Hne).
        exists k'. split; [| exact Hne].
        change (slot hash (fill tab i m key value) k e) with (slot hash tab k e).
        apply holds_fill_ne; [lia | | exact Hk'].
        exact (Hfresh _ _ Hk'). }
  split; [exact Hwf' |]. split; [reflexivity |].
  split.
  { exists i. split; [apply holds_fill_eq; assumption |].
    unfold fill. cbn [values]. apply cell_insert_eq. lia. }
  split.
  { intros k v Hne. split.
    - intros (j & Hj & Hval).
      assert (Hji : j <> i).
      { intros ->. apply Hne. eapply holds_key_unique; [exact Hj |].
        apply holds_fill_eq; assumption. }
      exists j. split; [apply holds_fill_ne in Hj; [exact Hj | lia | exact Hji] |].
      unfold fill in Hval. cbn [values] in Hval.
      rewrite cell_insert_ne in Hval by (lia || congruence). exact Hval.
    - intros (j & Hj & Hval).
      pose proof (Hfresh _ _ Hj) as Hji.
      exists j. split; [apply holds_fill_ne; [lia | exact Hji | exact Hj] |].
      unfold fill. cbn [values].
      rewrite cell_insert_ne by (lia || congruence). exact Hval. }
  right. split; [exact Habsent |].
  unfold fill. cbn [count]. apply u64_small.
  pose proof (occupied_count_range
                (<[Z.to_nat i := Z.lor m COMT_TAB_META_OCCUPIED]> (meta tab))) as R.
  apply cell_Done in Hcell as [_ Hl].
  rewrite (occupied_count_insert _ _ _ _ Hl Hfree (occupied_after_lor m)) in R.
  rewrite length_insert in R. lia.
Qed.

(** *** The update branch keeps the invariant *)

Lemma update_post tab key value i :
  wf hash tab -> holds tab i key ->
  put_post hash tab key value (update tab i key value).
Proof.
  intros Hwf Hi.
  pose proof Hwf as [Hcap Hhi Hk Hv Hm Hcnt Hpath].
  pose proof (holds_range _ _ _ Hi) as Ri. rewrite Hm in Ri.
  assert (Hwf' : wf hash (update tab i key value)).
  { rewrite (update_keys _ _ _ _ Hi).
    constructor; cbn [capacity keys values meta count];
      rewrite ?length_insert; try assumption. }
  split; [exact Hwf' |]. split; [reflexivity |].
  split.
  { exists i. split; [apply holds_update; assumption |].
    unfold update. cbn [values]. apply cell_insert_eq. lia. }
  split.
  { intros k v Hne.
    assert (Hoff : forall j, holds tab j k -> j <> i).
    { intros j Hj ->. apply Hne. eapply holds_key_unique; eassumption. }
    split; intros (j & Hj & Hval).
    - apply holds_update in Hj; [| exact Hi].
      exists j. split; [exact Hj |].
      unfold update in Hval. cbn [values] in Hval.
      rewrite cell_insert_ne in Hval; [exact Hval | lia |].
      intros E. exact (Hoff j Hj (eq_sym E)).
    - exists j. split; [apply holds_update; assumption |].
      unfold update. cbn [values].
      rewrite cell_insert_ne; [exact Hval | lia |].
      intros E. exact (Hoff j Hj (eq_sym E)). }
  left. split; [| reflexivity].
  destruct (cell_in_range (values tab) i) as [v0 Hv0]; [lia |].
  exists v0, i. split; assumption.
Qed.

(** *** The probe of [put] ends *)

Lemma put_probe_spec tab key value :
  wf hash tab ->
  forall (r : nat) (d : Z) (fuel : nat),
    0 <= d -> d + Z.of_nat r = capacity tab -> (r <= fuel)%nat ->
    (forall e, 0 <= e < d ->
       exists k', holds tab (slot hash tab key e) k' /\ k' <> key) ->
    (exists e m, d <= e < capacity tab /\
       cell (meta tab) (slot hash tab key e) = Done m /\
       COMT_TAB_IS_OCCUPIED m = false) ->
    exists tab',
      put_probe fuel tab key value (slot hash tab key d) = Done tab' /\
      put_post hash tab key value tab'.
Proof.
  intros Hwf. pose proof Hwf as [Hcap Hhi Hk Hv Hm Hcnt Hpath].
  induction r as [| r IH]; intros d fuel Hd Hr Hfuel Hbefore (e & m & He & Hcell & Hfree).
  - lia.
  - destruct fuel as [| fuel]; [lia |].
    pose proof (probe_range (u64 (hash key)) _ Hcap d) as Rd.
    destruct (cell_in_range (meta tab) (slot hash tab key d)) as [m0 Hm0];
      [unfold slot; lia |].
    destruct (COMT_TAB_IS_OCCUPIED m0) eqn:Hocc.
    + destruct (cell_in_range (keys tab) (slot hash tab key d)) as [k0 Hk0];
        [unfold slot; lia |].
      assert (Hholds : holds tab (slot hash tab key d) k0) by (exists m0; auto).
      destruct (decide (k0 = key)) as [-> | Hne].
      * rewrite (put_probe_match fuel tab key value _ Hwf Hholds).
        eexists. split; [reflexivity |]. apply update_post; assumption.
      * rewrite (put_probe_skip fuel tab key value k0 d Hwf Hholds Hne).
        apply IH; [lia | lia | lia | |].
        -- intros e' He'. destruct (Z.eq_dec e' d) as [-> | Hed].
           ++ exists k0. split; assumption.
           ++ apply Hbefore. lia.
        -- exists e, m. split; [| split; assumption].
           destruct (Z.eq_dec e d) as [-> | Hed]; [| lia].
           congruence.
    + rewrite (put_probe_free fuel tab key value _ m0 Hwf Hm0 Hocc).
      eexists. split; [reflexivity |]. apply fill_post; try assumption. lia.
Qed.

(** *** The load-factor gate *)

Lemma load_percentage_value tab :
  wf hash tab -> load_percentage tab = count tab * 100 / capacity tab.
Proof.
  intros [Hcap Hhi _ _ Hm Hcnt _]. unfold load_percentage.
  pose proof (occupied_count_range (meta tab)) as R.
  rewrite u64_small by lia.
  apply Z.mod_small. split.
  - apply Z.div_pos; lia.
  - apply Z.div_lt_upper_bound; lia.
Qed.

Lemma load_below tab :
  wf hash tab -> load_percentage tab < 70 <-> count tab * 100 < 70 * capacity tab.
Proof.
  intros Hwf. rewrite (load_percentage_value tab Hwf).
  destruct Hwf as [Hcap _ _ _ _ _ _]. split.
  - intros Hlt. destruct (Z.lt_ge_cases (count tab * 100) (70 * capacity tab)) as [L | G];
      [exact L |].
    assert (70 <= count tab * 100 / capacity tab)
      by (apply Z.div_le_lower_bound; lia).
    lia.
  - intros Hlt. apply Z.div_lt_upper_bound; lia.
Qed.

(** A table that is not full has a free slot on every probe path. *)
Lemma free_slot_on_path tab key :
  wf hash tab -> count tab < capacity tab ->
  exists e m, 0 <= e < capacity tab /\
    cell (meta tab) (slot hash tab key e) = Done m /\ COMT_TAB_IS_OCCUPIED m = false.
Proof.
  intros [Hcap _ _ _ Hm Hcnt _] Hroom.
  destruct (occupied_count_room (meta tab)) as (i & m & Hi & Hfree); [lia |].
  apply cell_Done in Hi as Hr. destruct Hr as [Hr _].
  exists ((i - u64 (hash key)) mod capacity tab), m.
  split; [apply Z.mod_pos_bound; exact Hcap |].
  unfold slot. rewrite probe_back by lia. split; assumption.
Qed.

(** [put] below the load threshold: no allocation, one probe. *)
Lemma put_in_place fuel tab key value a :
  wf hash tab -> load_percentage tab < 70 -> (Z.to_nat (capacity tab) < fuel)%nat ->
  exists tab',
    put hash fuel tab key value a = Done (tab', a) /\
    put_post hash tab key value tab'.
Proof.
  intros Hwf Hload Hfuel. pose proof Hwf as [Hcap _ _ _ _ _ _].
  destruct fuel as [| fuel]; [lia |].
  cbn [put]. unfold grow.
  destruct (Z.leb_spec 70 (load_percentage tab)); [lia |]. cbn [obind].
  destruct (Z.eqb_spec (capacity tab) 0); [lia |].
  apply (load_below tab Hwf) in Hload.
  destruct (free_slot_on_path tab key Hwf) as (e & m & He & Hcell & Hfree); [lia |].
  destruct (put_probe_spec tab key value Hwf (Z.to_nat (capacity tab)) 0 fuel)
    as (tab' & Hrun & Hpost); [lia | lia | lia | intros; lia | |].
  { exists e, m. auto. }
  unfold slot in Hrun at 1. rewrite Z.add_0_r in Hrun. rewrite Hrun. cbn [obind].
  exists tab'. split; [reflexivity | exact Hpost].
Qed.

(** *** [get] and [has] *)

Lemma hit_holds tab key i : holds tab i key -> hit tab key i = Done true.
Proof.
  intros (m & Hm & Hocc & Hk). unfold hit. rewrite Hm. cbn [obind].
  rewrite Hocc, Hk. cbn [obind]. rewrite bool_decide_eq_true_2; reflexivity.
Qed.

Lemma hit_other tab key i k' : holds tab i k' -> k' <> key -> hit tab key i = Done false.
Proof.
  intros (m & Hm & Hocc & Hk) Hne. unfold hit. rewrite Hm. cbn [obind].
  rewrite Hocc, Hk. cbn [obind]. rewrite bool_decide_eq_false_2; [reflexivity | exact Hne].
Qed.

Lemma hit_free tab key i m :
  cell (meta tab) i = Done m -> COMT_TAB_IS_OCCUPIED m = false -> hit tab key i = Done false.
Proof. intros Hm Hocc. unfold hit. rewrite Hm. cbn [obind]. rewrite Hocc. reflexivity. Qed.

Lemma slot_next tab key d :
  0 < capacity tab < 2 ^ 64 ->
  u64 (slot hash tab key d + 1) mod capacity tab = slot hash tab key (d + 1).
Proof. intros Hcap. unfold slot. apply probe_next; lia. Qed.

Lemma get_loop_skip tab key out :
  0 < capacity tab < 2 ^ 64 ->
  forall (n : nat) (d : Z) (fuel : nat),
    0 <= d -> d + Z.of_nat n < capacity tab -> (n <= fuel)%nat ->
    (forall e, d <= e < d + Z.of_nat n -> hit tab key (slot hash tab key e) = Done false) ->
    get_loop fuel tab key out (slot hash tab key d) (slot hash tab key 0)
    = get_loop (fuel - n) tab key out (slot hash tab key (d + Z.of_nat n))
        (slot hash tab key 0).
Proof.
  intros Hcap. induction n as [| n IH]; intros d fuel Hd Hn Hfuel Hmiss.
  - rewrite Z.add_0_r, Nat.sub_0_r. reflexivity.
  - destruct fuel as [| fuel]; [lia |].
    cbn [get_loop]. rewrite Hmiss by lia. cbn [obind].
    destruct (Z.eqb_spec (capacity tab) 0); [lia |].
    rewrite slot_next by lia.
    destruct (Z.eqb_spec (slot hash tab key (d + 1)) (slot hash tab key 0)) as [E | _].
    + apply probe_inj in E; lia.
    + rewrite IH; [| lia | lia | lia | intros; apply Hmiss; lia].
      replace (d + 1 + Z.of_nat n) with (d + Z.of_nat (S n)) by lia.
      reflexivity.
Qed.

Lemma has_loop_skip tab key :
  0 < capacity tab < 2 ^ 64 ->
  forall (n : nat) (d : Z) (fuel : nat),
    0 <= d -> d + Z.of_nat n < capacity tab -> (n <= fuel)%nat ->
    (forall e, d <= e < d + Z.of_nat n -> hit tab key (slot hash tab key e) = Done false) ->
    has_loop fuel tab key (slot hash tab key d) (slot hash tab key 0)
    = has_loop (fuel - n) tab key (slot hash tab key (d + Z.of_nat n))
        (slot hash tab key 0).
Proof.
  intros Hcap. induction n as [| n IH]; intros d fuel Hd Hn Hfuel Hmiss.
  - rewrite Z.add_0_r, Nat.sub_0_r. reflexivity.
  - destruct fuel as [| fuel]; [lia |].
    cbn [has_loop]. rewrite Hmiss by lia. cbn [obind].
    destruct (Z.eqb_spec (capacity tab) 0); [lia |].
    rewrite slot_next by lia.
    destruct (Z.eqb_spec (slot hash tab key (d + 1)) (slot hash tab key 0)) as [E | _].
    + apply probe_inj in E; lia.
    + rewrite IH; [| lia | lia | lia | intros; apply Hmiss; lia].
      replace (d + 1 + Z.of_nat n) with (d + Z.of_nat (S n)) by lia.
      reflexivity.
Qed.

(** The slots before the one that stores [key] are misses. *)
Lemma misses_before tab key i :
  wf hash tab -> holds tab i key ->
  forall e, 0 <= e < (i - u64 (hash key)) mod capacity tab ->
  hit tab key (slot hash tab key e) = Done false.
Proof.
  intros Hwf Hi e He.
  destruct (wf_path hash tab Hwf i key Hi e He) as (k' & Hk' & Hne).
  exact (hit_other tab key _ k' Hk' Hne).
Qed.

(** A stored key is found, with its value. *)
Lemma get_found fuel tab key v out :
  wf hash tab -> entry tab key v -> (Z.to_nat (capacity tab) <= fuel)%nat ->
  get hash fuel tab key out = Done (true, v).
Proof.
  intros Hwf (i & Hi & Hv) Hfuel. pose proof Hwf as [Hcap Hhi _ _ Hm _ _].
  pose proof (holds_range _ _ _ Hi) as Ri. rewrite Hm in Ri.
  pose proof (Z.mod_pos_bound (i - u64 (hash key)) _ Hcap) as Di.
  unfold get. destruct (Z.eqb_spec (capacity tab) 0); [lia |].
  cbv zeta. rewrite <- (Z.add_0_r (u64 (hash key))). fold (slot hash tab key 0).
  rewrite (get_loop_skip tab key out ltac:(lia)
             (Z.to_nat ((i - u64 (hash key)) mod capacity tab)) 0 fuel);
    [| lia | lia | lia |].
  - rewrite Z.add_0_l, Z2Nat.id by lia.
    unfold slot at 1. rewrite probe_back by lia.
    destruct (fuel - _)%nat as [| f] eqn:Ef; [lia |].
    cbn [get_loop]. rewrite (hit_holds tab key i Hi). cbn [obind].
    rewrite Hv. reflexivity.
  - intros e He. apply (misses_before tab key i Hwf Hi). lia.
Qed.

Lemma has_found fuel tab key v :
  wf hash tab -> entry tab key v -> (Z.to_nat (capacity tab) <= fuel)%nat ->
  has hash fuel tab key = Done true.
Proof.
  intros Hwf (i & Hi & Hv) Hfuel. pose proof Hwf as [Hcap Hhi _ _ Hm _ _].
  pose proof (holds_range _ _ _ Hi) as Ri. rewrite Hm in Ri.
  pose proof (Z.mod_pos_bound (i - u64 (hash key)) _ Hcap) as Di.
  unfold has. destruct (Z.eqb_spec (capacity tab) 0); [lia |].
  cbv zeta. rewrite <- (Z.add_0_r (u64 (hash key))). fold (slot hash tab key 0).
  rewrite (has_loop_skip tab key ltac:(lia)
             (Z.to_nat ((i - u64 (hash key)) mod capacity tab)) 0 fuel);
    [| lia | lia | lia |].
  - rewrite Z.add_0_l, Z2Nat.id by lia.
    unfold slot at 1. rewrite probe_back by lia.
    destruct (fuel - _)%nat as [| f] eqn:Ef; [lia |].
    cbn [has_loop]. rewrite (hit_holds tab key i Hi). reflexivity.
  - intros e He. apply (misses_before tab key i Hwf Hi). lia.
Qed.

(** When every slot is a miss the loops come back to the start slot and
    report failure. *)
Lemma get_all_miss fuel tab key out :
  0 < capacity tab < 2 ^ 64 ->
  (forall i, 0 <= i < capacity tab -> hit tab key i = Done false) ->
  (Z.to_nat (capacity tab) <= fuel)%nat ->
  get hash fuel tab key out = Done (false, out).
Proof.
  intros Hcap Hmiss Hfuel.
  unfold get. destruct (Z.eqb_spec (capacity tab) 0); [lia |].
  cbv zeta. rewrite <- (Z.add_0_r (u64 (hash key))). fold (slot hash tab key 0).
  rewrite (get_loop_skip tab key out Hcap (Z.to_nat (capacity tab - 1)) 0 fuel);
    [| lia | lia | lia |].
  - rewrite Z.add_0_l, Z2Nat.id by lia.
    destruct (fuel - _)%nat as [| f] eqn:Ef; [lia |].
    cbn [get_loop]. rewrite Hmiss by (apply probe_range; lia). cbn [obind].
    destruct (Z.eqb_spec (capacity tab) 0); [lia |].
    rewrite slot_next by lia.
    replace (capacity tab - 1 + 1) with (capacity tab) by lia.
    unfold slot. rewrite probe_full_circle by lia.
    rewrite Z.eqb_refl. reflexivity.
  - intros e He. apply Hmiss. apply probe_range. lia.
Qed.

Lemma has_all_miss fuel tab key :
  0 < capacity tab < 2 ^ 64 ->
  (forall i, 0 <= i < capacity tab -> hit tab key i = Done false) ->
  (Z.to_nat (capacity tab) <= fuel)%nat ->
  has hash fuel tab key = Done false.
Proof.
  intros Hcap Hmiss Hfuel.
  unfold has. destruct (Z.eqb_spec (capacity tab) 0); [lia |].
  cbv zeta. rewrite <- (Z.add_0_r (u64 (hash key))). fold (slot hash tab key 0).
  rewrite (has_loop_skip tab key Hcap (Z.to_nat (capacity tab - 1)) 0 fuel);
    [| lia | lia | lia |].
  - rewrite Z.add_0_l, Z2Nat.id by lia.
    destruct (fuel - _)%nat as [| f] eqn:Ef; [lia |].
    cbn [has_loop]. rewrite Hmiss by (apply probe_range; lia). cbn [obind].
    destruct (Z.eqb_spec (capacity tab) 0); [lia |].
    rewrite slot_next by lia.
    replace (capacity tab - 1 + 1) with (capacity tab) by lia.
    unfold slot. rewrite probe_full_circle by lia.
    rewrite Z.eqb_refl. reflexivity.
  - intros e He. apply Hmiss. apply probe_range. lia.
Qed.

(** *** A new table *)

Local Abbreviation Clean := (clean (K:=K) (V:=V) (A:=A)).
Local Abbreviation New := (alloc (K:=K) (V:=V) (A:=A)).

Lemma free_cells_not_occupied (ms : list Z) i m :
  Forall (fun m => COMT_TAB_IS_FREE m = true) ms -> cell ms i = Done m ->
  COMT_TAB_IS_OCCUPIED m = false.
Proof.
  intros Hall Hm. apply cell_Done in Hm as [_ Hm].
  apply free_not_occupied. exact (proj1 (Forall_lookup _ _) Hall _ _ Hm).
Qed.

Lemma alloc_spec a n :
  Clean -> 0 < n -> 100 * n < 2 ^ 64 ->
  wf hash (New a n).1 /\ capacity (New a n).1 = n /\ count (New a n).1 = 0 /\
  forall i k, ~ holds (New a n).1 i k.
Proof.
  intros Hclean Hn Hhi. unfold alloc.
  pose proof (Hclean n a) as (Hk & _).
  destruct (Allocator_alloc (T:=K) n a) as [ks a1].
  pose proof (Hclean n a1) as (_ & Hv & _).
  destruct (Allocator_alloc (T:=V) n a1) as [vs a2].
  pose proof (Hclean n a2) as (_ & _ & Hm & Hfree).
  destruct (Allocator_alloc (T:=Z) n a2) as [ms a3].
  cbn [fst snd] in *.
  assert (Hnone : forall i k, ~ holds (mk ks vs ms 0 n) i k).
  { intros i k (m & Hcell & Hocc & _). cbn [meta] in Hcell.
    rewrite (free_cells_not_occupied ms i m Hfree Hcell) in Hocc. discriminate. }
  split; [| split; [reflexivity | split; [reflexivity | exact Hnone]]].
  constructor; cbn [capacity keys values meta count]; try lia.
  - symmetry. apply occupied_count_free. exact Hfree.
  - intros i k Hi. elim (Hnone i k Hi).
Qed.

(** *** The reinsertion loop *)

Lemma rehash_loop_spec fuel old a :
  wf hash old ->
  forall (n : nat) (i : Z) (nt : Table.t K V),
    0 <= i -> i + Z.of_nat n <= capacity old ->
    rehash_inv hash old nt i ->
    100 * capacity old <= 70 * capacity nt ->
    (Z.to_nat (capacity nt) < fuel)%nat ->
    exists nt',
      rehash_loop (put hash fuel) old n i nt a = Done (nt', a) /\
      rehash_inv hash old nt' (i + Z.of_nat n) /\
      capacity nt' = capacity nt.
Proof.
  intros Hold. pose proof Hold as [Hcap Hhi Hk Hv Hm Hcnt Hpath].
  induction n as [| n IH]; intros i nt Hi Hn Hinv Hbig Hfuel.
  - exists nt. rewrite Z.add_0_r. split; [reflexivity | split; [exact Hinv | reflexivity]].
  - destruct Hinv as (Hwf & Hcount & Hent).
    destruct (cell_in_range (meta old) i) as [m Hcell]; [lia |].
    apply cell_Done in Hcell as Hl. destruct Hl as [_ Hl].
    assert (HS : Z.to_nat (i + 1) = S (Z.to_nat i)) by lia.
    cbn [rehash_loop]. rewrite Hcell. cbn [obind].
    replace (i + Z.of_nat (S n)) with (i + 1 + Z.of_nat n) by lia.
    destruct (COMT_TAB_IS_OCCUPIED m) eqn:Hocc.
    + destruct (cell_in_range (keys old) i) as [k Hkey]; [lia |].
      destruct (cell_in_range (values old) i) as [v Hval]; [lia |].
      rewrite Hkey, Hval. cbn [obind].
      assert (Hholds : holds old i k) by (exists m; auto).
      assert (Hload : load_percentage nt < 70).
      { apply (load_below nt Hwf). rewrite Hcount.
        pose proof (occupied_count_range (take (Z.to_nat i) (meta old))) as R.
        rewrite length_take in R. lia. }
      destruct (put_in_place fuel nt k v a Hwf Hload Hfuel)
        as (nt2 & Hput & Hwf2 & Hcap2 & Hkv & Hothers & Hcnt2).
      rewrite Hput. cbn [obind].
      assert (Hnew : forall v0, ~ entry nt k v0).
      { intros v0 Hv0. apply Hent in Hv0 as (j & Hj & Hjk & _).
        pose proof (holds_unique old j i k Hold Hjk Hholds). lia. }
      destruct (IH (i + 1) nt2) as (nt' & Hrun & Hinv' & Hcap');
        [lia | lia | | lia | rewrite Hcap2; exact Hfuel |].
      * split; [exact Hwf2 |]. split.
        -- destruct Hcnt2 as [[[v0 Hv0] _] | [_ Hc]]; [elim (Hnew v0 Hv0) |].
           rewrite Hc, Hcount, HS, (occupied_count_take_S _ _ _ Hl), Hocc. reflexivity.
        -- intros k' v'. destruct (decide (k' = k)) as [-> | Hne].
           ++ split.
              ** intros Hv'. rewrite (entry_unique nt2 k v' v Hwf2 Hv' Hkv).
                 exists i. split; [lia | split; assumption].
              ** intros (j & Hj & Hjk & Hjv).
                 pose proof (holds_unique old j i k Hold Hjk Hholds) as ->.
                 assert (v' = v) as -> by congruence. exact Hkv.
           ++ rewrite (Hothers k' v' Hne), Hent. split.
              ** intros (j & Hj & Hjk & Hjv). exists j. split; [lia | split; assumption].
              ** intros (j & Hj & Hjk & Hjv). exists j. split; [| split; assumption].
                 destruct (Z.eq_dec j i) as [-> | Hji]; [| lia].
                 elim Hne. eapply holds_key_unique; eassumption.
      * exists nt'. split; [exact Hrun | split; [exact Hinv' | congruence]].
    + destruct (IH (i + 1) nt) as (nt' & Hrun & Hinv' & Hcap');
        [lia | lia | | exact Hbig | exact Hfuel |].
      * split; [exact Hwf |]. split.
        -- rewrite Hcount, HS, (occupied_count_take_S _ _ _ Hl), Hocc. lia.
        -- intros k' v'. rewrite Hent. split.
           ++ intros (j & Hj & Hjk & Hjv). exists j. split; [lia | split; assumption].
           ++ intros (j & Hj & Hjk & Hjv). exists j. split; [| split; assumption].
              destruct (Z.eq_dec j i) as [-> | Hji]; [| lia].
              elim (holds_not_free old i k' m Hjk Hcell Hocc).
      * exists nt'. split; [exact Hrun | split; [exact Hinv' | exact Hcap']].
Qed.

Lemma growth_factor_value c :
  0 <= c -> 3 * (c + 1) < 2 ^ 64 -> COMT_TABLE_GROWTH_FACTOR c = (c + 1) * 3.
Proof.
  intros Hc Hhi. unfold COMT_TABLE_GROWTH_FACTOR.
  rewrite (u64_small (c + 1)) by lia. apply u64_small. lia.
Qed.

(** A new table satisfies the loop invariant before the first slot. *)
Lemma rehash_inv_start old a n :
  Clean -> 0 < n -> 100 * n < 2 ^ 64 -> rehash_inv hash old (New a n).1 0.
Proof.
  intros Hclean Hn Hhi.
  destruct (alloc_spec a n Hclean Hn Hhi) as (Hwf & _ & Hcount & Hnone).
  split; [exact Hwf |]. split; [rewrite Hcount; reflexivity |].
  intros k v. split.
  - intros (i & Hi & _). elim (Hnone i k Hi).
  - intros (j & Hj & _). lia.
Qed.

(** *** The gate when it fires *)

Lemma grow_spec fuel tab a :
  Clean -> wf hash tab -> 70 <= load_percentage tab ->
  100 * (3 * (capacity tab + 1)) < 2 ^ 64 ->
  (Z.to_nat (3 * (capacity tab + 1)) < fuel)%nat ->
  exists tab',
    grow (put hash fuel) tab a
    = Done (tab', (New a (COMT_TABLE_GROWTH_FACTOR (capacity tab))).2) /\
    wf hash tab' /\ capacity tab' = (capacity tab + 1) * 3 /\
    count tab' = count tab /\
    forall k v, entry tab' k v <-> entry tab k v.
Proof.
  intros Hclean Hwf Hload Hhi Hfuel. pose proof Hwf as [Hcap _ _ _ Hm Hcnt _].
  unfold grow. destruct (Z.leb_spec 70 (load_percentage tab)); [| lia].
  rewrite growth_factor_value by lia.
  destruct (alloc_spec a ((capacity tab + 1) * 3) Hclean) as (_ & Hcap0 & _); [lia | lia |].
  pose proof (rehash_inv_start tab a ((capacity tab + 1) * 3) Hclean) as Hstart.
  destruct (New a ((capacity tab + 1) * 3)) as [nt a1]. cbn [fst snd] in *.
  destruct (rehash_loop_spec fuel tab a1 Hwf (Z.to_nat (capacity tab)) 0 nt)
    as (nt' & Hrun & (Hwf' & Hcount' & Hent') & Hcap'); [lia | lia | | lia | lia |].
  { apply Hstart; lia. }
  exists nt'. split; [exact Hrun |]. split; [exact Hwf' |].
  split; [congruence |].
  rewrite Z.add_0_l, Z2Nat.id in * by lia.
  split.
  - rewrite Hcount', Hcnt, take_ge by lia. reflexivity.
  - intros k v. rewrite Hent'. split.
    + intros (j & _ & Hj & Hv). exists j. split; assumption.
    + intros (j & Hj & Hv). exists j. split; [| split; assumption].
      pose proof (holds_range _ _ _ Hj). lia.
Qed.

(** *** One [put], with or without growth *)

Lemma put_spec fuel tab key value a :
  Clean -> wf hash tab ->
  (Z.to_nat (capacity tab) < fuel)%nat ->
  (70 <= load_percentage tab ->
     100 * (3 * (capacity tab + 1)) < 2 ^ 64 /\
     (Z.to_nat (3 * (capacity tab + 1)) + 1 < fuel)%nat) ->
  exists tab' a',
    put hash fuel tab key value a = Done (tab', a') /\
    wf hash tab' /\
    entry tab' key value /\
    (forall k v, k <> key -> entry tab' k v <-> entry tab k v) /\
    (((exists v0, entry tab key v0) /\ count tab' = count tab) \/
     ((forall v0, ~ entry tab key v0) /\ count tab' = count tab + 1)) /\
    (capacity tab' = capacity tab \/
     (70 <= load_percentage tab /\ capacity tab' = (capacity tab + 1) * 3)).
Proof.
  intros Hclean Hwf Hfuel Hgrow.
  destruct (Z.lt_ge_cases (load_percentage tab) 70) as [Hlow | Hhigh].
  - destruct (put_in_place fuel tab key value a Hwf Hlow Hfuel)
      as (tab' & Hput & Hwf' & Hcap' & Hkv & Hothers & Hcnt').
    exists tab', a.
    split; [exact Hput |]. split; [exact Hwf' |]. split; [exact Hkv |].
    split; [exact Hothers |]. split; [exact Hcnt' |]. left. exact Hcap'.
  - destruct (Hgrow Hhigh) as [Hhi Hfuel'].
    destruct fuel as [| fuel]; [lia |].
    destruct (grow_spec fuel tab a Hclean Hwf Hhigh Hhi)
      as (t1 & Hg & Hwf1 & Hcap1 & Hcnt1 & Hent1); [lia |].
    cbn [put]. rewrite Hg. cbn [obind].
    pose proof Hwf as [Hcap _ _ _ Hm Hcnt _].
    pose proof (occupied_count_range (meta tab)) as R.
    destruct (Z.eqb_spec (capacity t1) 0); [lia |].
    destruct (free_slot_on_path t1 key Hwf1) as (e & m & He & Hcell & Hfree); [lia |].
    destruct (put_probe_spec t1 key value Hwf1 (Z.to_nat (capacity t1)) 0 fuel)
      as (tab' & Hrun & Hwf' & Hcap' & Hkv & Hothers & Hcnt'); [lia | lia | lia | intros; lia | |].
    { exists e, m. auto. }
    unfold slot in Hrun at 1. rewrite Z.add_0_r in Hrun. rewrite Hrun. cbn [obind].
    exists tab', (New a (COMT_TABLE_GROWTH_FACTOR (capacity tab))).2.
    split; [reflexivity |]. split; [exact Hwf' |]. split; [exact Hkv |].
    split; [| split].
    + intros k v Hne. rewrite (Hothers k v Hne). apply Hent1.
    + destruct Hcnt' as [[[v0 Hv0] Hc] | [Hnone Hc]].
      * left. split; [exists v0; apply Hent1; exact Hv0 | lia].
      * right. split; [| lia]. intros v0 Hv0. apply (Hnone v0), Hent1, Hv0.
    + right. split; [exact Hhigh | lia].
Qed.

(** *** Runs of [put] calls *)

Lemma represents_start a n :
  Clean -> 0 < n -> 100 * n < 2 ^ 64 -> represents hash (New a n).1 [].
Proof.
  intros Hclean Hn Hhi.
  destruct (alloc_spec a n Hclean Hn Hhi) as (Hwf & _ & Hcount & Hnone).
  split; [exact Hwf |]. split; [| exact Hcount].
  intros k v. split; [| discriminate].
  intros (i & Hi & _). elim (Hnone i k Hi).
Qed.

(** When the gate fires the new capacity is at most five times the
    number of stored keys, plus three. *)
Lemma growth_bound tab :
  wf hash tab -> 70 <= load_percentage tab ->
  (capacity tab + 1) * 3 <= 5 * count tab + 3.
Proof.
  intros Hwf Hload.
  pose proof (occupied_count_range (meta tab)) as R.
  rewrite <- (wf_count hash tab Hwf) in R.
  destruct (Z.lt_ge_cases (count tab * 100) (70 * capacity tab)) as [L | G].
  - apply (load_below tab Hwf) in L. lia.
  - lia.
Qed.

Lemma represents_put tab done key value tab' :
  represents hash tab done -> wf hash tab' ->
  entry tab' key value ->
  (forall k v, k <> key -> entry tab' k v <-> entry tab k v) ->
  (((exists v0, entry tab key v0) /\ count tab' = count tab) \/
   ((forall v0, ~ entry tab key v0) /\ count tab' = count tab + 1)) ->
  represents hash tab' (done ++ [(key, value)]).
Proof.
  intros (Hwf & Hent & Hcount) Hwf' Hkv Hothers Hcnt.
  split; [exact Hwf' |]. split.
  - intros k v. rewrite latest_snoc.
    destruct (decide (key = k)) as [<- | Hne].
    + split.
      * intros Hv. f_equal. exact (entry_unique tab' key value v Hwf' Hkv Hv).
      * intros [= <-]. exact Hkv.
    + rewrite (Hothers k v) by congruence. apply Hent.
  - rewrite distinct_snoc, <- Hcount.
    destruct Hcnt as [[[v0 Hv0] Hc] | [Hnone Hc]].
    + apply Hent in Hv0.
      destruct (decide (key ∈ done.*1)) as [_ | Hout]; [lia |].
      apply latest_None in Hout. congruence.
    + destruct (decide (key ∈ done.*1)) as [Hin | _]; [| lia].
      destruct (latest done key) as [v0 |] eqn:E.
      * elim (Hnone v0). apply Hent. exact E.
      * apply latest_None in E. contradiction.
Qed.

Lemma put_all_spec (B : Z) fuel :
  Clean -> 100 * B < 2 ^ 64 -> (Z.to_nat B + 1 < fuel)%nat ->
  forall ops done tab a,
    represents hash tab done -> capacity tab <= B ->
    5 * (Z.of_nat (length done) + Z.of_nat (length ops)) + 3 <= B ->
    exists tab' a',
      put_all hash fuel ops tab a = Done (tab', a') /\
      represents hash tab' (done ++ ops) /\ capacity tab' <= B.
Proof.
  intros Hclean HB Hfuel.
  induction ops as [| [key value] ops IH]; intros done tab a Hrep Hcap Hlen.
  - exists tab, a. rewrite app_nil_r. split; [reflexivity | split; assumption].
  - cbn [length] in Hlen.
    pose proof Hrep as (Hwf & Hent & Hcount).
    pose proof (distinct_range done) as Hd.
    pose proof (wf_cap hash tab Hwf) as Hpos.
    assert (Hgrow : 70 <= load_percentage tab -> (capacity tab + 1) * 3 <= B).
    { intros Hload. pose proof (growth_bound tab Hwf Hload). lia. }
    destruct (put_spec fuel tab key value a Hclean Hwf)
      as (tab1 & a1 & Hput & Hwf1 & Hkv & Hothers & Hcnt & Hcap1).
    { lia. }
    { intros Hload. specialize (Hgrow Hload). split; lia. }
    cbn [put_all]. rewrite Hput. cbn [obind].
    destruct (IH (done ++ [(key, value)]) tab1 a1) as (tab' & a' & Hrun & Hrep' & Hcap').
    + eapply represents_put; eassumption.
    + destruct Hcap1 as [-> | [Hload ->]]; [exact Hcap | exact (Hgrow Hload)].
    + rewrite length_app. cbn [length]. lia.
    + exists tab', a'. rewrite <- app_assoc in Hrep'.
      split; [exact Hrun | split; assumption].
Qed.

(** The bound on capacities and fuel for a run of [n] calls on a table
    of capacity [c]. *)
Lemma run_from_new c ops a fuel :
  Clean -> 0 < c ->
  100 * Z.max c (5 * Z.of_nat (length ops) + 3) < 2 ^ 64 ->
  (Z.to_nat (Z.max c (5 * Z.of_nat (length ops) + 3)) + 1 < fuel)%nat ->
  exists tab a',
    put_all hash fuel ops (New a c).1 (New a c).2 = Done (tab, a') /\
    represents hash tab ops /\
    capacity tab <= Z.max c (5 * Z.of_nat (length ops) + 3).
Proof.
  intros Hclean Hc HB Hfuel.
  destruct (alloc_spec a c Hclean Hc) as (_ & Hcap & _); [lia |].
  apply (put_all_spec _ fuel Hclean HB Hfuel ops []).
  - apply represents_start; [exact Hclean | exact Hc | lia].
  - lia.
  - cbn [length]. lia.
Qed.

(** C1.  A table allocated with capacity [c] from an allocator that
    delivers clean arrays, after any run [ops] of [put] calls: the run
    returns, and for every key of the run [has] returns true and [get]
    returns true with the value of the latest [put] for that key.  The
    size bound keeps [count * 100] and the grown capacities exact as
    doubles; the fuel bound covers the longest probe. *)
Theorem put_keeps_every_key (c : Z) (ops : list (K * V)) (a : A) (fuel : nat) :
  Clean -> 0 < c ->
  100 * Z.max c (5 * Z.of_nat (length ops) + 3) < 2 ^ 53 ->
  (Z.to_nat (Z.max c (5 * Z.of_nat (length ops) + 3)) + 1 < fuel)%nat ->
  exists tab a',
    put_all hash fuel ops (New a c).1 (New a c).2 = Done (tab, a') /\
    forall k v, latest ops k = Some v ->
      has hash fuel tab k = Done true /\
      forall out, get hash fuel tab k out = Done (true, v).
Proof.
  intros Hclean Hc HB Hfuel.
  assert (HB64 : 100 * Z.max c (5 * Z.of_nat (length ops) + 3) < 2 ^ 64) by lia.
  destruct (run_from_new c ops a fuel Hclean Hc HB64 Hfuel)
    as (tab & a' & Hrun & (Hwf & Hent & _) & Hcap).
  exists tab, a'. split; [exact Hrun |].
  intros k v Hlatest. apply Hent in Hlatest.
  pose proof (wf_cap hash tab Hwf) as Hpos.
  split; [| intros out].
  - apply (has_found fuel tab k v Hwf Hlatest). lia.
  - apply (get_found fuel tab k v out Hwf Hlatest). lia.
Qed.

(** C2.  The state [tab] reached by any run [ops] of [put] calls on a
    new table.  Every [put] starts with the gate [grow].  The gate fires
    exactly when [count * 100 >= 70 * capacity]; else it changes nothing.
    When it fires it allocates once, for capacity [(capacity + 1) * 3],
    and returns the store that the reinsertion loop has filled: the
    entries are those of [tab], [count] is the number of distinct keys
    of [ops], and the load is below 70.  After every prefix of the loop
    the new store still has the capacity it was allocated with and a
    load below 70: no reinsertion passes the gate. *)
Theorem put_gate_rehashes_once (c : Z) (ops : list (K * V)) (a : A) (fuel : nat) :
  Clean -> 0 < c ->
  100 * Z.max c (5 * Z.of_nat (length ops) + 3) < 2 ^ 53 ->
  (Z.to_nat (Z.max c (5 * Z.of_nat (length ops) + 3)) + 1 < fuel)%nat ->
  exists tab a1,
    put_all hash fuel ops (New a c).1 (New a c).2 = Done (tab, a1) /\
    (forall key value,
       put hash (S fuel) tab key value a1
       = let! (t1, a2) := grow (put hash fuel) tab a1 in
         if capacity t1 =? 0 then Fault else
         let! t2 := put_probe fuel t1 key value (u64 (hash key) mod capacity t1) in
         Done (t2, a2)) /\
    (70 <= load_percentage tab <-> 70 * capacity tab <= count tab * 100) /\
    (load_percentage tab < 70 -> grow (put hash fuel) tab a1 = Done (tab, a1)) /\
    (70 <= load_percentage tab ->
     let new_capacity := (capacity tab + 1) * 3 in
     COMT_TABLE_GROWTH_FACTOR (capacity tab) = new_capacity /\
     exists tab',
       grow (put hash fuel) tab a1 = Done (tab', (New a1 new_capacity).2) /\
       capacity tab' = new_capacity /\
       (forall k v, entry tab' k v <-> entry tab k v) /\
       count tab' = distinct ops /\
       count tab' * 100 < 70 * capacity tab' /\
       load_percentage tab' < 70 /\
       forall n : nat, (n <= Z.to_nat (capacity tab))%nat ->
         exists nt,
           rehash_loop (put hash fuel) tab n 0 (New a1 new_capacity).1
             (New a1 new_capacity).2
           = Done (nt, (New a1 new_capacity).2) /\
           capacity nt = new_capacity /\ load_percentage nt < 70).
Proof.
  intros Hclean Hc HB Hfuel.
  assert (HB64 : 100 * Z.max c (5 * Z.of_nat (length ops) + 3) < 2 ^ 64) by lia.
  destruct (run_from_new c ops a fuel Hclean Hc HB64 Hfuel)
    as (tab & a1 & Hrun & (Hwf & Hent & Hcount) & Hcap).
  exists tab, a1. split; [exact Hrun |].
  split; [reflexivity |].
  pose proof Hwf as [Hpos _ _ _ Hm Hcnt _].
  pose proof (occupied_count_range (meta tab)) as R.
  pose proof (distinct_range ops) as Hd.
  split.
  { pose proof (load_below tab Hwf). lia. }
  split.
  { intros Hlow. unfold grow.
    destruct (Z.leb_spec 70 (load_percentage tab)); [lia | reflexivity]. }
  intros Hload new_capacity.
  pose proof (growth_bound tab Hwf Hload) as Hnew.
  assert (Hfactor : COMT_TABLE_GROWTH_FACTOR (capacity tab) = new_capacity)
    by (apply growth_factor_value; lia).
  split; [exact Hfactor |].
  destruct (grow_spec fuel tab a1 Hclean Hwf Hload)
    as (tab' & Hg & Hwf' & Hcap' & Hcnt' & Hent'); [lia | lia |].
  rewrite Hfactor in Hg.
  exists tab'. split; [exact Hg |]. split; [exact Hcap' |].
  split; [exact Hent' |]. split; [lia |].
  assert (Hlow : count tab' * 100 < 70 * capacity tab')
    by (unfold new_capacity in *; lia).
  split; [exact Hlow |].
  split; [apply (load_below tab' Hwf'); exact Hlow |].
  intros n Hn.
  destruct (alloc_spec a1 new_capacity Hclean) as (_ & Hcap0 & _);
    [unfold new_capacity; lia | unfold new_capacity; lia |].
  destruct (rehash_loop_spec fuel tab (New a1 new_capacity).2 Hwf n 0
              (New a1 new_capacity).1)
    as (nt & Hloop & (Hwfn & Hcountn & _) & Hcapn).
  - lia.
  - lia.
  - apply rehash_inv_start; [exact Hclean | |]; unfold new_capacity; lia.
  - rewrite Hcap0. unfold new_capacity. lia.
  - rewrite Hcap0. unfold new_capacity. lia.
  - exists nt. split; [exact Hloop |]. split; [congruence |].
    apply (load_below nt Hwfn). rewrite Hcountn, Hcapn, Hcap0.
    pose proof (occupied_count_range (take (Z.to_nat (0 + Z.of_nat n)) (meta tab))) as Rn.
    rewrite length_take in Rn. unfold new_capacity. lia.
Qed.

(** C10, as the code has it.  [Table::alloc] sets [count] to 0 and
    writes no cell.  When the occupancy array it was handed has the
    requested length and bit 0 clear in every byte, [has] and [get]
    return false for every key. *)
Theorem alloc_is_empty_on_clear_meta (a : A) (n : Z) :
  0 < n < 2 ^ 64 ->
  length (meta (New a n).1) = Z.to_nat n ->
  Forall (fun m => COMT_TAB_IS_FREE m = true) (meta (New a n).1) ->
  count (New a n).1 = 0 /\
  forall key (fuel : nat), (Z.to_nat n <= fuel)%nat ->
    has hash fuel (New a n).1 key = Done false /\
    forall out, get hash fuel (New a n).1 key out = Done (false, out).
Proof.
  intros Hn Hlen Hfree.
  assert (Hshape : count (New a n).1 = 0 /\ capacity (New a n).1 = n).
  { unfold alloc.
    destruct (Allocator_alloc (T:=K) n a) as [ks a1].
    destruct (Allocator_alloc (T:=V) n a1) as [vs a2].
    destruct (Allocator_alloc (T:=Z) n a2) as [ms a3].
    split; reflexivity. }
  destruct Hshape as [Hcount Hcap].
  split; [exact Hcount |].
  intros key fuel Hfuel.
  assert (Hmiss : forall i, 0 <= i < capacity (New a n).1 ->
                            hit (New a n).1 key i = Done false).
  { intros i Hi. rewrite Hcap in Hi.
    destruct (cell_in_range (meta (New a n).1) i) as [m Hm]; [lia |].
    apply (hit_free _ key i m Hm).
    exact (free_cells_not_occupied _ i m Hfree Hm). }
  split; [| intros out].
  - apply has_all_miss; [rewrite Hcap; lia | exact Hmiss | rewrite Hcap; exact Hfuel].
  - apply get_all_miss; [rewrite Hcap; lia | exact Hmiss | rewrite Hcap; exact Hfuel].
Qed.

End TableFacts.

(** ** Set: the start slot *)

Section SetFacts.
Context {T : Type} `{EqDecision T} (hash : T -> Z).
Context {A : Type} `{Allocator A T, Allocator A Z}.

(** C3.  [Set::has] and [Set::put] start probing at the 64-bit hash
    itself.  For an element whose hash is not below [capacity] the first
    read of [meta] is outside the array: [has] faults, and so does
    [put] whenever the gate does not fire first.  [Table::has] starts
    at the hash reduced modulo [capacity], and that first read is inside
    the array. *)
Theorem set_probe_starts_at_raw_hash
    (s : Set_.t T) (elem : T) (a : A) (fuel : nat) :
  Z.of_nat (length (Set_.meta s)) = Set_.capacity s ->
  Set_.capacity s <= u64 (hash elem) ->
  Set_.has hash (S fuel) s elem
  = Set_.has_loop (S fuel) s elem (u64 (hash elem)) (u64 (hash elem)) /\
  cell (Set_.meta s) (u64 (hash elem)) = Fault /\
  Set_.has hash (S fuel) s elem = Fault /\
  (Set_.load_percentage s < 70 -> Set_.put hash (S (S fuel)) s elem a = Fault) /\
  forall (V : Type) (tab : Table.t T V),
    0 < Table.capacity tab ->
    Z.of_nat (length (Table.meta tab)) = Table.capacity tab ->
    Table.has hash (S fuel) tab elem
    = Table.has_loop (S fuel) tab elem
        (u64 (hash elem) mod Table.capacity tab)
        (u64 (hash elem) mod Table.capacity tab) /\
    exists m, cell (Table.meta tab) (u64 (hash elem) mod Table.capacity tab) = Done m.
Proof.
  intros Hlen Hbig.
  assert (Hout : cell (Set_.meta s) (u64 (hash elem)) = Fault)
    by (apply cell_out_of_range; lia).
  split; [reflexivity |]. split; [exact Hout |]. split; [| split].
  - unfold Set_.has. cbn [Set_.has_loop]. rewrite Hout. reflexivity.
  - intros Hload. cbn [Set_.put]. unfold Set_.grow.
    destruct (Z.leb_spec 70 (Set_.load_percentage s)); [lia |].
    cbn [obind Set_.put_probe]. rewrite Hout. reflexivity.
  - intros V tab Hcap Hmeta. split.
    + unfold Table.has. destruct (Z.eqb_spec (Table.capacity tab) 0); [lia | reflexivity].
    + apply cell_in_range. rewrite Hmeta. apply Z.mod_pos_bound. exact Hcap.
Qed.

End SetFacts.

(** ** The two allocators *)

Lemma ZeroPages_clean : Table.clean (K:=Z) (V:=Z) (A:=ZeroPages).
Proof.
  intros n a. unfold Allocator_alloc, ZeroPages_alloc. cbn [fst].
  rewrite length_replicate. repeat split.
  apply Forall_replicate. reflexivity.
Qed.

Lemma set_probe_starts_at_raw_hash_witness :
  let s := (Set_.alloc (T:=Z) (mkZeroPages []) 47).1 in
  Set_.has id 1 s 47 = Fault /\
  (Set_.load_percentage s < 70 -> Set_.put id 2 s 47 (mkZeroPages []) = Fault).
Proof.
  intros s.
  destruct (set_probe_starts_at_raw_hash id s 47 (mkZeroPages []) 0)
    as (_ & _ & Hhas & Hput & _).
  - reflexivity.
  - vm_compute. discriminate.
  - split; [exact Hhas | exact Hput].
Defined.

Lemma put_keeps_every_key_witness :
  exists tab a',
    Table.put_all id 200 (scenario_ops 34) scenario_start.1 scenario_start.2
    = Done (tab, a') /\
    forall k v, latest (scenario_ops 34) k = Some v ->
      Table.has id 200 tab k = Done true /\
      forall out, Table.get id 200 tab k out = Done (true, v).
Proof.
  apply (put_keeps_every_key id 47 (scenario_ops 34) (mkZeroPages []) 200 ZeroPages_clean).
  - lia.
  - vm_compute. reflexivity.
  - vm_compute. lia.
Defined.

Lemma put_gate_rehashes_once_witness :
  exists tab a1,
    Table.put_all id 200 (scenario_ops 33) scenario_start.1 scenario_start.2
    = Done (tab, a1) /\
    (70 <= Table.load_percentage tab ->
     exists tab',
       Table.grow (Table.put id 200) tab a1
       = Done (tab', (Table.alloc (K:=Z) (V:=Z) a1 ((Table.capacity tab + 1) * 3)).2) /\
       Table.capacity tab' = (Table.capacity tab + 1) * 3 /\
       Table.count tab' = distinct (scenario_ops 33) /\
       Table.load_percentage tab' < 70).
Proof.
  destruct (put_gate_rehashes_once id 47 (scenario_ops 33) (mkZeroPages []) 200
              ZeroPages_clean)
    as (tab & a1 & Hrun & _ & _ & _ & Hfire).
  - lia.
  - vm_compute. reflexivity.
  - vm_compute. lia.
  - exists tab, a1. split; [exact Hrun |].
    intros Hload. destruct (Hfire Hload) as (_ & tab' & Hg & Hcap & _ & Hcount & _ & Hlow & _).
    exists tab'. split; [exact Hg |]. split; [exact Hcap |]. split; [exact Hcount | exact Hlow].
Defined.

(** C10, as stated, fails: on recycled memory a table that [Table::alloc]
    has just returned has [count] 0 and yet [has] and [get] report the
    key 1, with the stale value 1. *)
Lemma alloc_on_recycled_memory_is_not_empty :
  let tab := (Table.alloc (K:=Z) (V:=Z) recycled 47).1 in
  Table.count tab = 0 /\
  Table.has id 47 tab 1 = Done true /\
  Table.get id 47 tab 1 0 = Done (true, 1).
Proof. vm_compute. repeat split; reflexivity. Qed.

Lemma alloc_is_empty_on_clear_meta_witness :
  let tab := (Table.alloc (K:=Z) (V:=Z) (mkZeroPages []) 47).1 in
  Table.count tab = 0 /\
  forall key (fuel : nat), (47 <= fuel)%nat ->
    Table.has id fuel tab key = Done false /\
    forall out, Table.get id fuel tab key out = Done (false, out).
Proof.
  apply (alloc_is_empty_on_clear_meta id (mkZeroPages []) 47).
  - lia.
  - reflexivity.
  - vm_compute. repeat constructor.
Defined.

(** ** The scenario of 47 slots *)

Lemma scenario_checked :
  match scenario 33, scenario 34 with
  | Done (tab, a), Done (tab', a') =>
      Table.get id 200 tab 17 0 = Done (true, 34) /\
      Table.has id 200 tab 17 = Done true /\
      Table.count tab = 33 /\ Table.capacity tab = 47 /\
      Table.load_percentage tab = 70 /\
      rehashes scenario_start.2 a = 0 /\
      rehashes scenario_start.2 a' = 1 /\
      Table.capacity tab' = 144 /\ Table.count tab' = 34
  | _, _ => False
  end.
Proof. vm_compute. repeat split; reflexivity. Qed.

(** A run that grows twice: six keys into a table of capacity 1 (to
    capacity 6 in the second call, to 21 in the sixth); every key is
    found with its value. *)
Lemma run_across_two_rehashes :
  let start := Table.alloc (K:=Z) (V:=Z) (mkZeroPages []) 1 in
  match Table.put_all id 50 (scenario_ops 6) start.1 start.2 with
  | Done (tab, a) =>
      rehashes start.2 a = 2 /\ Table.capacity tab = 21 /\ Table.count tab = 6 /\
      map (fun k => Table.get id 50 tab k 0) [0; 1; 2; 3; 4; 5]
      = map (fun k => Done (true, k * 2)) [0; 1; 2; 3; 4; 5]
  | _ => False
  end.
Proof. vm_compute. repeat split; reflexivity. Qed.

(** C5, as stated, fails: the 33 calls leave the table with 33 keys and
    [get(17)] gives 34, but no rehash has happened. *)
Lemma no_rehash_within_33_puts :
  ~ (exists tab a,
       scenario 33 = Done (tab, a) /\
       Table.get id 200 tab 17 0 = Done (true, 34) /\
       Table.count tab = 33 /\
       rehashes scenario_start.2 a = 1).
Proof.
  intros (tab & a & Hrun & _ & _ & Hre).
  pose proof scenario_checked as Hc. rewrite Hrun in Hc.
  destruct (scenario 34) as [[tab' a'] | | |]; try contradiction.
  destruct Hc as (_ & _ & _ & _ & _ & H0 & _). rewrite H0 in Hre. discriminate.
Qed.

(** C5, as the code has it.  After the 33 calls [get(17)] returns true
    with 34, [count] is 33, the capacity is still 47 and no rehash has
    happened: the gate reads [count] before the insertion, so the 33rd
    call sees 32 keys, a load of 68.  The load is 70 after it, and it is
    the 34th call that rehashes, once, to capacity 144. *)
Theorem scenario_33_puts :
  exists tab a,
    scenario 33 = Done (tab, a) /\
    Table.get id 200 tab 17 0 = Done (true, 34) /\
    Table.has id 200 tab 17 = Done true /\
    Table.count tab = 33 /\ Table.capacity tab = 47 /\
    Table.load_percentage tab = 70 /\
    rehashes scenario_start.2 a = 0 /\
    exists tab' a',
      scenario 34 = Done (tab', a') /\
      rehashes scenario_start.2 a' = 1 /\
      Table.capacity tab' = 144 /\ Table.count tab' = 34.
Proof.
  pose proof scenario_checked as Hc.
  destruct (scenario 33) as [[tab a] | | |];
    destruct (scenario 34) as [[tab' a'] | | |]; try contradiction.
  destruct Hc as (Hget & Hhas & Hcount & Hcap & Hload & H0 & H1 & Hcap' & Hcount').
  exists tab, a. repeat (split; [first [reflexivity | assumption] |]).
  exists tab', a'. repeat (split; [first [reflexivity | assumption] |]). assumption.
Qed.

(** * Further results *)

(** ** Table: absent keys and what a run keeps *)

Section TableMore.
Context {K V : Type} `{EqDecision K} (hash : K -> Z).
Context {A : Type} `{Allocator A K, Allocator A V, Allocator A Z}.
Import Table.
Implicit Types (tab : Table.t K V) (k key : K) (v value : V).

Local Abbreviation Clean := (clean (K:=K) (V:=V) (A:=A)).
Local Abbreviation New := (alloc (K:=K) (V:=V) (A:=A)).

(** In a table that stores no [key], every slot is a miss for it. *)
Lemma absent_key_misses tab key :
  wf hash tab -> (forall v, ~ entry tab key v) ->
  forall i, 0 <= i < capacity tab -> hit tab key i = Done false.
Proof.
  intros Hwf Habsent i Hi. pose proof Hwf as [_ _ Hk Hv Hm _ _].
  destruct (cell_in_range (meta tab) i) as [m Hcell]; [lia |].
  destruct (COMT_TAB_IS_OCCUPIED m) eqn:Hocc; [| exact (hit_free tab key i m Hcell Hocc)].
  destruct (cell_in_range (keys tab) i) as [k Hkey]; [lia |].
  apply (hit_other tab key i k); [exists m; auto |].
  intros ->. destruct (cell_in_range (values tab) i) as [v Hval]; [lia |].
  apply (Habsent v). exists i. split; [exists m; auto | exact Hval].
Qed.

(** A key that no call of the run has put is not found: [has] returns
    false, [get] returns false and leaves the cell behind its out-pointer
    as it was.  Neither loop stops at a free slot: the search ends when
    it is back at its start slot. *)
Theorem get_of_absent_key (c : Z) (ops : list (K * V)) (a : A) (fuel : nat) :
  Clean -> 0 < c ->
  100 * Z.max c (5 * Z.of_nat (length ops) + 3) < 2 ^ 53 ->
  (Z.to_nat (Z.max c (5 * Z.of_nat (length ops) + 3)) + 1 < fuel)%nat ->
  exists tab a',
    put_all hash fuel ops (New a c).1 (New a c).2 = Done (tab, a') /\
    forall k, k ∉ ops.*1 ->
      has hash fuel tab k = Done false /\
      forall out, get hash fuel tab k out = Done (false, out).
Proof.
  intros Hclean Hc HB Hfuel.
  assert (HB64 : 100 * Z.max c (5 * Z.of_nat (length ops) + 3) < 2 ^ 64) by lia.
  destruct (run_from_new hash c ops a fuel Hclean Hc HB64 Hfuel)
    as (tab & a' & Hrun & (Hwf & Hent & _) & Hcap).
  exists tab, a'. split; [exact Hrun |].
  intros k Hk. apply latest_None in Hk.
  assert (Habsent : forall v, ~ entry tab k v).
  { intros v Hv. apply Hent in Hv. congruence. }
  pose proof (absent_key_misses tab k Hwf Habsent) as Hmiss.
  pose proof Hwf as [Hpos Hhi _ _ _ _ _].
  split; [| intros out].
  - apply has_all_miss; [lia | exact Hmiss | lia].
  - apply get_all_miss; [lia | exact Hmiss | lia].
Qed.

(** One [put] never lowers the capacity. *)
Lemma put_all_keeps (B : Z) fuel :
  Clean -> 100 * B < 2 ^ 64 -> (Z.to_nat B + 1 < fuel)%nat ->
  forall ops done tab a,
    represents hash tab done -> capacity tab <= B ->
    5 * (Z.of_nat (length done) + Z.of_nat (length ops)) + 3 <= B ->
    exists tab' a',
      put_all hash fuel ops tab a = Done (tab', a') /\
      represents hash tab' (done ++ ops) /\
      capacity tab <= capacity tab' <= B.
Proof.
  intros Hclean HB Hfuel.
  induction ops as [| [key value] ops IH]; intros done tab a Hrep Hcap Hlen.
  - exists tab, a. rewrite app_nil_r. split; [reflexivity | split; [assumption | lia]].
  - cbn [length] in Hlen.
    pose proof Hrep as (Hwf & Hent & Hcount).
    pose proof (distinct_range done) as Hd.
    pose proof (wf_cap hash tab Hwf) as Hpos.
    assert (Hgrow : 70 <= load_percentage tab -> (capacity tab + 1) * 3 <= B).
    { intros Hload. pose proof (growth_bound hash tab Hwf Hload). lia. }
    destruct (put_spec hash fuel tab key value a Hclean Hwf)
      as (tab1 & a1 & Hput & Hwf1 & Hkv & Hothers & Hcnt & Hcap1).
    { lia. }
    { intros Hload. specialize (Hgrow Hload). split; lia. }
    cbn [put_all]. rewrite Hput. cbn [obind].
    assert (Hmono : capacity tab <= capacity tab1 <= B).
    { destruct Hcap1 as [-> | [Hload ->]]; [lia |]. specialize (Hgrow Hload). lia. }
    destruct (IH (done ++ [(key, value)]) tab1 a1) as (tab' & a' & Hrun & Hrep' & Hcap').
    + eapply represents_put; eassumption.
    + lia.
    + rewrite length_app. cbn [length]. lia.
    + exists tab', a'. rewrite <- app_assoc in Hrep'.
      split; [exact Hrun | split; [assumption | lia]].
Qed.

(** What every run of [put] calls keeps: [count] is the number of
    distinct keys put so far (a repeated key is updated in place), it
    never exceeds [capacity], the three arrays have [capacity] cells, and
    the capacity is at least the one the table was allocated with (so
    never zero). *)
Theorem run_keeps_count_and_capacity
    (c : Z) (ops : list (K * V)) (a : A) (fuel : nat) :
  Clean -> 0 < c ->
  100 * Z.max c (5 * Z.of_nat (length ops) + 3) < 2 ^ 53 ->
  (Z.to_nat (Z.max c (5 * Z.of_nat (length ops) + 3)) + 1 < fuel)%nat ->
  exists tab a',
    put_all hash fuel ops (New a c).1 (New a c).2 = Done (tab, a') /\
    count tab = distinct ops /\
    count tab <= capacity tab /\
    c <= capacity tab /\
    Z.of_nat (length (keys tab)) = capacity tab /\
    Z.of_nat (length (values tab)) = capacity tab /\
    Z.of_nat (length (meta tab)) = capacity tab.
Proof.
  intros Hclean Hc HB Hfuel.
  assert (HB64 : 100 * Z.max c (5 * Z.of_nat (length ops) + 3) < 2 ^ 64) by lia.
  destruct (alloc_spec hash a c Hclean Hc) as (_ & Hcap0 & _); [lia |].
  destruct (put_all_keeps _ fuel Hclean HB64 Hfuel ops [] (New a c).1 (New a c).2)
    as (tab & a' & Hrun & (Hwf & _ & Hcount) & Hcap).
  { apply represents_start; [exact Hclean | exact Hc | lia]. }
  { lia. }
  { cbn [length]. lia. }
  exists tab, a'. split; [exact Hrun |]. split; [exact Hcount |].
  pose proof Hwf as [_ _ Hk Hv Hm Hcnt _].
  pose proof (occupied_count_range (meta tab)) as R.
  repeat split; try assumption; lia.
Qed.

(** A [put] of a key that is already stored changes its value and
    nothing else: [count] stays, every other key keeps its value. *)
Theorem put_again_updates_in_place
    (c : Z) (ops : list (K * V)) (key : K) (value : V) (a : A) (fuel : nat) :
  Clean -> 0 < c ->
  100 * Z.max c (5 * Z.of_nat (length ops + 1) + 3) < 2 ^ 53 ->
  (Z.to_nat (Z.max c (5 * Z.of_nat (length ops + 1) + 3)) + 1 < fuel)%nat ->
  key ∈ ops.*1 ->
  exists tab a1 tab' a2,
    put_all hash fuel ops (New a c).1 (New a c).2 = Done (tab, a1) /\
    put hash fuel tab key value a1 = Done (tab', a2) /\
    count tab' = count tab /\
    (forall out, get hash fuel tab' key out = Done (true, value)) /\
    forall k v, k <> key -> latest ops k = Some v ->
      forall out, get hash fuel tab' k out = Done (true, v).
Proof.
  intros Hclean Hc HB Hfuel Hin.
  assert (HB64 : 100 * Z.max c (5 * Z.of_nat (length ops + 1) + 3) < 2 ^ 64) by lia.
  destruct (alloc_spec hash a c Hclean Hc) as (_ & Hcap0 & _); [lia |].
  destruct (put_all_keeps _ fuel Hclean HB64 Hfuel (ops ++ [(key, value)]) []
              (New a c).1 (New a c).2)
    as (tab' & a2 & Hrun & (Hwf' & Hent' & Hcount') & Hcap').
  { apply represents_start; [exact Hclean | exact Hc | lia]. }
  { lia. }
  { rewrite length_app. cbn [length]. lia. }
  destruct (put_all_keeps _ fuel Hclean HB64 Hfuel ops [] (New a c).1 (New a c).2)
    as (tab & a1 & Hrun0 & (Hwf & Hent & Hcount) & Hcap).
  { apply represents_start; [exact Hclean | exact Hc | lia]. }
  { lia. }
  { cbn [length]. lia. }
  cbn [app] in Hrun, Hent', Hcount', Hent, Hcount.
  assert (Hsplit : forall l t0 a0,
            put_all hash fuel (l ++ [(key, value)]) t0 a0
            = let! (t1, a1) := put_all hash fuel l t0 a0 in put hash fuel t1 key value a1).
  { induction l as [| [k0 v0] l IHl]; intros t0 a0; cbn [app put_all obind].
    - destruct (put hash fuel t0 key value a0) as [[t1 a1'] | | |]; reflexivity.
    - destruct (put hash fuel t0 k0 v0 a0) as [[t1 a1'] | | |]; cbn [obind];
        [apply IHl | reflexivity | reflexivity | reflexivity]. }
  rewrite Hsplit, Hrun0 in Hrun. cbn [obind] in Hrun.
  exists tab, a1, tab', a2. split; [exact Hrun0 |]. split; [exact Hrun |].
  pose proof (wf_cap hash tab' Hwf') as Hpos.
  split.
  - rewrite Hcount', Hcount, distinct_snoc.
    destruct (decide (key ∈ ops.*1)); [lia | contradiction].
  - split.
    + intros out. apply (get_found hash fuel tab' key value out Hwf'); [| lia].
      apply Hent'. rewrite latest_snoc.
      destruct (decide (key = key)); [reflexivity | contradiction].
    + intros k v Hne Hlatest out.
      apply (get_found hash fuel tab' k v out Hwf'); [| lia].
      apply Hent'. rewrite latest_snoc.
      destruct (decide (key = k)); [congruence | exact Hlatest].
Qed.

End TableMore.

Lemma get_of_absent_key_witness :
  exists tab a',
    Table.put_all id 200 (scenario_ops 34) scenario_start.1 scenario_start.2
    = Done (tab, a') /\
    forall k, k ∉ (scenario_ops 34).*1 ->
      Table.has id 200 tab k = Done false /\
      forall out, Table.get id 200 tab k out = Done (false, out).
Proof.
  apply (get_of_absent_key id 47 (scenario_ops 34) (mkZeroPages []) 200 ZeroPages_clean).
  - lia.
  - vm_compute. reflexivity.
  - vm_compute. lia.
Defined.

Lemma run_keeps_count_and_capacity_witness :
  exists tab a',
    Table.put_all id 200 (scenario_ops 34) scenario_start.1 scenario_start.2
    = Done (tab, a') /\
    Table.count tab = distinct (scenario_ops 34) /\
    Table.count tab <= Table.capacity tab /\
    47 <= Table.capacity tab /\
    Z.of_nat (length (Table.keys tab)) = Table.capacity tab /\
    Z.of_nat (length (Table.values tab)) = Table.capacity tab /\
    Z.of_nat (length (Table.meta tab)) = Table.capacity tab.
Proof.
  apply (run_keeps_count_and_capacity id 47 (scenario_ops 34) (mkZeroPages []) 200
           ZeroPages_clean).
  - lia.
  - vm_compute. reflexivity.
  - vm_compute. lia.
Defined.

Lemma put_again_updates_in_place_witness :
  exists tab a1 tab' a2,
    Table.put_all id 200 (scenario_ops 34) scenario_start.1 scenario_start.2
    = Done (tab, a1) /\
    Table.put id 200 tab 17 1000 a1 = Done (tab', a2) /\
    Table.count tab' = Table.count tab /\
    (forall out, Table.get id 200 tab' 17 out = Done (true, 1000)) /\
    forall k v, k <> 17 -> latest (scenario_ops 34) k = Some v ->
      forall out, Table.get id 200 tab' k out = Done (true, v).
Proof.
  apply (put_again_updates_in_place id 47 (scenario_ops 34) 17 1000 (mkZeroPages []) 200
           ZeroPages_clean).
  - lia.
  - vm_compute. reflexivity.
  - vm_compute. lia.
  - apply (bool_decide_unpack _). vm_compute. exact I.
Defined.

(** ** align_to and the scratch allocator, continued *)

Lemma pow2_divides_word k : 0 <= k < 64 -> (2 ^ k | 2 ^ 64).
Proof.
  intros Hk. exists (2 ^ (64 - k)). rewrite <- Z.pow_add_r by lia.
  f_equal. lia.
Qed.

(** Above the last multiple of the alignment that fits in 64 bits the
    sum wraps, and the result is 0. *)
Lemma align_to_wrap size k :
  0 <= k < 64 -> 2 ^ 64 - 2 ^ k < size < 2 ^ 64 -> align_to size (2 ^ k) = 0.
Proof.
  intros Hk Hsize.
  assert (Ha : 0 < 2 ^ k) by (apply Z.pow_pos_nonneg; lia).
  assert (Hlt : 2 ^ k < 2 ^ 64) by (apply Z.pow_lt_mono_r; lia).
  destruct (pow2_divides_word k Hk) as [Q HQ].
  assert (Hones : 2 ^ k - 1 = Z.ones k) by (rewrite Z.ones_equiv; lia).
  unfold align_to. rewrite Hones, !Z.land_ones by lia.
  assert (Hmod : size mod 2 ^ k = size - (Q - 1) * 2 ^ k).
  { symmetry. apply Z.mod_unique_pos with (q := Q - 1); lia. }
  rewrite (u64_small (2 ^ k - size mod 2 ^ k)) by lia.
  rewrite (Z.mod_small (2 ^ k - size mod 2 ^ k)) by lia.
  rewrite Hmod. replace (size + (2 ^ k - (size - (Q - 1) * 2 ^ k))) with (2 ^ 64) by lia.
  reflexivity.
Qed.

Lemma align_to_8 size :
  0 <= size -> size + 8 <= 2 ^ 64 ->
  align_to size sizeof_ptr mod 8 = 0 /\
  size <= align_to size sizeof_ptr < size + 8.
Proof.
  intros H0 H1. change sizeof_ptr with (2 ^ 3). change 8 with (2 ^ 3).
  apply align_to_round_up; [lia | lia | exact H1].
Qed.

Lemma align_to_page size :
  0 <= size -> size + 4096 <= 2 ^ 64 ->
  align_to size COMT_PAGE_SIZE mod 4096 = 0 /\
  size <= align_to size COMT_PAGE_SIZE < size + 4096.
Proof.
  intros H0 H1. change COMT_PAGE_SIZE with (2 ^ 12). change 4096 with (2 ^ 12).
  apply align_to_round_up; [lia | lia | exact H1].
Qed.

Lemma align_to_fixed size k :
  0 <= k < 64 -> 0 <= size < 2 ^ 64 -> size mod 2 ^ k = 0 ->
  align_to size (2 ^ k) = size.
Proof.
  intros Hk Hsize Hmul.
  assert (Ha : 0 < 2 ^ k) by (apply Z.pow_pos_nonneg; lia).
  assert (Hlt : 2 ^ k < 2 ^ 64) by (apply Z.pow_lt_mono_r; lia).
  assert (Hones : 2 ^ k - 1 = Z.ones k) by (rewrite Z.ones_equiv; lia).
  unfold align_to. rewrite Hones, !Z.land_ones by lia.
  rewrite Hmul, Z.sub_0_r. rewrite (u64_small (2 ^ k)) by lia.
  rewrite Z.mod_same by lia. rewrite Z.add_0_r. apply u64_small. exact Hsize.
Qed.

(** [align_to], for an alignment that is a power of two: the result is
    the least multiple of the alignment that is not below [size], and a
    result is a fixed point (the allocators align sizes that are aligned
    already). *)
Theorem align_to_least_multiple (size k : Z) :
  0 <= k < 64 -> 0 <= size -> size + 2 ^ k <= 2 ^ 64 ->
  (2 ^ k | align_to size (2 ^ k)) /\
  size <= align_to size (2 ^ k) /\
  (forall m, (2 ^ k | m) -> size <= m -> align_to size (2 ^ k) <= m) /\
  align_to (align_to size (2 ^ k)) (2 ^ k) = align_to size (2 ^ k).
Proof.
  intros Hk Hsize Hfit.
  assert (Ha : 0 < 2 ^ k) by (apply Z.pow_pos_nonneg; lia).
  destruct (align_to_round_up size k Hk Hsize Hfit) as [Hmod [Hle Hlt]].
  split; [apply Z.mod_divide; [lia | exact Hmod] |].
  split; [exact Hle |].
  split.
  - intros m [q ->] Hm.
    apply Z.mod_divide in Hmod; [| lia]. destruct Hmod as [r Hr].
    rewrite Hr in *.
    assert (Hrq : r < q + 1) by (apply (Z.mul_lt_mono_pos_r (2 ^ k)); lia).
    apply Z.mul_le_mono_nonneg_r; lia.
  - apply align_to_fixed; [exact Hk | lia | exact Hmod].
Qed.

Lemma align_to_least_multiple_witness :
  (2 ^ 12 | align_to 5000 (2 ^ 12)) /\
  5000 <= align_to 5000 (2 ^ 12) /\
  (forall m, (2 ^ 12 | m) -> 5000 <= m -> align_to 5000 (2 ^ 12) <= m) /\
  align_to (align_to 5000 (2 ^ 12)) (2 ^ 12) = align_to 5000 (2 ^ 12).
Proof. apply (align_to_least_multiple 5000 12); lia. Defined.

Section FixedBufferMore.
Import FixedBufferAllocator.

(** The first request on a scratch allocator without a buffer maps one
    block of whole pages, at least five of them and at least the aligned
    request; the stale [buffer_size] and [buffer_off] are overwritten,
    and the request is served from the start of the block, whatever its
    size. *)
Theorem raw_alloc_first_use (size : Z) (s : t) (os : OS) :
  buffer s = 0 -> 0 <= size -> size + 8 + 4096 <= 2 ^ 64 ->
  0 <= os_map os ->
  os_map os
  + align_to (max (align_to size sizeof_ptr) (COMT_PAGE_SIZE * DEFAULT_PAGE_COUNT))
      COMT_PAGE_SIZE <= USER_TOP ->
  let asz := align_to size sizeof_ptr in
  let bs := align_to (max asz (COMT_PAGE_SIZE * DEFAULT_PAGE_COUNT)) COMT_PAGE_SIZE in
  raw_alloc size s os
  = (os_map os, mk (os_map os) bs asz,
     mkOS (os_brk os) (os_map os + bs) (os_trace os ++ [Mmap bs (os_map os)])) /\
  5 * 4096 <= bs /\ size <= asz <= bs /\ bs mod 4096 = 0.
Proof.
  intros Hbuf Hsize Hfit Hmap Htop asz bs.
  destruct (align_to_8 size Hsize ltac:(lia)) as [Ha8 Hasz]. fold asz in Ha8, Hasz.
  assert (Hmax : asz <= max asz (COMT_PAGE_SIZE * DEFAULT_PAGE_COUNT) <= asz + 20480
                 /\ 20480 <= max asz (COMT_PAGE_SIZE * DEFAULT_PAGE_COUNT)).
  { unfold max. change (COMT_PAGE_SIZE * DEFAULT_PAGE_COUNT) with 20480.
    destruct (Z.ltb_spec 20480 asz); lia. }
  assert (Hm64 : max asz (COMT_PAGE_SIZE * DEFAULT_PAGE_COUNT) + 4096 <= 2 ^ 64).
  { unfold max. change (COMT_PAGE_SIZE * DEFAULT_PAGE_COUNT) with 20480.
    destruct (Z.ltb_spec 20480 asz); lia. }
  destruct (align_to_page (max asz (COMT_PAGE_SIZE * DEFAULT_PAGE_COUNT)))
    as [Hp Hbs]; [lia | exact Hm64 |]. fold bs in Hp, Hbs.
  assert (Hidem : align_to bs COMT_PAGE_SIZE = bs).
  { change COMT_PAGE_SIZE with (2 ^ 12). apply align_to_fixed; [lia | | exact Hp].
    unfold USER_TOP in Htop. fold asz bs in Htop. lia. }
  split; [| lia].
  unfold raw_alloc. fold asz. rewrite Hbuf. cbn [Z.eqb]. fold bs.
  unfold COMT_ALLOC_PAGE. rewrite Hidem.
  destruct (Z.eqb_spec bs 0) as [E | _]; [lia |]. cbn [orb].
  fold asz bs in Htop.
  destruct (Z.ltb_spec USER_TOP (os_map os + bs)) as [L | _]; [lia |].
  cbn [buffer buffer_size buffer_off].
  destruct (Z.ltb_spec bs asz) as [L | _]; [lia |].
  rewrite Z.sub_0_r, (u64_small bs) by (unfold USER_TOP in Htop; lia).
  destruct (Z.ltb_spec bs asz) as [L | _]; [lia |].
  rewrite Z.add_0_r, Z.add_0_l, (u64_small asz) by lia.
  rewrite u64_small by (unfold USER_TOP in Htop; lia).
  reflexivity.
Qed.

Lemma raw_alloc_first_use_witness :
  raw_alloc 100 zero boot
  = (os_map boot, mk (os_map boot) 20480 104,
     mkOS (os_brk boot) (os_map boot + 20480) [Mmap 20480 (os_map boot)]) /\
  5 * 4096 <= 20480 /\ 100 <= 104 <= 20480 /\ 20480 mod 4096 = 0.
Proof.
  apply (raw_alloc_first_use 100 zero boot).
  - reflexivity.
  - lia.
  - lia.
  - vm_compute. discriminate.
  - vm_compute. discriminate.
Defined.

(** The result of [COMT_ALLOC_PAGE] is stored and returned unchecked:
    when the mapping fails the caller gets [(void * )-1] as its block,
    and the allocator keeps it as its buffer. *)
Theorem raw_alloc_keeps_failed_mapping (size : Z) (s : t) (os : OS) :
  buffer s = 0 -> 0 <= size -> size + 8 + 4096 <= 2 ^ 64 ->
  USER_TOP
  < os_map os
    + align_to (max (align_to size sizeof_ptr) (COMT_PAGE_SIZE * DEFAULT_PAGE_COUNT))
        COMT_PAGE_SIZE ->
  let '(p, s', _) := raw_alloc size s os in
  p = MAP_FAILED /\ buffer s' = MAP_FAILED.
Proof.
  intros Hbuf Hsize Hfit Htop.
  set (asz := align_to size sizeof_ptr) in *.
  set (bs := align_to (max asz (COMT_PAGE_SIZE * DEFAULT_PAGE_COUNT)) COMT_PAGE_SIZE) in *.
  destruct (align_to_8 size Hsize ltac:(lia)) as [Ha8 Hasz]. fold asz in Ha8, Hasz.
  assert (Hm64 : 20480 <= max asz (COMT_PAGE_SIZE * DEFAULT_PAGE_COUNT) /\
                 asz <= max asz (COMT_PAGE_SIZE * DEFAULT_PAGE_COUNT) /\
                 max asz (COMT_PAGE_SIZE * DEFAULT_PAGE_COUNT) + 4096 <= 2 ^ 64).
  { unfold max. change (COMT_PAGE_SIZE * DEFAULT_PAGE_COUNT) with 20480.
    destruct (Z.ltb_spec 20480 asz); lia. }
  destruct (align_to_page (max asz (COMT_PAGE_SIZE * DEFAULT_PAGE_COUNT)))
    as [Hp Hbs]; [lia | lia |]. fold bs in Hp, Hbs.
  assert (Hbs64 : bs < 2 ^ 64).
  { pose proof (u64_range (max asz (COMT_PAGE_SIZE * DEFAULT_PAGE_COUNT)
       + Z.land (u64 (COMT_PAGE_SIZE
            - Z.land (max asz (COMT_PAGE_SIZE * DEFAULT_PAGE_COUNT)) (COMT_PAGE_SIZE - 1)))
           (COMT_PAGE_SIZE - 1))) as R.
    fold (align_to (max asz (COMT_PAGE_SIZE * DEFAULT_PAGE_COUNT)) COMT_PAGE_SIZE) in R.
    fold bs in R. lia. }
  assert (Hidem : align_to bs COMT_PAGE_SIZE = bs).
  { change COMT_PAGE_SIZE with (2 ^ 12). apply align_to_fixed; [lia | lia | exact Hp]. }
  unfold raw_alloc. fold asz. rewrite Hbuf. cbn [Z.eqb]. fold bs.
  unfold COMT_ALLOC_PAGE. rewrite Hidem.
  destruct (Z.eqb_spec bs 0) as [E | _]; [lia |]. cbn [orb].
  destruct (Z.ltb_spec USER_TOP (os_map os + bs)) as [_ | G]; [| lia].
  cbn [buffer buffer_size buffer_off].
  destruct (Z.ltb_spec bs asz) as [L | _]; [lia |].
  rewrite Z.sub_0_r, (u64_small bs) by lia.
  destruct (Z.ltb_spec bs asz) as [L | _]; [lia |].
  rewrite Z.add_0_r. split; [| reflexivity].
  apply u64_small. unfold MAP_FAILED. lia.
Qed.

Lemma raw_alloc_keeps_failed_mapping_witness :
  let '(p, s', _) := raw_alloc 100 zero (mkOS (2 ^ 24) (USER_TOP - 4096) []) in
  p = MAP_FAILED /\ buffer s' = MAP_FAILED.
Proof.
  apply (raw_alloc_keeps_failed_mapping 100 zero (mkOS (2 ^ 24) (USER_TOP - 4096) [])).
  - reflexivity.
  - lia.
  - lia.
  - vm_compute. reflexivity.
Defined.

(** What every call on a scratch allocator with a buffer keeps: no
    system call, the same buffer; the cursor stays inside the buffer and
    a multiple of 8; the request fails with [nullptr] exactly when its
    aligned size exceeds the whole buffer, and then nothing changes;
    otherwise the block handed out is 8-aligned and lies inside the
    buffer, ending at the new cursor. *)
Theorem raw_alloc_stays_in_buffer (size : Z) (s : t) (os : OS) :
  initialized s -> 0 < buffer s -> buffer s + buffer_size s < 2 ^ 64 ->
  buffer s mod 8 = 0 -> buffer_off s mod 8 = 0 ->
  0 <= size -> size + 8 <= 2 ^ 64 ->
  let asz := align_to size sizeof_ptr in
  let '(p, s', os') := raw_alloc size s os in
  os' = os /\ buffer s' = buffer s /\ buffer_size s' = buffer_size s /\
  initialized s' /\ buffer_off s' mod 8 = 0 /\
  (p = 0 <-> buffer_size s < asz) /\
  (p = 0 -> s' = s) /\
  (p <> 0 ->
     p mod 8 = 0 /\ buffer s <= p /\
     p + asz = buffer s + buffer_off s' /\
     p + size <= buffer s + buffer_size s).
Proof.
  intros (Hbuf & Hoff & Hsz) Hpos Htop Hb8 Ho8 Hsize Hfit asz.
  destruct (align_to_8 size Hsize Hfit) as [Ha8 Hasz]. fold asz in Ha8, Hasz.
  unfold raw_alloc. fold asz.
  destruct (Z.eqb_spec (buffer s) 0) as [E | _]; [contradiction |].
  destruct (Z.ltb_spec (buffer_size s) asz) as [L | G].
  { split; [reflexivity |]. split; [reflexivity |]. split; [reflexivity |].
    split; [unfold initialized; lia |]. split; [exact Ho8 |].
    split; [split; [intros _; exact L | reflexivity] |].
    split; [reflexivity | intros Hp; contradiction]. }
  rewrite (u64_small (buffer_size s - buffer_off s)) by lia.
  destruct (Z.ltb_spec (buffer_size s - buffer_off s) asz) as [W | F];
    cbn [buffer buffer_size buffer_off].
  - split; [reflexivity |]. split; [reflexivity |]. split; [reflexivity |].
    split; [unfold initialized; cbn [buffer buffer_size buffer_off]; lia |].
    split; [exact Ha8 |].
    split; [split; [intros Hp; lia | intros Hlt; lia] |].
    split; [intros Hp; lia |]. intros _. lia.
  - rewrite (u64_small (buffer s + buffer_off s)) by lia.
    rewrite (u64_small (buffer_off s + asz)) by lia.
    split; [reflexivity |]. split; [reflexivity |]. split; [reflexivity |].
    split; [unfold initialized; cbn [buffer buffer_size buffer_off]; lia |].
    split; [rewrite Z.add_mod, Ho8, Ha8 by lia; reflexivity |].
    split; [split; [intros Hp; lia | intros Hlt; lia] |].
    split; [intros Hp; lia |]. intros _.
    split; [rewrite Z.add_mod, Hb8, Ho8 by lia; reflexivity | lia].
Qed.

Lemma raw_alloc_stays_in_buffer_witness :
  let '(p, s', os') := raw_alloc 1000 (mk 4096 20480 20000) boot in
  os' = boot /\ buffer s' = 4096 /\ buffer_size s' = 20480 /\
  initialized s' /\ buffer_off s' mod 8 = 0 /\
  (p = 0 <-> 20480 < align_to 1000 sizeof_ptr) /\
  (p = 0 -> s' = mk 4096 20480 20000) /\
  (p <> 0 ->
     p mod 8 = 0 /\ 4096 <= p /\
     p + align_to 1000 sizeof_ptr = 4096 + buffer_off s' /\
     p + 1000 <= 4096 + 20480).
Proof.
  apply (raw_alloc_stays_in_buffer 1000 (mk 4096 20480 20000) boot).
  - unfold initialized; simpl; lia.
  - simpl; lia.
  - simpl; lia.
  - reflexivity.
  - reflexivity.
  - lia.
  - lia.
Defined.

(** A request within 7 bytes of 2^64 is aligned to 0 by the wrap-around
    of [align_to] and then succeeds: the caller gets the address at the
    cursor, and not one byte is set aside for it. *)
Theorem raw_alloc_of_nearly_everything (size : Z) (s : t) (os : OS) :
  initialized s -> buffer s + buffer_size s < 2 ^ 64 -> 0 < buffer s ->
  2 ^ 64 - 8 < size < 2 ^ 64 ->
  raw_alloc size s os = (buffer s + buffer_off s, s, os).
Proof.
  intros (Hbuf & Hoff & Hsz) Htop Hpos Hsize.
  assert (Hasz : align_to size sizeof_ptr = 0).
  { change sizeof_ptr with (2 ^ 3). apply align_to_wrap; [lia |].
    change (2 ^ 3) with 8. exact Hsize. }
  unfold raw_alloc. rewrite Hasz.
  destruct (Z.eqb_spec (buffer s) 0) as [E | _]; [contradiction |].
  destruct (Z.ltb_spec (buffer_size s) 0) as [L | _]; [lia |].
  rewrite (u64_small (buffer_size s - buffer_off s)) by lia.
  destruct (Z.ltb_spec (buffer_size s - buffer_off s) 0) as [L | _]; [lia |].
  rewrite Z.add_0_r, !u64_small by lia.
  destruct s; reflexivity.
Qed.

Lemma raw_alloc_of_nearly_everything_witness :
  raw_alloc (2 ^ 64 - 1) (mk 4096 20480 16) boot = (4096 + 16, mk 4096 20480 16, boot).
Proof.
  apply (raw_alloc_of_nearly_everything (2 ^ 64 - 1) (mk 4096 20480 16) boot).
  - unfold initialized; simpl; lia.
  - simpl; lia.
  - simpl; lia.
  - lia.
Defined.

End FixedBufferMore.

Section FixedBufferRuns.
Import FixedBufferAllocator.

Lemma aligned_total_nonneg sizes :
  Forall (fun n => 0 <= n /\ n + 8 <= 2 ^ 64) sizes -> 0 <= aligned_total sizes.
Proof.
  induction 1 as [| n sizes [Hn0 Hn1] _ IH]; cbn [aligned_total]; [lia |].
  pose proof (align_to_8 n Hn0 Hn1). lia.
Qed.

Lemma raw_alloc_all_length sizes :
  forall s os, length (raw_alloc_all sizes s os).1.1 = length sizes.
Proof.
  induction sizes as [| a sizes IH]; intros s os; cbn [raw_alloc_all]; [reflexivity |].
  destruct (raw_alloc a s os) as [[p1 s1] os1].
  specialize (IH s1 os1).
  destruct (raw_alloc_all sizes s1 os1) as [[ps1 s2] os2].
  cbn [fst length] in *. f_equal. exact IH.
Qed.

Lemma raw_alloc_all_spec sizes :
  forall s os,
  initialized s -> 0 < buffer s -> buffer s + buffer_size s < 2 ^ 64 ->
  Forall (fun n => 0 <= n /\ n + 8 <= 2 ^ 64) sizes ->
  buffer_off s + aligned_total sizes <= buffer_size s ->
  exists ps s',
    raw_alloc_all sizes s os = (ps, s', os) /\
    buffer s' = buffer s /\ buffer_size s' = buffer_size s /\
    buffer_off s' = buffer_off s + aligned_total sizes /\
    (forall i p n, ps !! i = Some p -> sizes !! i = Some n ->
       buffer s + buffer_off s <= p /\ p + n <= buffer s + buffer_off s') /\
    (forall i j p q n, (i < j)%nat ->
       ps !! i = Some p -> ps !! j = Some q -> sizes !! i = Some n -> p + n <= q).
Proof.
  induction sizes as [| n sizes IH]; intros s os Hinit Hpos Htop Hsizes Hroom.
  - exists [], s. cbn [raw_alloc_all aligned_total].
    split; [reflexivity |]. split; [reflexivity |]. split; [reflexivity |].
    split; [lia |]. split; intros; discriminate.
  - inversion Hsizes as [| ? ? [Hn0 Hn1] Hrest]; subst.
    cbn [aligned_total] in Hroom.
    pose proof (aligned_total_nonneg sizes Hrest) as Htot.
    destruct (align_to_8 n Hn0 Hn1) as [Ha8 Hasz].
    pose proof Hinit as (Hbuf & Hoff & Hsz).
    assert (Hstep : raw_alloc n s os
                    = (buffer s + buffer_off s,
                       mk (buffer s) (buffer_size s) (buffer_off s + align_to n sizeof_ptr),
                       os)).
    { unfold raw_alloc.
      destruct (Z.eqb_spec (buffer s) 0) as [E | _]; [contradiction |].
      destruct (Z.ltb_spec (buffer_size s) (align_to n sizeof_ptr)) as [L | _]; [lia |].
      rewrite (u64_small (buffer_size s - buffer_off s)) by lia.
      destruct (Z.ltb_spec (buffer_size s - buffer_off s) (align_to n sizeof_ptr))
        as [L | _]; [lia |].
      rewrite !u64_small by lia. reflexivity. }
    destruct (IH (mk (buffer s) (buffer_size s) (buffer_off s + align_to n sizeof_ptr)) os)
      as (ps & s' & Hrun & Hb & Hs & Ho & Hin & Hord).
    { unfold initialized. cbn [buffer buffer_size buffer_off]. lia. }
    { exact Hpos. }
    { exact Htop. }
    { exact Hrest. }
    { cbn [buffer buffer_size buffer_off]. lia. }
    cbn [buffer buffer_size buffer_off] in Hb, Hs, Ho, Hin.
    exists (buffer s + buffer_off s :: ps), s'.
    cbn [raw_alloc_all aligned_total]. rewrite Hstep, Hrun.
    split; [reflexivity |]. split; [exact Hb |]. split; [exact Hs |].
    split; [lia |]. split.
    + intros [| i] p m Hp Hm; cbn in Hp, Hm.
      * inversion Hp; inversion Hm; subst. lia.
      * specialize (Hin i p m Hp Hm). lia.
    + intros [| i] [| j] p q m Hij Hp Hq Hm; cbn in Hp, Hq, Hm; try lia.
      * inversion Hp; inversion Hm; subst.
        destruct (lookup_lt_is_Some_2 sizes j) as [m' Hm'].
        { apply lookup_lt_Some in Hq.
          pose proof (raw_alloc_all_length sizes
            (mk (buffer s) (buffer_size s) (buffer_off s + align_to m sizeof_ptr)) os) as Hlen.
          rewrite Hrun in Hlen. cbn [fst] in Hlen. lia. }
        specialize (Hin j q m' Hq Hm'). lia.
      * apply (Hord i j p q m); [lia | assumption | assumption | assumption].
Qed.

(** As long as the requests fit behind the cursor, the scratch allocator
    hands out blocks in address order, each inside the buffer and none
    overlapping another; the cursor advances by the aligned sizes, and
    no system call is made. *)
Theorem raw_alloc_blocks_do_not_overlap (sizes : list Z) (s : t) (os : OS) :
  initialized s -> 0 < buffer s -> buffer s + buffer_size s < 2 ^ 64 ->
  Forall (fun n => 0 <= n /\ n + 8 <= 2 ^ 64) sizes ->
  buffer_off s + aligned_total sizes <= buffer_size s ->
  let '(ps, s', os') := raw_alloc_all sizes s os in
  os' = os /\
  buffer_off s' = buffer_off s + aligned_total sizes /\
  (forall i p n, ps !! i = Some p -> sizes !! i = Some n ->
     buffer s <= p /\ p + n <= buffer s + buffer_size s) /\
  (forall i j p q n, (i < j)%nat ->
     ps !! i = Some p -> ps !! j = Some q -> sizes !! i = Some n -> p + n <= q).
Proof.
  intros Hinit Hpos Htop Hsizes Hroom.
  destruct (raw_alloc_all_spec sizes s os Hinit Hpos Htop Hsizes Hroom)
    as (ps & s' & -> & Hb & Hs & Ho & Hin & Hord).
  pose proof Hinit as (_ & Hoff & _).
  split; [reflexivity |]. split; [exact Ho |]. split; [| exact Hord].
  intros i p n Hp Hn. specialize (Hin i p n Hp Hn). lia.
Qed.

Lemma raw_alloc_blocks_do_not_overlap_witness :
  let '(ps, s', os') := raw_alloc_all [10; 0; 100] (mk 4096 20480 16) boot in
  os' = boot /\
  buffer_off s' = 16 + aligned_total [10; 0; 100] /\
  (forall i p n, ps !! i = Some p -> [10; 0; 100] !! i = Some n ->
     4096 <= p /\ p + n <= 4096 + 20480) /\
  (forall i j p q n, (i < j)%nat ->
     ps !! i = Some p -> ps !! j = Some q -> [10; 0; 100] !! i = Some n -> p + n <= q).
Proof.
  apply (raw_alloc_blocks_do_not_overlap [10; 0; 100] (mk 4096 20480 16) boot).
  - unfold initialized; simpl; lia.
  - simpl; lia.
  - simpl; lia.
  - repeat constructor; lia.
  - vm_compute. discriminate.
Defined.

End FixedBufferRuns.

(** ** ArenaAllocator, continued: chains with addresses *)

Section ArenaMore.
Import ArenaAllocator.

Lemma linked_chained w p l : linked w p l -> chained w p l.*2.
Proof.
  induction 1 as [| p r l Hp Hr _ IH]; cbn; [constructor |].
  constructor; assumption.
Qed.

Lemma linked_suffix w l1 :
  forall p q r l2, linked w p (l1 ++ (q, r) :: l2) -> linked w q ((q, r) :: l2).
Proof.
  induction l1 as [| [p0 r0] l1 IH]; intros p q r l2 H; cbn [app] in H.
  - inversion H; subst. assumption.
  - inversion H; subst. eapply IH. eassumption.
Qed.

Lemma linked_functional w l1 :
  forall l2 p, linked w p l1 -> linked w p l2 -> l1 = l2.
Proof.
  induction l1 as [| [p1 r1] l1 IH]; intros l2 p H1 H2.
  - inversion H1; subst. inversion H2; subst; [reflexivity | contradiction].
  - inversion H1 as [| ? ? ? Hp Hr Hnext]; subst.
    inversion H2 as [| ? r2 l2' Hp2 Hr2 Hnext2]; subst; [contradiction |].
    assert (r2 = r1) by congruence. subst r2.
    f_equal. eapply IH; eassumption.
Qed.

(** A chain that ends does not come back to a descriptor. *)
Lemma linked_front_fresh w p r l : linked w p ((p, r) :: l) -> p ∉ l.*1.
Proof.
  intros H Hin.
  apply list_elem_of_fmap in Hin as ([q r'] & Hq & Hin). cbn in Hq. subst q.
  apply list_elem_of_split in Hin as (l1 & l2 & ->).
  inversion H as [| ? ? ? Hp Hr Hnext]; subst.
  pose proof (linked_suffix w l1 _ _ _ _ Hnext) as Hsuf.
  pose proof (linked_functional w _ _ _ H Hsuf) as E.
  apply (f_equal length) in E. cbn [length] in E. rewrite length_app in E.
  cbn [length] in E. lia.
Qed.

Lemma linked_NoDup w p l : linked w p l -> NoDup l.*1.
Proof.
  induction 1 as [| p r l Hp Hr Hnext IH]; cbn; [constructor |].
  constructor; [| exact IH].
  apply (linked_front_fresh w p r l). constructor; assumption.
Qed.

(** A chain only depends on the descriptors it goes through. *)
Lemma linked_frame w w' p l :
  linked w p l ->
  (forall q, q ∈ l.*1 -> regions w' !! q = regions w !! q) ->
  linked w' p l.
Proof.
  induction 1 as [| p r l Hp Hr Hnext IH]; intros Hsame; [constructor |].
  constructor; [exact Hp | |].
  - rewrite Hsame; [exact Hr |]. cbn. apply elem_of_cons. left. reflexivity.
  - apply IH. intros q Hq. apply Hsame. cbn. apply elem_of_cons. right. exact Hq.
Qed.

Lemma linked_set_off w o x l1 :
  forall p q r l2,
  linked w p (l1 ++ (q, r) :: l2) ->
  linked (mkWorld (<[q := set_off r x]> (regions w)) o) p
    (l1 ++ (q, set_off r x) :: l2).
Proof.
  induction l1 as [| [p0 r0] l1 IH]; intros p q r l2 H; cbn [app] in *.
  - assert (p = q) by (inversion H; reflexivity). subst p.
    pose proof (linked_front_fresh w _ _ _ H) as Hfresh.
    inversion H as [| ? ? ? Hp Hr Hnext]; subst.
    constructor; [exact Hp | cbn [regions]; apply lookup_insert_eq |].
    cbn [set_off next]. apply (linked_frame w); [exact Hnext |].
    intros q' Hq'. cbn [regions]. apply lookup_insert_ne. intros ->. contradiction.
  - assert (p = p0) by (inversion H; reflexivity). subst p.
    pose proof (linked_NoDup w _ _ H) as Hnd.
    inversion H as [| ? ? ? Hp Hr Hnext]; subst.
    cbn in Hnd. apply NoDup_cons in Hnd as [Hnotin _].
    constructor; [exact Hp | |].
    + cbn [regions]. rewrite lookup_insert_ne; [exact Hr |].
      intros ->. apply Hnotin. rewrite fmap_app. apply elem_of_app. right.
      cbn. apply elem_of_cons. left. reflexivity.
    + apply IH. exact Hnext.
Qed.

Lemma u64_add_l a b : u64 (u64 a + b) = u64 (a + b).
Proof. unfold u64. apply Z.add_mod_idemp_l. lia. Qed.

Lemma u64_add_r a b : u64 (a + u64 b) = u64 (a + b).
Proof. unfold u64. apply Z.add_mod_idemp_r. lia. Qed.

Lemma free_bytes_nonneg l :
  Forall (fun x => off x.2 <= size x.2) l -> 0 <= free_bytes l.
Proof.
  induction 1 as [| [p r] l Hr _ IH]; cbn [free_bytes]; [lia |].
  cbn [snd] in Hr. lia.
Qed.

Lemma avail_loop_spec w l :
  forall fuel p acc,
  linked w p l -> Forall (fun x => off x.2 <= size x.2) l ->
  (length l < fuel)%nat ->
  avail_loop fuel p (u64 acc) w = Done (u64 (acc + free_bytes l)).
Proof.
  induction l as [| [q r] l IH]; intros fuel p acc Hl Hb Hfuel.
  - inversion Hl; subst. destruct fuel; [cbn in Hfuel; lia |].
    cbn [avail_loop free_bytes Z.eqb]. rewrite Z.add_0_r. reflexivity.
  - assert (p = q) by (inversion Hl; reflexivity). subst p.
    inversion Hl as [| ? ? ? Hp Hr Hnext]; subst.
    inversion Hb as [| ? ? Hr_ok Hrest]; subst. cbn [snd] in Hr_ok.
    destruct fuel as [| fuel]; [cbn in Hfuel; lia |].
    cbn [avail_loop].
    destruct (Z.eqb_spec q 0); [contradiction |].
    rewrite (load_Some q r w Hp Hr). cbn [obind]. unfold Region_avail.
    destruct (Z.leb_spec (off r) (size r)) as [_ | G]; [| lia]. cbn [obind].
    rewrite u64_add_l, u64_add_r.
    rewrite (IH fuel (next r) (acc + (size r - off r)) Hnext Hrest)
      by (cbn in Hfuel; lia).
    cbn [free_bytes]. f_equal. f_equal. lia.
Qed.

Lemma avail_spec fuel a w l :
  linked w (head a) l -> Forall (fun x => off x.2 <= size x.2) l ->
  (length l < fuel)%nat ->
  avail fuel a w = Done (u64 (free_bytes l)).
Proof.
  intros Hl Hb Hfuel. unfold avail.
  pose proof (avail_loop_spec w l fuel (head a) 0 Hl Hb Hfuel) as E.
  exact E.
Qed.

Lemma avail_loop_overrun w l1 q r l2 :
  forall fuel p acc,
  linked w p (l1 ++ (q, r) :: l2) ->
  Forall (fun x => off x.2 <= size x.2) l1 ->
  size r < off r ->
  (length l1 < fuel)%nat ->
  avail_loop fuel p acc w = Trap.
Proof.
  induction l1 as [| [p0 r0] l1 IH]; intros fuel p acc Hl Hb Hover Hfuel; cbn [app] in Hl.
  - assert (p = q) by (inversion Hl; reflexivity). subst p.
    inversion Hl as [| ? ? ? Hp Hrr Hnext]; subst.
    destruct fuel as [| fuel]; [cbn in Hfuel; lia |]. cbn [avail_loop].
    destruct (Z.eqb_spec q 0); [contradiction |].
    rewrite (load_Some q r w Hp Hrr). cbn [obind]. unfold Region_avail.
    destruct (Z.leb_spec (off r) (size r)) as [L | _]; [lia | reflexivity].
  - assert (p = p0) by (inversion Hl; reflexivity). subst p.
    inversion Hl as [| ? ? ? Hp Hrr Hnext]; subst.
    inversion Hb as [| ? ? Hr_ok Hrest]; subst. cbn [snd] in Hr_ok.
    destruct fuel as [| fuel]; [cbn in Hfuel; lia |]. cbn [avail_loop].
    destruct (Z.eqb_spec p0 0); [contradiction |].
    rewrite (load_Some p0 r0 w Hp Hrr). cbn [obind]. unfold Region_avail.
    destruct (Z.leb_spec (off r0) (size r0)) as [_ | G]; [| lia]. cbn [obind].
    apply IH; [exact Hnext | exact Hrest | exact Hover | cbn in Hfuel; lia].
Qed.

(** [avail] adds up what is left in each region of [head], in 64 bits;
    a region whose cursor is past its size stops the program instead
    (the assertion of [Region::avail]). *)
Theorem avail_is_sum_of_free_bytes (fuel : nat) (a : t) (w : world)
    (l : list (Z * Region)) :
  linked w (head a) l -> (length l < fuel)%nat ->
  (Forall (fun x => off x.2 <= size x.2) l ->
   avail fuel a w = Done (u64 (free_bytes l))) /\
  (forall l1 q r l2,
     l = l1 ++ (q, r) :: l2 ->
     Forall (fun x => off x.2 <= size x.2) l1 -> size r < off r ->
     avail fuel a w = Trap).
Proof.
  intros Hl Hfuel. split.
  - intros Hb. apply avail_spec; assumption.
  - intros l1 q r l2 -> Hb Hover. unfold avail.
    apply (avail_loop_overrun w l1 q r l2); [exact Hl | exact Hb | exact Hover |].
    rewrite length_app in Hfuel. lia.
Qed.

Lemma rewound_addresses (l : list (Z * Region)) :
  (prod_map id (fun r => set_off r 0) <$> l).*1 = l.*1.
Proof.
  induction l as [| [p r] l IH]; cbn; [reflexivity |]. f_equal. exact IH.
Qed.

Lemma reset_loop_spec l :
  forall fuel p w,
  linked w p l -> (length l < fuel)%nat ->
  exists w',
    reset_loop fuel p w = Done w' /\ os w' = os w /\
    linked w' p (prod_map id (fun r => set_off r 0) <$> l) /\
    forall q, q ∉ l.*1 -> regions w' !! q = regions w !! q.
Proof.
  induction l as [| [q r] l IH]; intros fuel p w Hl Hfuel.
  - inversion Hl; subst. destruct fuel; [cbn in Hfuel; lia |].
    exists w. cbn. split; [reflexivity |]. split; [reflexivity |].
    split; [constructor | reflexivity].
  - assert (p = q) by (inversion Hl; reflexivity). subst p.
    pose proof (linked_front_fresh w _ _ _ Hl) as Hfresh.
    inversion Hl as [| ? ? ? Hp Hr Hnext]; subst.
    destruct fuel as [| fuel]; [cbn in Hfuel; lia |].
    cbn [reset_loop].
    destruct (Z.eqb_spec q 0); [contradiction |].
    rewrite (load_Some q r w Hp Hr). cbn [obind].
    set (w1 := mkWorld (<[q := set_off r 0]> (regions w)) (os w)).
    assert (Hr1 : regions w1 !! q = Some (set_off r 0)) by apply lookup_insert_eq.
    rewrite (load_Some q _ w1 Hp Hr1). cbn [obind set_off next].
    assert (Hnext1 : linked w1 (next r) l).
    { apply (linked_frame w); [exact Hnext |]. intros q' Hq'.
      apply lookup_insert_ne. intros ->. contradiction. }
    destruct (IH fuel (next r) w1 Hnext1) as (w' & Hrun & Hos & Hl' & Hsame).
    { cbn in Hfuel. lia. }
    exists w'. split; [exact Hrun |]. split; [exact Hos |]. split.
    + cbn [fmap list_fmap prod_map id fst snd].
      constructor; [exact Hp | | exact Hl'].
      rewrite (Hsame q Hfresh). exact Hr1.
    + intros q' Hq'. cbn in Hq'. apply not_elem_of_cons in Hq' as [Hne Hq'].
      rewrite (Hsame q' Hq'). apply lookup_insert_ne. congruence.
Qed.

(** [reset] rewinds the cursor of every region of [head] and touches
    nothing else: the chain, the pages and sizes stay, descriptors
    outside the chain are as before, and no page goes back to the
    system. *)
Theorem reset_rewinds_every_region (fuel : nat) (a : t) (w : world)
    (l : list (Z * Region)) :
  linked w (head a) l -> (length l < fuel)%nat ->
  exists w',
    reset fuel a w = Done w' /\ os w' = os w /\
    linked w' (head a) (prod_map id (fun r => set_off r 0) <$> l) /\
    (forall q, q ∉ l.*1 -> regions w' !! q = regions w !! q) /\
    (Forall (fun x => 0 <= size x.2 < 2 ^ 64) l ->
     avail fuel a w' = Done (u64 (foldr (fun x acc => size x.2 + acc) 0 l))).
Proof.
  intros Hl Hfuel.
  destruct (reset_loop_spec l fuel (head a) w Hl Hfuel) as (w' & Hrun & Hos & Hl' & Hsame).
  exists w'. split; [exact Hrun |]. split; [exact Hos |]. split; [exact Hl' |].
  split; [exact Hsame |]. intros Hsz.
  rewrite (avail_spec fuel a w' _ Hl').
  - f_equal. f_equal. clear -l. induction l as [| [p r] l IH]; cbn; [reflexivity |].
    rewrite IH. lia.
  - clear -Hsz. induction Hsz as [| [p r] l Hr _ IH]; cbn; constructor; [| exact IH].
    cbn in *. lia.
  - rewrite length_fmap. exact Hfuel.
Qed.

Lemma raw_alloc_scan_spec w l1 :
  forall fuel p q r l2 sz,
  linked w p (l1 ++ (q, r) :: l2) ->
  Forall (fun x => u64 (size x.2 - off x.2) < sz) l1 ->
  sz <= u64 (size r - off r) ->
  (length l1 < fuel)%nat ->
  raw_alloc_scan fuel p sz w
  = Done (Some (u64 (data r + off r)),
          mkWorld (<[q := set_off r (u64 (off r + sz))]> (regions w)) (os w)).
Proof.
  induction l1 as [| [p0 r0] l1 IH]; intros fuel p q r l2 sz Hl Hfull Hroom Hfuel;
    cbn [app] in Hl.
  - assert (p = q) by (inversion Hl; reflexivity). subst p.
    inversion Hl as [| ? ? ? Hp Hr Hnext]; subst.
    destruct fuel as [| fuel]; [cbn in Hfuel; lia |]. cbn [raw_alloc_scan].
    destruct (Z.eqb_spec q 0); [contradiction |].
    rewrite (load_Some q r w Hp Hr). cbn [obind].
    destruct (Z.leb_spec sz (u64 (size r - off r))); [reflexivity | lia].
  - assert (p = p0) by (inversion Hl; reflexivity). subst p.
    inversion Hl as [| ? ? ? Hp Hr Hnext]; subst.
    inversion Hfull as [| ? ? Hr_full Hrest]; subst. cbn [snd] in Hr_full.
    destruct fuel as [| fuel]; [cbn in Hfuel; lia |]. cbn [raw_alloc_scan].
    destruct (Z.eqb_spec p0 0); [contradiction |].
    rewrite (load_Some p0 r0 w Hp Hr). cbn [obind].
    destruct (Z.leb_spec sz (u64 (size r0 - off r0))); [lia |].
    apply IH with (l2 := l2); [exact Hnext | exact Hrest | exact Hroom | cbn in Hfuel; lia].
Qed.

Lemma free_bytes_app l1 l2 : free_bytes (l1 ++ l2) = free_bytes l1 + free_bytes l2.
Proof.
  induction l1 as [| [p r] l1 IH]; cbn [app free_bytes]; [lia |]. rewrite IH. lia.
Qed.

Lemma in_bounds_free (l : list (Z * Region)) :
  Forall (fun x => in_bounds x.2) l -> Forall (fun x => off x.2 <= size x.2) l.
Proof.
  intros H. eapply Forall_impl; [exact H |].
  intros [p r] (H1 & _). cbn in *. lia.
Qed.

(** First fit: the request goes to the first region of [head], from
    the front, that has the aligned size left, however much later
    regions have.  Only that region's cursor moves, by the aligned
    size; the block starts at the old cursor and lies inside the
    region's page; no system call is made, the arena's two pointers and
    the chain stay, and [avail] goes down by exactly the aligned size. *)
Theorem raw_alloc_takes_first_region_with_room
    (fuel : nat) (sz : Z) (a : t) (w : world)
    (l1 l2 : list (Z * Region)) (q : Z) (r : Region) :
  linked w (head a) (l1 ++ (q, r) :: l2) ->
  Forall (fun x => in_bounds x.2) (l1 ++ (q, r) :: l2) ->
  free_bytes (l1 ++ (q, r) :: l2) < 2 ^ 64 ->
  Forall (fun x => size x.2 - off x.2 < align_to sz sizeof_ptr) l1 ->
  align_to sz sizeof_ptr <= size r - off r ->
  0 <= sz -> sz + 8 <= 2 ^ 64 ->
  (length (l1 ++ (q, r) :: l2) < fuel)%nat ->
  let asz := align_to sz sizeof_ptr in
  let r' := set_off r (off r + asz) in
  let w' := mkWorld (<[q := r']> (regions w)) (os w) in
  raw_alloc fuel sz a w = Done (data r + off r, a, w') /\
  linked w' (head a) (l1 ++ (q, r') :: l2) /\
  in_bounds r' /\
  data r + off r + sz <= data r + size r /\
  avail fuel a w = Done (free_bytes (l1 ++ (q, r) :: l2)) /\
  avail fuel a w' = Done (free_bytes (l1 ++ (q, r) :: l2) - asz).
Proof.
  intros Hl Hb Htotal Hfull Hroom Hsz0 Hsz1 Hfuel asz r' w'.
  destruct (align_to_8 sz Hsz0 Hsz1) as [Ha8 Hasz]. fold asz in Ha8, Hasz, Hroom, Hfull.
  pose proof Hb as Hb0. apply Forall_app in Hb0 as [Hb1 Hb2].
  apply Forall_cons in Hb2 as [Hr Hb2]. cbn [snd] in Hr.
  destruct Hr as (Hoff & Hdata & Htop).
  rewrite length_app in Hfuel. cbn [length] in Hfuel.
  assert (Hr'eq : set_off r (u64 (off r + asz)) = r').
  { unfold r'. rewrite u64_small by lia. reflexivity. }
  split.
  { unfold raw_alloc. fold asz.
    rewrite (raw_alloc_scan_spec w l1 fuel (head a) q r l2 asz Hl).
    - cbn [obind]. rewrite Hr'eq. rewrite u64_small by lia. reflexivity.
    - clear -Hb1 Hfull. induction Hfull as [| [p0 r0] l1 H0 _ IH]; constructor.
      + apply Forall_cons in Hb1 as [(Hoff & Hd0 & Hd1) _]. cbn [snd] in *.
        rewrite u64_small by lia. exact H0.
      + apply IH. apply Forall_cons in Hb1 as [_ Hb1]. exact Hb1.
    - rewrite u64_small by lia. exact Hroom.
    - lia. }
  assert (Hl' : linked w' (head a) (l1 ++ (q, r') :: l2)).
  { apply linked_set_off. exact Hl. }
  split; [exact Hl' |].
  assert (Hr' : in_bounds r').
  { unfold in_bounds, r', set_off. cbn [off size data]. lia. }
  split; [exact Hr' |]. split; [lia |].
  pose proof (free_bytes_nonneg _ (in_bounds_free _ Hb)) as Hnonneg.
  split.
  { rewrite (avail_spec fuel a w _ Hl (in_bounds_free _ Hb)).
    - rewrite u64_small by lia. reflexivity.
    - rewrite length_app. cbn [length]. lia. }
  assert (Hb' : Forall (fun x => in_bounds x.2) (l1 ++ (q, r') :: l2)).
  { apply Forall_app. split; [exact Hb1 |]. apply Forall_cons. split; assumption. }
  rewrite (avail_spec fuel a w' _ Hl' (in_bounds_free _ Hb')).
  - f_equal. rewrite !free_bytes_app in *. cbn [free_bytes] in *.
    unfold r' at 1 2. cbn [set_off size off].
    pose proof (free_bytes_nonneg _ (in_bounds_free _ Hb1)).
    pose proof (free_bytes_nonneg _ (in_bounds_free _ Hb2)).
    rewrite u64_small by lia. lia.
  - rewrite length_app. cbn [length]. lia.
Qed.

(** After [reset] the arena hands out its old memory again: a request
    that fits the page of the front region is served at the start of
    that page, the address the first block taken from that region had,
    and without a system call. *)
Theorem reset_then_alloc_reuses_front_page
    (fuel : nat) (sz : Z) (a : t) (w : world)
    (p : Z) (r : Region) (l : list (Z * Region)) :
  linked w (head a) ((p, r) :: l) ->
  in_bounds r ->
  align_to sz sizeof_ptr <= size r ->
  0 <= sz -> sz + 8 <= 2 ^ 64 ->
  (length ((p, r) :: l) < fuel)%nat ->
  exists w1 w2,
    reset fuel a w = Done w1 /\
    raw_alloc fuel sz a w1 = Done (data r, a, w2) /\
    os w2 = os w /\
    regions w2 !! p = Some (set_off r (align_to sz sizeof_ptr)).
Proof.
  intros Hl (Hoff & Hdata & Htop) Hroom Hsz0 Hsz1 Hfuel.
  destruct (align_to_8 sz Hsz0 Hsz1) as [Ha8 Hasz].
  destruct (reset_loop_spec _ fuel (head a) w Hl Hfuel) as (w1 & Hrun & Hos & Hl1 & _).
  exists w1. eexists. split; [exact Hrun |].
  cbn [fmap list_fmap prod_map id fst snd] in Hl1.
  assert (head a = p) by (inversion Hl; reflexivity).
  inversion Hl1 as [| ? ? ? Hp Hr1 _]; subst.
  destruct fuel as [| fuel]; [cbn in Hfuel; lia |].
  rewrite (raw_alloc_first_fit fuel sz a w1 (set_off r 0) Hp Hr1).
  - cbn [set_off data off size next]. rewrite Z.add_0_r, Z.add_0_l.
    rewrite !u64_small by lia.
    split; [reflexivity |]. split; [exact Hos |].
    cbn [regions]. apply lookup_insert_eq.
  - cbn [set_off size off]. rewrite Z.sub_0_r, u64_small by lia. exact Hroom.
Qed.




(** A request of aligned size 0 on an arena with no region stops the
    program: the region to map has 0 bytes, the mapping fails, and the
    assertion of [_init_region] fires, after the metadata page has been
    mapped. *)
Theorem raw_alloc_zero_on_new_arena_traps (fuel : nat) (sz : Z) (a : t) (w : world) :
  head a = 0 -> region_pool a = 0 ->
  sz = 0 \/ 2 ^ 64 - 8 < sz < 2 ^ 64 ->
  os_brk (os w) <> 0 -> 0 < os_map (os w) ->
  os_map (os w) + 4096 <= USER_TOP ->
  raw_alloc (S fuel) sz a w = Trap.
Proof.
  intros Hhead Hpool Hsz Hbrk Hmap Htop.
  assert (Hasz : align_to sz sizeof_ptr = 0).
  { destruct Hsz as [-> | Hsz]; [vm_compute; reflexivity |].
    change sizeof_ptr with (2 ^ 3). apply align_to_wrap; [lia |].
    change (2 ^ 3) with 8. exact Hsz. }
  unfold raw_alloc. rewrite Hasz, Hhead. cbn [raw_alloc_scan Z.eqb obind].
  replace (align_to 0 COMT_PAGE_SIZE) with 0 by (vm_compute; reflexivity).
  unfold alloc_region.
  replace (align_to 0 COMT_PAGE_SIZE) with 0 by (vm_compute; reflexivity).
  rewrite Hpool. cbn [alloc_region_loop Z.eqb obind].
  unfold COMT_ALLOC_SMOL.
  destruct (Z.eqb_spec (os_brk (os w)) 0) as [E | _]; [contradiction |].
  unfold COMT_ALLOC_PAGE at 1.
  replace (align_to COMT_PAGE_SIZE COMT_PAGE_SIZE) with 4096 by (vm_compute; reflexivity).
  replace (COMT_PAGE_SIZE =? 0) with false by reflexivity.
  cbn [orb os_map os_brk os_trace].
  destruct (Z.ltb_spec USER_TOP (os_map (os w) + 4096)) as [L | _]; [lia |].
  unfold load at 1. cbn [regions].
  destruct (Z.eqb_spec (os_brk (os w)) 0) as [E | _]; [contradiction |].
  rewrite lookup_insert_eq. cbn [deref obind data].
  unfold _init_region.
  destruct (Z.eqb_spec (os_map (os w)) 0) as [E | _]; [lia |].
  destruct (Z.eqb_spec (os_map (os w)) MAP_FAILED) as [E | _];
    [unfold MAP_FAILED, USER_TOP in *; lia |].
  cbn [orb os]. unfold COMT_ALLOC_PAGE. cbn [Z.eqb orb].
  reflexivity.
Qed.

Lemma fragmented_checked : fragmented_check.
Proof. vm_compute. repeat split; reflexivity. Qed.

Lemma fragmented_linked :
  linked fragmented_world (head fragmented_arena) fragmented_chain.
Proof.
  apply linked_cons; [vm_compute; discriminate | vm_compute; reflexivity |].
  apply linked_cons; [vm_compute; discriminate | vm_compute; reflexivity |].
  apply linked_nil.
Qed.

Lemma fragmented_in_bounds : Forall (fun x => in_bounds x.2) fragmented_chain.
Proof. repeat constructor; cbn; lia. Qed.

Lemma avail_is_sum_of_free_bytes_witness :
  (Forall (fun x => off x.2 <= size x.2) fragmented_chain ->
   avail 5 fragmented_arena fragmented_world = Done (u64 (free_bytes fragmented_chain))) /\
  (forall l1 q r l2,
     fragmented_chain = l1 ++ (q, r) :: l2 ->
     Forall (fun x => off x.2 <= size x.2) l1 -> size r < off r ->
     avail 5 fragmented_arena fragmented_world = Trap).
Proof.
  apply (avail_is_sum_of_free_bytes 5 fragmented_arena fragmented_world fragmented_chain).
  - exact fragmented_linked.
  - simpl. lia.
Defined.

Lemma reset_rewinds_every_region_witness :
  exists w',
    reset 5 fragmented_arena fragmented_world = Done w' /\ os w' = os fragmented_world /\
    linked w' (head fragmented_arena)
      (prod_map id (fun r => set_off r 0) <$> fragmented_chain) /\
    (forall q, q ∉ fragmented_chain.*1 ->
       regions w' !! q = regions fragmented_world !! q) /\
    (Forall (fun x => 0 <= size x.2 < 2 ^ 64) fragmented_chain ->
     avail 5 fragmented_arena w'
     = Done (u64 (foldr (fun x acc => size x.2 + acc) 0 fragmented_chain))).
Proof.
  apply (reset_rewinds_every_region 5 fragmented_arena fragmented_world fragmented_chain).
  - exact fragmented_linked.
  - simpl. lia.
Defined.

Lemma raw_alloc_takes_first_region_with_room_witness :
  let q := 2 ^ 32 in
  let r := mkRegion 0 (2 ^ 32 + 4096) 8192 5000 in
  let l1 := [(2 ^ 32 + 32, mkRegion (2 ^ 32) (2 ^ 32 + 12288) 4096 4096)] in
  let asz := align_to 1000 sizeof_ptr in
  let r' := set_off r (off r + asz) in
  let w' := mkWorld (<[q := r']> (regions fragmented_world)) (os fragmented_world) in
  raw_alloc 5 1000 fragmented_arena fragmented_world
  = Done (data r + off r, fragmented_arena, w') /\
  linked w' (head fragmented_arena) (l1 ++ (q, r') :: []) /\
  in_bounds r' /\
  data r + off r + 1000 <= data r + size r /\
  avail 5 fragmented_arena fragmented_world = Done (free_bytes (l1 ++ (q, r) :: [])) /\
  avail 5 fragmented_arena w' = Done (free_bytes (l1 ++ (q, r) :: []) - asz).
Proof.
  intros q r l1.
  apply (raw_alloc_takes_first_region_with_room 5 1000 fragmented_arena fragmented_world
           l1 [] q r).
  - exact fragmented_linked.
  - exact fragmented_in_bounds.
  - vm_compute. reflexivity.
  - constructor; [vm_compute; reflexivity | constructor].
  - vm_compute. discriminate.
  - lia.
  - lia.
  - simpl. lia.
Defined.

Lemma reset_then_alloc_reuses_front_page_witness :
  exists w1 w2,
    reset 5 fragmented_arena fragmented_world = Done w1 /\
    raw_alloc 5 1000 fragmented_arena w1
    = Done (data (mkRegion (2 ^ 32) (2 ^ 32 + 12288) 4096 4096), fragmented_arena, w2) /\
    os w2 = os fragmented_world /\
    regions w2 !! (2 ^ 32 + 32)
    = Some (set_off (mkRegion (2 ^ 32) (2 ^ 32 + 12288) 4096 4096)
              (align_to 1000 sizeof_ptr)).
Proof.
  apply (reset_then_alloc_reuses_front_page 5 1000 fragmented_arena fragmented_world
           (2 ^ 32 + 32) (mkRegion (2 ^ 32) (2 ^ 32 + 12288) 4096 4096)
           [(2 ^ 32, mkRegion 0 (2 ^ 32 + 4096) 8192 5000)]).
  - exact fragmented_linked.
  - unfold in_bounds. cbn. lia.
  - vm_compute. discriminate.
  - lia.
  - lia.
  - simpl. lia.
Defined.



Lemma raw_alloc_zero_on_new_arena_traps_witness :
  raw_alloc 1 0 empty fresh = Trap.
Proof.
  apply (raw_alloc_zero_on_new_arena_traps 0 0 empty fresh).
  - reflexivity.
  - reflexivity.
  - left. reflexivity.
  - vm_compute. discriminate.
  - vm_compute. reflexivity.
  - vm_compute. discriminate.
Defined.

End ArenaMore.

(** ** List<T> *)

Section ArraysMore.
Context {T : Type}.
Implicit Types (l : list T) (x : T).

Lemma cell_nat l (i : nat) : cell l (Z.of_nat i) = deref (l !! i).
Proof.
  unfold cell. destruct (Z.ltb_spec (Z.of_nat i) 0); [lia |].
  rewrite Nat2Z.id. reflexivity.
Qed.

Lemma store_nat l (i : nat) x :
  (i < length l)%nat -> store l (Z.of_nat i) x = Done (<[i := x]> l).
Proof.
  intros Hi. rewrite store_in_range by lia. rewrite Nat2Z.id. reflexivity.
Qed.

Lemma store_out_of_range l i x : Z.of_nat (length l) <= i -> store l i x = Fault.
Proof.
  intros Hi. unfold store.
  destruct (Z.ltb_spec i (Z.of_nat (length l))); [lia |].
  rewrite andb_false_r. reflexivity.
Qed.

Lemma take_snoc_insert l (i : nat) x :
  (i < length l)%nat -> take (S i) (<[i := x]> l) = take i l ++ [x].
Proof.
  intros Hi. rewrite (take_S_r _ _ x) by (apply list_lookup_insert_eq; exact Hi).
  rewrite take_insert_ge by lia. reflexivity.
Qed.

End ArraysMore.

Section ListFacts.
Context {T : Type} `{EqDecision T}.
Context {A : Type} `{Allocator A T, Deallocator A T}.
Import List_.
Implicit Types (l other : List_.t T) (x : T) (a : A).

Local Abbreviation Sound := (sound (T:=T) (A:=A)).

Lemma list_grow_factor_value c :
  0 <= c -> 3 * (c + 1) < 2 ^ 64 -> COMT_LIST_GROW_FACTOR c = 3 * (c + 1) / 2.
Proof.
  intros Hc Hb. unfold COMT_LIST_GROW_FACTOR.
  rewrite (u64_small (c + 1)) by lia. rewrite u64_small by lia.
  rewrite Z.shiftr_div_pow2 by lia. change (2 ^ 1) with 2. f_equal. lia.
Qed.

Lemma resize_spec (ptr : list T) old new a :
  Sound -> Z.of_nat (length ptr) = old -> old <= new ->
  exists tail,
    resize ptr old new a
    = Done (ptr ++ tail, Allocator_dealloc ptr old (Allocator_alloc (T:=T) new a).2) /\
    Z.of_nat (length (ptr ++ tail)) = new.
Proof.
  intros Hsound Hold Hnew. unfold resize.
  pose proof (Hsound new a) as Hlen.
  destruct (Allocator_alloc (T:=T) new a) as [np a1]. cbn [fst snd] in *.
  exists (drop (Z.to_nat old) np). unfold memcpy.
  destruct (Z.leb_spec old (Z.of_nat (length ptr))) as [_ | G]; [| lia].
  destruct (Z.leb_spec old (Z.of_nat (length np))) as [_ | G]; [| lia].
  cbn [andb obind]. rewrite take_ge by lia.
  split; [reflexivity |]. rewrite length_app, length_drop. lia.
Qed.

Lemma push_spec l x a :
  Sound -> wf l -> (count l = capacity l -> 3 * (capacity l + 1) < 2 ^ 64) ->
  exists l' a',
    push l x a = Done (l', a') /\ wf l' /\
    elems l' = elems l ++ [x] /\ count l' = count l + 1 /\
    (count l < capacity l -> capacity l' = capacity l /\ a' = a) /\
    (count l = capacity l -> capacity l' = 3 * (capacity l + 1) / 2).
Proof.
  intros Hsound (Hcount & Hlen & Hcap) Hgrow. unfold push.
  destruct (Z.leb_spec (capacity l) (count l)) as [Hfull | Hroom].
  - assert (Heq : count l = capacity l) by lia. specialize (Hgrow Heq).
    rewrite list_grow_factor_value by lia.
    assert (Hnew : capacity l + 1 <= 3 * (capacity l + 1) / 2).
    { apply Z.div_le_lower_bound; lia. }
    assert (Hnew64 : 3 * (capacity l + 1) / 2 < 2 ^ 64).
    { apply Z.div_lt_upper_bound; lia. }
    destruct (resize_spec (items l) (capacity l) (3 * (capacity l + 1) / 2) a
                Hsound Hlen ltac:(lia)) as (tail & -> & Hlen').
    cbn [obind items count capacity].
    rewrite store_in_range by lia. cbn [obind].
    eexists _, _. split; [reflexivity |].
    split.
    { unfold wf. cbn [items count capacity]. rewrite length_insert.
      rewrite u64_small by lia. lia. }
    split.
    { unfold elems. cbn [items count]. rewrite u64_small by lia.
      replace (Z.to_nat (count l + 1)) with (S (Z.to_nat (count l))) by lia.
      rewrite take_snoc_insert by lia.
      rewrite take_app_le by lia. reflexivity. }
    cbn [count capacity]. rewrite u64_small by lia.
    split; [reflexivity |]. split; [lia | reflexivity].
  - cbn [obind]. rewrite store_in_range by lia. cbn [obind].
    eexists _, _. split; [reflexivity |].
    split.
    { unfold wf. cbn [items count capacity]. rewrite length_insert.
      rewrite u64_small by lia. lia. }
    split.
    { unfold elems. cbn [items count]. rewrite u64_small by lia.
      replace (Z.to_nat (count l + 1)) with (S (Z.to_nat (count l))) by lia.
      rewrite take_snoc_insert by lia. reflexivity. }
    cbn [count capacity]. rewrite u64_small by lia.
    split; [reflexivity |]. split; [intros _; split; reflexivity | lia].
Qed.

Lemma push_all_spec (c0 : Z) xs :
  forall l a,
  Sound -> wf l ->
  capacity l <= Z.max c0 (3 * count l / 2) ->
  3 * (count l + Z.of_nat (length xs) + 1) < 2 ^ 64 ->
  exists l' a',
    push_all xs l a = Done (l', a') /\ wf l' /\
    elems l' = elems l ++ xs /\
    count l' = count l + Z.of_nat (length xs) /\
    capacity l <= capacity l' <= Z.max c0 (3 * count l' / 2) `max` capacity l.
Proof.
  induction xs as [| x xs IH]; intros l a Hsound Hwf Hcap Hlen.
  - exists l, a. cbn [push_all length]. rewrite app_nil_r.
    split; [reflexivity |]. split; [exact Hwf |]. split; [reflexivity |].
    split; [lia | lia].
  - cbn [length] in Hlen. pose proof Hwf as (Hcount & _ & _).
    destruct (push_spec l x a Hsound Hwf) as (l1 & a1 & Hpush & Hwf1 & He1 & Hc1 & Hkeep & Hgrow).
    { intros Heq. lia. }
    assert (Hmono : 3 * count l / 2 <= 3 * count l1 / 2).
    { apply Z.div_le_mono; lia. }
    assert (Hcap1 : capacity l <= capacity l1 <= Z.max c0 (3 * count l1 / 2)).
    { destruct (Z.eq_dec (count l) (capacity l)) as [Heq | Hne].
      - rewrite (Hgrow Heq). rewrite Hc1, Heq.
        split; [apply Z.div_le_lower_bound; lia | lia].
      - destruct Hkeep as [-> _]; lia. }
    destruct (IH l1 a1 Hsound Hwf1) as (l' & a' & Hrun & Hwf' & He' & Hc' & Hcap').
    { lia. }
    { lia. }
    exists l', a'. cbn [push_all]. rewrite Hpush. cbn [obind].
    split; [exact Hrun |]. split; [exact Hwf' |].
    split; [rewrite He', He1, <- app_assoc; reflexivity |].
    split; [cbn [length]; lia |].
    assert (Hmono' : 3 * count l1 / 2 <= 3 * count l' / 2).
    { apply Z.div_le_mono; lia. }
    lia.
Qed.

(** A list built by [push] calls reads back what was pushed, in order:
    [count] is the number of calls, [operator []] gives the i-th
    element for every index below [count] and stops the program at
    [count] and beyond, also where the array has cells left.  The
    capacity never falls below the one asked for and stays within one
    and a half times the number of elements. *)
Theorem pushed_elements_read_back (cap : Z) (xs : list T) (a : A) :
  Sound -> 0 <= cap < 2 ^ 64 -> 3 * (Z.of_nat (length xs) + 1) < 2 ^ 64 ->
  exists l a',
    push_all xs (alloc a cap).1 (alloc a cap).2 = Done (l, a') /\
    count l = Z.of_nat (length xs) /\
    elems l = xs /\
    (forall i x, xs !! i = Some x -> subscript l (Z.of_nat i) = Done x) /\
    (forall i, Z.of_nat (length xs) <= i -> subscript l i = Trap) /\
    cap <= capacity l <= Z.max cap (3 * Z.of_nat (length xs) / 2).
Proof.
  intros Hsound Hcap Hlen.
  assert (Hwf0 : wf (alloc a cap).1 /\ count (alloc a cap).1 = 0 /\
                 capacity (alloc a cap).1 = cap).
  { unfold alloc. pose proof (Hsound cap a) as Hl.
    destruct (Allocator_alloc (T:=T) cap a) as [its a0]. cbn [fst snd] in *.
    unfold wf. cbn [items count capacity]. lia. }
  destruct Hwf0 as (Hwf0 & Hc0 & Hcap0).
  destruct (push_all_spec cap xs (alloc a cap).1 (alloc a cap).2 Hsound Hwf0)
    as (l & a' & Hrun & Hwf & He & Hc & Hbound).
  { rewrite Hcap0. lia. }
  { rewrite Hc0. lia. }
  rewrite Hc0, Z.add_0_l in Hc. rewrite Hcap0 in Hbound.
  assert (He0 : elems (alloc a cap).1 = []).
  { unfold elems. rewrite Hc0. reflexivity. }
  rewrite He0 in He. cbn [app] in He.
  exists l, a'. split; [exact Hrun |]. split; [lia |]. split; [exact He |].
  split; [| split].
  - intros i x Hx. pose proof (lookup_lt_Some _ _ _ Hx) as Hi.
    unfold subscript. destruct (Z.ltb_spec (Z.of_nat i) (count l)); [| lia].
    rewrite cell_nat. rewrite <- He in Hx. unfold elems in Hx.
    rewrite lookup_take_lt in Hx by lia. rewrite Hx. reflexivity.
  - intros i Hi. unfold subscript.
    destruct (Z.ltb_spec i (count l)); [lia | reflexivity].
  - rewrite Hc in Hbound. lia.
Qed.

Lemma remove_at_loop_spec n :
  forall (its : list T) (i : nat),
  (i + n < length its)%nat ->
  remove_at_loop n its (Z.of_nat i)
  = Done (take i its ++ take n (drop (S i) its) ++ drop (i + n) its).
Proof.
  induction n as [| n IH]; intros its i Hi.
  - cbn [remove_at_loop]. rewrite Nat.add_0_r, take_0. cbn [app].
    rewrite take_drop. reflexivity.
  - cbn [remove_at_loop].
    destruct (lookup_lt_is_Some_2 its (S i)) as [x Hx]; [lia |].
    replace (Z.of_nat i + 1) with (Z.of_nat (S i)) by lia.
    rewrite cell_nat, Hx. cbn [deref obind].
    rewrite store_nat by lia. cbn [obind].
    rewrite IH by (rewrite length_insert; lia).
    f_equal.
    rewrite take_snoc_insert by lia.
    rewrite !drop_insert_lt by lia.
    rewrite (drop_S its x (S i) Hx). cbn [take].
    rewrite <- app_assoc. cbn [app].
    replace (S i + n)%nat with (i + S n)%nat by lia. reflexivity.
Qed.

(** [remove_at(idx)] takes out the element at [idx] and keeps the order
    of the others; the capacity stays.  An index at or beyond [count]
    stops the program. *)
Theorem remove_at_deletes (l : List_.t T) (idx : Z) :
  wf l -> 0 <= idx ->
  (idx < count l ->
   exists l',
     remove_at l idx = Done l' /\
     elems l' = delete (Z.to_nat idx) (elems l) /\
     count l' = count l - 1 /\ capacity l' = capacity l /\ wf l') /\
  (count l <= idx -> remove_at l idx = Trap).
Proof.
  intros (Hcount & Hlen & Hcap) Hidx. split.
  - intros Hlt. unfold remove_at.
    destruct (Z.ltb_spec idx (count l)) as [_ | G]; [| lia].
    rewrite (u64_small (count l - 1)) by lia.
    replace (remove_at_loop (Z.to_nat (count l - 1 - idx)) (items l) idx)
      with (remove_at_loop (Z.to_nat (count l - 1 - idx)) (items l)
              (Z.of_nat (Z.to_nat idx)))
      by (rewrite Z2Nat.id by lia; reflexivity).
    rewrite remove_at_loop_spec by lia. cbn [obind].
    eexists. split; [reflexivity |].
    split; [| split; [reflexivity | split; [reflexivity |]]].
    + unfold elems. cbn [items count].
      set (i := Z.to_nat idx). set (n := Z.to_nat (count l - 1 - idx)).
      assert (Hc : Z.to_nat (count l) = S (i + n)) by lia.
      assert (Hc1 : Z.to_nat (count l - 1) = (i + n)%nat) by lia.
      rewrite Hc, Hc1.
      rewrite app_assoc.
      rewrite take_app_length'.
      2: { rewrite length_app, !length_take, length_drop. lia. }
      rewrite delete_take_drop. rewrite take_take.
      replace (i `min` S (i + n))%nat with i by lia.
      f_equal. rewrite take_drop_commute. f_equal.
    + unfold wf. cbn [items count capacity].
      rewrite !length_app, !length_take, !length_drop. lia.
  - intros Hge. unfold remove_at.
    destruct (Z.ltb_spec idx (count l)); [lia | reflexivity].
Qed.

Lemma find_index_loop_spec (pred : T -> bool) n :
  forall (its : list T) (i : nat),
  (i + n <= length its)%nat ->
  exists r,
    find_index_loop n its (Z.of_nat i) pred = Done r /\
    ((r = 2 ^ 64 - 1 /\
      forall j y, (i <= j < i + n)%nat -> its !! j = Some y -> pred y = false) \/
     (exists k y,
        r = Z.of_nat k /\ (i <= k < i + n)%nat /\ its !! k = Some y /\ pred y = true /\
        forall j z, (i <= j < k)%nat -> its !! j = Some z -> pred z = false)).
Proof.
  induction n as [| n IH]; intros its i Hi.
  - exists (2 ^ 64 - 1). split; [reflexivity |]. left. split; [reflexivity |].
    intros j y Hj. lia.
  - cbn [find_index_loop].
    destruct (lookup_lt_is_Some_2 its i) as [x Hx]; [lia |].
    rewrite cell_nat, Hx. cbn [deref obind].
    destruct (pred x) eqn:Hp.
    + exists (Z.of_nat i). split; [reflexivity |]. right.
      exists i, x. split; [reflexivity |]. split; [lia |]. split; [exact Hx |].
      split; [exact Hp |]. intros j z Hj. lia.
    + replace (Z.of_nat i + 1) with (Z.of_nat (S i)) by lia.
      destruct (IH its (S i)) as (r & Hrun & Hr); [lia |].
      exists r. split; [exact Hrun |].
      destruct Hr as [[-> Hall] | (k & y & -> & Hk & Hy & Hpy & Hbefore)].
      * left. split; [reflexivity |]. intros j y Hj Hy.
        destruct (Nat.eq_dec j i) as [-> | Hne]; [congruence |].
        apply (Hall j y); [lia | exact Hy].
      * right. exists k, y. split; [reflexivity |]. split; [lia |].
        split; [exact Hy |]. split; [exact Hpy |]. intros j z Hj Hz.
        destruct (Nat.eq_dec j i) as [-> | Hne]; [congruence |].
        apply (Hbefore j z); [lia | exact Hz].
Qed.

(** [find_index(elem)] returns the index of the first element equal to
    [elem], and [(size_t)-1] exactly when there is none; no index of
    the list is [(size_t)-1], so the two cases cannot be confused. *)
Theorem find_index_finds_first (l : List_.t T) (x : T) :
  wf l ->
  exists r,
    find_index l x = Done r /\
    (x ∉ elems l -> r = 2 ^ 64 - 1) /\
    (x ∈ elems l ->
       0 <= r < count l /\ r <> 2 ^ 64 - 1 /\
       elems l !! Z.to_nat r = Some x /\
       forall j, (j < Z.to_nat r)%nat -> elems l !! j <> Some x).
Proof.
  intros (Hcount & Hlen & Hcap). unfold find_index.
  destruct (find_index_loop_spec (fun y => bool_decide (y = x)) (Z.to_nat (count l))
              (items l) 0) as (r & Hrun & Hr); [lia |].
  change (Z.of_nat 0) with 0 in Hrun.
  exists r. split; [exact Hrun |].
  destruct Hr as [[-> Hall] | (k & y & -> & Hk & Hy & Hpy & Hbefore)].
  - split; [reflexivity |]. intros Hin. exfalso.
    apply list_elem_of_lookup in Hin as [j Hj]. unfold elems in Hj.
    apply lookup_take_Some in Hj as [Hj Hlt].
    specialize (Hall j x ltac:(lia) Hj).
    apply bool_decide_eq_false in Hall. contradiction.
  - apply bool_decide_eq_true in Hpy. subst y.
    assert (Hin : elems l !! k = Some x).
    { unfold elems. rewrite lookup_take_lt by lia. exact Hy. }
    split.
    + intros Hnot. exfalso. apply Hnot. apply list_elem_of_lookup. exists k. exact Hin.
    + intros _. rewrite Nat2Z.id.
      split; [lia |]. split; [lia |]. split; [exact Hin |].
      intros j Hj Hjx. unfold elems in Hjx.
      apply lookup_take_Some in Hjx as [Hjx _].
      specialize (Hbefore j x ltac:(lia) Hjx).
      apply bool_decide_eq_false in Hbefore. contradiction.
Qed.

Lemma push_each_spec n :
  forall (src : list T) (i : nat) (res : List_.t T) a,
  Sound -> wf res ->
  (i + n <= length src)%nat ->
  count res + Z.of_nat n <= capacity res ->
  exists res',
    push_each n src (Z.of_nat i) res a = Done (res', a) /\ wf res' /\
    elems res' = elems res ++ take n (drop i src) /\
    count res' = count res + Z.of_nat n /\
    capacity res' = capacity res.
Proof.
  induction n as [| n IH]; intros src i res a Hsound Hwf Hi Hroom.
  - exists res. cbn [push_each take]. rewrite app_nil_r.
    split; [reflexivity |]. split; [exact Hwf |]. split; [reflexivity |].
    split; [lia | reflexivity].
  - cbn [push_each].
    destruct (lookup_lt_is_Some_2 src i) as [x Hx]; [lia |].
    rewrite cell_nat, Hx. cbn [deref obind].
    destruct (push_spec res x a Hsound Hwf) as (r1 & a1 & Hpush & Hwf1 & He1 & Hc1 & Hkeep & _).
    { intros Heq. lia. }
    destruct Hkeep as [Hcap1 ->]; [lia |].
    rewrite Hpush. cbn [obind].
    replace (Z.of_nat i + 1) with (Z.of_nat (S i)) by lia.
    destruct (IH src (S i) r1 a Hsound Hwf1) as (res' & Hrun & Hwf' & He' & Hc' & Hcap');
      [lia | lia |].
    exists res'. split; [exact Hrun |]. split; [exact Hwf' |].
    split.
    + rewrite He', He1, <- app_assoc. f_equal.
      rewrite (drop_S src x i Hx). reflexivity.
    + split; [lia | congruence].
Qed.

(** [copy(start, end)] gives a list of exactly [end - start] cells
    holding the cells [start .. end - 1] of the source array, with one
    request to the allocator and no regrowth.  [end] is compared with
    [start] only: up to [count] the cells are elements of the list;
    between [count] and [capacity] they are cells that were never
    pushed, and they are copied as well. *)
Theorem copy_takes_cells_up_to_capacity (l : List_.t T) (start end_ : Z) (a : A) :
  Sound -> wf l -> 0 <= start -> end_ < 2 ^ 64 ->
  (end_ < start -> copy l start end_ a = Trap) /\
  (start <= end_ <= capacity l ->
   exists res,
     copy l start end_ a = Done (res, (Allocator_alloc (T:=T) (end_ - start) a).2) /\
     wf res /\ capacity res = end_ - start /\ count res = end_ - start /\
     elems res = take (Z.to_nat (end_ - start)) (drop (Z.to_nat start) (items l)) /\
     (end_ <= count l ->
      elems res = take (Z.to_nat (end_ - start)) (drop (Z.to_nat start) (elems l)))).
Proof.
  intros Hsound (Hcount & Hlen & Hcap) Hstart Hend. split.
  - intros Hlt. unfold copy. destruct (Z.leb_spec start end_); [lia | reflexivity].
  - intros Hrange. unfold copy.
    destruct (Z.leb_spec start end_) as [_ | G]; [| lia].
    rewrite u64_small by lia. unfold alloc.
    pose proof (Hsound (end_ - start) a) as Hl.
    destruct (Allocator_alloc (T:=T) (end_ - start) a) as [its a0]. cbn [fst snd] in *.
    replace (push_each (Z.to_nat (end_ - start)) (items l) start (mk its 0 (end_ - start)) a0)
      with (push_each (Z.to_nat (end_ - start)) (items l) (Z.of_nat (Z.to_nat start))
              (mk its 0 (end_ - start)) a0)
      by (rewrite Z2Nat.id by lia; reflexivity).
    destruct (push_each_spec (Z.to_nat (end_ - start)) (items l) (Z.to_nat start)
                (mk its 0 (end_ - start)) a0 Hsound) as (res & Hrun & Hwf & He & Hc & Hcp).
    { unfold wf. cbn [items count capacity]. lia. }
    { lia. }
    { cbn [count capacity]. lia. }
    cbn [count capacity] in Hc, Hcp. unfold elems at 2 in He. cbn [count items] in He.
    change (Z.to_nat 0) with 0%nat in He. rewrite take_0 in He. cbn [app] in He.
    exists res. split; [exact Hrun |]. split; [exact Hwf |].
    split; [exact Hcp |]. split; [lia |]. split; [exact He |].
    intros Hin. rewrite He. unfold elems.
    rewrite (take_drop_commute (take _ _)), take_take.
    replace ((Z.to_nat start + Z.to_nat (end_ - start)) `min` Z.to_nat (count l))%nat
      with (Z.to_nat start + Z.to_nat (end_ - start))%nat by lia.
    rewrite take_drop_commute. reflexivity.
Qed.

Lemma reserve_spec (l : List_.t T) new_cap a :
  Sound -> wf l -> 0 <= new_cap < 2 ^ 64 ->
  exists l' a',
    reserve l new_cap a = Done (l', a') /\ wf l' /\
    elems l' = elems l /\ count l' = count l /\
    capacity l' = Z.max (capacity l) new_cap /\
    (new_cap <= capacity l -> l' = l /\ a' = a).
Proof.
  intros Hsound (Hcount & Hlen & Hcap) Hnew. unfold reserve.
  destruct (Z.leb_spec new_cap (capacity l)) as [Hle | Hgt].
  - exists l, a. split; [reflexivity |]. split; [unfold wf; lia |].
    split; [reflexivity |]. split; [reflexivity |]. split; [lia |].
    intros _. split; reflexivity.
  - destruct (resize_spec (items l) (capacity l) new_cap a Hsound Hlen ltac:(lia))
      as (tail & -> & Hlen').
    cbn [obind]. eexists _, _. split; [reflexivity |].
    split; [unfold wf; cbn [items count capacity]; lia |].
    split; [unfold elems; cbn [items count]; rewrite take_app_le by lia; reflexivity |].
    split; [reflexivity |]. split; [cbn [capacity]; lia | lia].
Qed.

(** [extend(other)] appends the elements of [other] in order.  The
    capacity becomes the sum of the two capacities, by one resize before
    the first element is copied (whether or not there was room), and
    the pushes that follow never regrow. *)
Theorem extend_appends (l other : List_.t T) (a : A) :
  Sound -> wf l -> wf other -> capacity l + capacity other < 2 ^ 64 ->
  exists l' a',
    extend l other a = Done (l', a') /\ wf l' /\
    elems l' = elems l ++ elems other /\
    count l' = count l + count other /\
    capacity l' = capacity l + capacity other /\
    (0 < capacity other ->
     a' = Allocator_dealloc (items l) (capacity l)
            (Allocator_alloc (T:=T) (capacity l + capacity other) a).2).
Proof.
  intros Hsound Hwf Hwfo Hsum.
  pose proof Hwf as (Hcount & Hlen & Hcap).
  pose proof Hwfo as (Hcounto & Hleno & Hcapo).
  unfold extend. rewrite u64_small by lia.
  destruct (reserve_spec l (capacity l + capacity other) a Hsound Hwf ltac:(lia))
    as (l1 & a1 & Hres & Hwf1 & He1 & Hc1 & Hcap1 & _).
  assert (Ha1 : 0 < capacity other ->
          a1 = Allocator_dealloc (items l) (capacity l)
                 (Allocator_alloc (T:=T) (capacity l + capacity other) a).2).
  { intros Hpos. revert Hres. unfold reserve.
    destruct (Z.leb_spec (capacity l + capacity other) (capacity l)) as [Hle | _]; [lia |].
    destruct (resize_spec (items l) (capacity l) (capacity l + capacity other) a
                Hsound Hlen ltac:(lia)) as (tail & -> & _).
    cbn [obind]. intros [= _ <-]. reflexivity. }
  rewrite Hres. cbn [obind]. change 0 with (Z.of_nat 0).
  destruct (push_each_spec (Z.to_nat (count other)) (items other) 0 l1 a1 Hsound Hwf1)
    as (l' & Hrun & Hwf' & He' & Hc' & Hcap').
  { lia. }
  { lia. }
  exists l', a1. split; [exact Hrun |]. split; [exact Hwf' |].
  split; [rewrite He', He1, drop_0; reflexivity |].
  split; [lia |]. split; [lia | exact Ha1].
Qed.

(** A slice reads the cells of the list's array through: [s[i]] is cell
    [start + i], for [i] below [end - start].  Only [end >= start] is
    checked: a slice may reach past [count], into cells that were never
    pushed, and reading through it past the array is a read outside
    the allocation. *)
Theorem slice_reads_through (l : List_.t T) (start end_ : Z) :
  wf l -> 0 <= start -> end_ < 2 ^ 64 ->
  (end_ < start -> slice l start end_ = Trap) /\
  (start <= end_ ->
   exists s,
     slice l start end_ = Done s /\ Slice.count s = end_ - start /\
     (forall i, 0 <= i < end_ - start ->
        Slice.subscript s i = cell (items l) (start + i)) /\
     (forall i, end_ - start <= i -> Slice.subscript s i = Trap) /\
     (forall i, 0 <= i < end_ - start -> start + i < count l ->
        Slice.subscript s i = subscript l (start + i)) /\
     (forall i, 0 <= i < end_ - start -> capacity l <= start + i ->
        Slice.subscript s i = Fault)).
Proof.
  intros (Hcount & Hlen & Hcap) Hstart Hend. split.
  - intros Hlt. unfold slice. destruct (Z.leb_spec start end_); [lia | reflexivity].
  - intros Hle. unfold slice. destruct (Z.leb_spec start end_) as [_ | G]; [| lia].
    eexists. split; [reflexivity |]. cbn [Slice.count Slice.items].
    rewrite u64_small by lia. split; [reflexivity |].
    assert (Hread : forall i, 0 <= i < end_ - start ->
              Slice.subscript (Slice.mk (drop (Z.to_nat start) (items l)) (end_ - start)) i
              = cell (items l) (start + i)).
    { intros i Hi. unfold Slice.subscript. cbn [Slice.count Slice.items].
      destruct (Z.ltb_spec i (end_ - start)) as [_ | G]; [| lia].
      unfold cell. destruct (Z.ltb_spec i 0); [lia |].
      destruct (Z.ltb_spec (start + i) 0); [lia |].
      rewrite lookup_drop. f_equal. f_equal. lia. }
    split; [exact Hread |]. split; [| split].
    + intros i Hi. unfold Slice.subscript. cbn [Slice.count].
      destruct (Z.ltb_spec i (end_ - start)); [lia | reflexivity].
    + intros i Hi Hin. rewrite (Hread i Hi). unfold subscript.
      destruct (Z.ltb_spec (start + i) (count l)); [reflexivity | lia].
    + intros i Hi Hout. rewrite (Hread i Hi). apply cell_out_of_range. lia.
Qed.

End ListFacts.

Lemma ZeroPages_sound : List_.sound (T:=Z) (A:=ZeroPages).
Proof. intros n a. cbn. apply length_replicate. Qed.

Lemma pushed_elements_read_back_witness :
  exists l a',
    List_.push_all [10; 20; 30] (List_.alloc (mkZeroPages []) 0).1
      (List_.alloc (mkZeroPages []) 0).2 = Done (l, a') /\
    List_.count l = Z.of_nat (length [10; 20; 30]) /\
    List_.elems l = [10; 20; 30] /\
    (forall i x, [10; 20; 30] !! i = Some x -> List_.subscript l (Z.of_nat i) = Done x) /\
    (forall i, Z.of_nat (length [10; 20; 30]) <= i -> List_.subscript l i = Trap) /\
    0 <= List_.capacity l <= Z.max 0 (3 * Z.of_nat (length [10; 20; 30]) / 2).
Proof.
  apply (pushed_elements_read_back 0 [10; 20; 30] (mkZeroPages []) ZeroPages_sound).
  - lia.
  - simpl. lia.
Defined.

Lemma remove_at_deletes_witness :
  (1 < List_.count (List_.mk [10; 20; 30; 0] 3 4) ->
   exists l',
     List_.remove_at (List_.mk [10; 20; 30; 0] 3 4) 1 = Done l' /\
     List_.elems l' = delete (Z.to_nat 1) (List_.elems (List_.mk [10; 20; 30; 0] 3 4)) /\
     List_.count l' = List_.count (List_.mk [10; 20; 30; 0] 3 4) - 1 /\
     List_.capacity l' = List_.capacity (List_.mk [10; 20; 30; 0] 3 4) /\
     List_.wf l') /\
  (List_.count (List_.mk [10; 20; 30; 0] 3 4) <= 1 ->
   List_.remove_at (List_.mk [10; 20; 30; 0] 3 4) 1 = Trap).
Proof.
  apply (remove_at_deletes (List_.mk [10; 20; 30; 0] 3 4) 1).
  - unfold List_.wf. simpl. lia.
  - lia.
Defined.

Lemma find_index_finds_first_witness :
  exists r,
    List_.find_index (List_.mk [10; 20; 20; 0] 3 4) 20 = Done r /\
    (20 ∉ List_.elems (List_.mk [10; 20; 20; 0] 3 4) -> r = 2 ^ 64 - 1) /\
    (20 ∈ List_.elems (List_.mk [10; 20; 20; 0] 3 4) ->
       0 <= r < List_.count (List_.mk [10; 20; 20; 0] 3 4) /\ r <> 2 ^ 64 - 1 /\
       List_.elems (List_.mk [10; 20; 20; 0] 3 4) !! Z.to_nat r = Some 20 /\
       forall j, (j < Z.to_nat r)%nat ->
         List_.elems (List_.mk [10; 20; 20; 0] 3 4) !! j <> Some 20).
Proof.
  apply (find_index_finds_first (List_.mk [10; 20; 20; 0] 3 4) 20).
  unfold List_.wf. simpl. lia.
Defined.

Lemma copy_takes_cells_up_to_capacity_witness :
  (4 < 1 -> List_.copy (List_.mk [10; 20; 30; 77] 3 4) 1 4 (mkZeroPages []) = Trap) /\
  (1 <= 4 <= List_.capacity (List_.mk [10; 20; 30; 77] 3 4) ->
   exists res,
     List_.copy (List_.mk [10; 20; 30; 77] 3 4) 1 4 (mkZeroPages [])
     = Done (res, (Allocator_alloc (T:=Z) (4 - 1) (mkZeroPages [])).2) /\
     List_.wf res /\ List_.capacity res = 4 - 1 /\ List_.count res = 4 - 1 /\
     List_.elems res
     = take (Z.to_nat (4 - 1))
         (drop (Z.to_nat 1) (List_.items (List_.mk [10; 20; 30; 77] 3 4))) /\
     (4 <= List_.count (List_.mk [10; 20; 30; 77] 3 4) ->
      List_.elems res
      = take (Z.to_nat (4 - 1))
          (drop (Z.to_nat 1) (List_.elems (List_.mk [10; 20; 30; 77] 3 4))))).
Proof.
  apply (copy_takes_cells_up_to_capacity (List_.mk [10; 20; 30; 77] 3 4) 1 4
           (mkZeroPages []) ZeroPages_sound).
  - unfold List_.wf. simpl. lia.
  - lia.
  - lia.
Defined.

Lemma extend_appends_witness :
  exists l' a',
    List_.extend (List_.mk [10; 20; 0] 2 3) (List_.mk [30; 0] 1 2) (mkZeroPages [])
    = Done (l', a') /\
    List_.wf l' /\
    List_.elems l'
    = List_.elems (List_.mk [10; 20; 0] 2 3) ++ List_.elems (List_.mk [30; 0] 1 2) /\
    List_.count l'
    = List_.count (List_.mk [10; 20; 0] 2 3) + List_.count (List_.mk [30; 0] 1 2) /\
    List_.capacity l'
    = List_.capacity (List_.mk [10; 20; 0] 2 3) + List_.capacity (List_.mk [30; 0] 1 2) /\
    (0 < List_.capacity (List_.mk [30; 0] 1 2) ->
     a' = Allocator_dealloc (List_.items (List_.mk [10; 20; 0] 2 3))
            (List_.capacity (List_.mk [10; 20; 0] 2 3))
            (Allocator_alloc (T:=Z)
               (List_.capacity (List_.mk [10; 20; 0] 2 3)
                + List_.capacity (List_.mk [30; 0] 1 2)) (mkZeroPages [])).2).
Proof.
  apply (extend_appends (List_.mk [10; 20; 0] 2 3) (List_.mk [30; 0] 1 2)
           (mkZeroPages []) ZeroPages_sound).
  - unfold List_.wf. simpl. lia.
  - unfold List_.wf. simpl. lia.
  - simpl. lia.
Defined.

Lemma slice_reads_through_witness :
  (4 < 1 -> List_.slice (List_.mk [10; 20; 30; 77] 3 4) 1 4 = Trap) /\
  (1 <= 4 ->
   exists s,
     List_.slice (List_.mk [10; 20; 30; 77] 3 4) 1 4 = Done s /\
     Slice.count s = 4 - 1 /\
     (forall i, 0 <= i < 4 - 1 ->
        Slice.subscript s i = cell (List_.items (List_.mk [10; 20; 30; 77] 3 4)) (1 + i)) /\
     (forall i, 4 - 1 <= i -> Slice.subscript s i = Trap) /\
     (forall i, 0 <= i < 4 - 1 -> 1 + i < List_.count (List_.mk [10; 20; 30; 77] 3 4) ->
        Slice.subscript s i = List_.subscript (List_.mk [10; 20; 30; 77] 3 4) (1 + i)) /\
     (forall i, 0 <= i < 4 - 1 ->
        List_.capacity (List_.mk [10; 20; 30; 77] 3 4) <= 1 + i ->
        Slice.subscript s i = Fault)).
Proof.
  apply (slice_reads_through (List_.mk [10; 20; 30; 77] 3 4) 1 4).
  - unfold List_.wf. simpl. lia.
  - lia.
  - lia.
Defined.

(** ** StringView and String *)

Lemma eq_loop_spec n :
  forall (lhs rhs : list Z) (i : nat),
  (i + n <= length lhs)%nat -> (i + n <= length rhs)%nat ->
  StringView.eq_loop n lhs rhs (Z.of_nat i)
  = Done (bool_decide (take n (drop i lhs) = take n (drop i rhs))).
Proof.
  induction n as [| n IH]; intros lhs rhs i Hl Hr.
  - cbn [StringView.eq_loop]. rewrite !take_0.
    rewrite bool_decide_eq_true_2 by reflexivity. reflexivity.
  - cbn [StringView.eq_loop].
    destruct (lookup_lt_is_Some_2 lhs i) as [x Hx]; [lia |].
    destruct (lookup_lt_is_Some_2 rhs i) as [y Hy]; [lia |].
    rewrite !cell_nat, Hx, Hy. cbn [deref obind].
    rewrite (drop_S lhs x i Hx), (drop_S rhs y i Hy). cbn [take].
    destruct (Z.eqb_spec x y) as [-> | Hne].
    + replace (Z.of_nat i + 1) with (Z.of_nat (S i)) by lia.
      rewrite IH by lia. f_equal. apply bool_decide_ext.
      split; [intros ->; reflexivity | intros [= E]; exact E].
    + rewrite bool_decide_eq_false_2; [reflexivity |].
      intros [= E _]. contradiction.
Qed.

Lemma string_view_eq_spec (lhs rhs : StringView.t) :
  0 <= StringView.count lhs <= Z.of_nat (length (StringView.data lhs)) ->
  0 <= StringView.count rhs <= Z.of_nat (length (StringView.data rhs)) ->
  StringView.eq lhs rhs
  = Done (bool_decide
            (take (Z.to_nat (StringView.count lhs)) (StringView.data lhs)
             = take (Z.to_nat (StringView.count rhs)) (StringView.data rhs))).
Proof.
  intros Hl Hr. unfold StringView.eq.
  destruct (Z.eqb_spec (StringView.count lhs) (StringView.count rhs)) as [E | Hne].
  - change 0 with (Z.of_nat 0). rewrite eq_loop_spec by lia.
    rewrite !drop_0, <- E. reflexivity.
  - rewrite bool_decide_eq_false_2; [reflexivity |].
    intros E. apply (f_equal length) in E. rewrite !length_take in E. lia.
Qed.

(** [operator ==] on string views decides equality of contents: it
    returns true exactly for views of the same length with the same
    characters up to it, and false otherwise; what lies behind the
    length is not looked at, and nothing outside the views is read. *)
Theorem string_view_eq_decides (lhs rhs : StringView.t) :
  0 <= StringView.count lhs <= Z.of_nat (length (StringView.data lhs)) ->
  0 <= StringView.count rhs <= Z.of_nat (length (StringView.data rhs)) ->
  let same :=
    StringView.count lhs = StringView.count rhs /\
    take (Z.to_nat (StringView.count lhs)) (StringView.data lhs)
    = take (Z.to_nat (StringView.count rhs)) (StringView.data rhs) in
  (same -> StringView.eq lhs rhs = Done true) /\
  (~ same -> StringView.eq lhs rhs = Done false).
Proof.
  intros Hl Hr same. rewrite (string_view_eq_spec lhs rhs Hl Hr). split.
  - intros [_ E]. rewrite bool_decide_eq_true_2 by exact E. reflexivity.
  - intros Hn. rewrite bool_decide_eq_false_2; [reflexivity |].
    intros E. apply Hn. split; [| exact E].
    apply (f_equal length) in E. rewrite !length_take in E. lia.
Qed.

Lemma string_view_eq_decides_witness :
  let lhs := StringView.mk [104; 105; 33] 2 in
  let rhs := StringView.mk [104; 105; 63; 0] 2 in
  let same :=
    StringView.count lhs = StringView.count rhs /\
    take (Z.to_nat (StringView.count lhs)) (StringView.data lhs)
    = take (Z.to_nat (StringView.count rhs)) (StringView.data rhs) in
  (same -> StringView.eq lhs rhs = Done true) /\
  (~ same -> StringView.eq lhs rhs = Done false).
Proof.
  intros lhs rhs.
  apply (string_view_eq_decides lhs rhs).
  - simpl. lia.
  - simpl. lia.
Defined.

Section StringFacts.
Context {A : Type} `{Allocator A Z, Deallocator A Z}.
Import String_.
Implicit Types (s str : String_.t) (a : A) (c : Z).

Local Abbreviation SoundZ := (List_.sound (T:=Z) (A:=A)).

Lemma elems_length (l : List_.t Z) :
  List_.wf l -> length (List_.elems l) = Z.to_nat (List_.count l).
Proof.
  intros (Hc & Hl & _). unfold List_.elems. rewrite length_take. lia.
Qed.

Lemma string_alloc_spec a cap :
  SoundZ -> 0 <= cap -> cap + 1 < 2 ^ 64 ->
  exists s,
    alloc a cap = Done (s, (Allocator_alloc (T:=Z) (cap + 1) a).2) /\
    terminated s /\ chars s = [] /\
    List_.count (data s) = 1 /\ List_.capacity (data s) = cap + 1.
Proof.
  intros Hsound Hcap0 Hcap1. unfold alloc, List_.alloc.
  rewrite u64_small by lia.
  pose proof (Hsound (cap + 1) a) as Hl.
  destruct (Allocator_alloc (T:=Z) (cap + 1) a) as [its a0]. cbn [fst snd] in *.
  destruct (push_spec (List_.mk its 0 (cap + 1)) NULL_CHAR a0 Hsound)
    as (l1 & a1 & Hpush & Hwf1 & He1 & Hc1 & Hkeep & _).
  { unfold List_.wf. cbn [List_.items List_.count List_.capacity]. lia. }
  { cbn [List_.count List_.capacity]. lia. }
  cbn [List_.count List_.capacity] in Hc1, Hkeep.
  destruct Hkeep as [Hcap1' ->]; [lia |].
  rewrite Hpush. cbn [obind]. exists (mk l1).
  split; [reflexivity |].
  assert (Hel : List_.elems l1 = [NULL_CHAR]).
  { rewrite He1. unfold List_.elems. cbn [List_.count List_.items]. reflexivity. }
  split; [| split; [| split; [exact Hc1 | exact Hcap1']]].
  - unfold terminated. cbn [data]. split; [exact Hwf1 |]. split; [lia |].
    rewrite Hc1. change (Z.to_nat (1 - 1)) with 0%nat.
    assert (Hlk : List_.elems l1 !! 0%nat = Some NULL_CHAR) by (rewrite Hel; reflexivity).
    unfold List_.elems in Hlk. rewrite lookup_take_lt in Hlk by lia. exact Hlk.
  - unfold chars. cbn [data]. rewrite Hc1. reflexivity.
Qed.

Lemma string_push_spec s c a :
  SoundZ -> terminated s ->
  (List_.count (data s) = List_.capacity (data s) ->
   3 * (List_.capacity (data s) + 1) < 2 ^ 64) ->
  exists s' a',
    push s c a = Done (s', a') /\ terminated s' /\
    chars s' = chars s ++ [c] /\
    List_.count (data s') = List_.count (data s) + 1 /\
    (List_.count (data s) < List_.capacity (data s) ->
     List_.capacity (data s') = List_.capacity (data s) /\ a' = a).
Proof.
  intros Hsound (Hwf & Hone & Hnul) Hgrow. unfold push.
  destruct (push_spec (data s) NULL_CHAR a Hsound Hwf Hgrow)
    as (l1 & a1 & Hpush & Hwf1 & He1 & Hc1 & Hkeep & _).
  rewrite Hpush. cbn [obind].
  pose proof Hwf as (Hcount & Hlen & Hcap).
  pose proof Hwf1 as (Hcount1 & Hlen1 & Hcap1).
  rewrite Hc1. replace (List_.count (data s) + 1 - 2) with (List_.count (data s) - 1) by lia.
  rewrite u64_small by lia.
  unfold List_.assign. rewrite Hc1.
  destruct (Z.ltb_spec (List_.count (data s) - 1) (List_.count (data s) + 1)) as [_ | G];
    [| lia].
  rewrite store_in_range by lia. cbn [obind].
  set (k := Z.to_nat (List_.count (data s) - 1)).
  assert (Hk : Z.to_nat (List_.count (data s)) = S k) by lia.
  assert (Hitems1 : forall j, (j < S (S k))%nat -> List_.items l1 !! j
                                                  = (List_.elems (data s) ++ [NULL_CHAR]) !! j).
  { intros j Hj. rewrite <- He1. unfold List_.elems. rewrite lookup_take_lt by lia.
    reflexivity. }
  exists (mk (List_.mk (<[k := c]> (List_.items l1)) (List_.count (data s) + 1)
                (List_.capacity l1))), a1.
  split; [reflexivity |]. split; [| split; [| split; [reflexivity | exact Hkeep]]].
  - unfold terminated. cbn [data List_.items List_.count List_.capacity].
    split; [unfold List_.wf; cbn [List_.items List_.count List_.capacity];
            rewrite length_insert; lia |].
    split; [lia |].
    replace (Z.to_nat (List_.count (data s) + 1 - 1)) with (S k) by lia.
    rewrite list_lookup_insert_ne by lia.
    rewrite Hitems1 by lia.
    rewrite lookup_app_r by (rewrite elems_length by exact Hwf; lia).
    rewrite elems_length by exact Hwf. rewrite Hk, Nat.sub_diag. reflexivity.
  - unfold chars. cbn [data List_.items List_.count].
    replace (Z.to_nat (List_.count (data s) + 1 - 1)) with (S k) by lia.
    rewrite take_snoc_insert by lia. f_equal. fold k.
    apply list_eq. intros j.
    destruct (Nat.lt_ge_cases j k) as [Hj | Hj].
    + rewrite !lookup_take_lt by lia. rewrite Hitems1 by lia.
      rewrite lookup_app_l by (rewrite elems_length by exact Hwf; lia).
      unfold List_.elems. rewrite lookup_take_lt by lia. reflexivity.
    + rewrite !lookup_take_ge by lia. reflexivity.
Qed.

Lemma push_chars_spec n :
  forall (src : list Z) (i : nat) s a,
  SoundZ -> terminated s ->
  (i + n <= length src)%nat ->
  3 * (List_.count (data s) + Z.of_nat n + 1) < 2 ^ 64 ->
  exists s' a',
    push_chars n src (Z.of_nat i) s a = Done (s', a') /\ terminated s' /\
    chars s' = chars s ++ take n (drop i src) /\
    List_.count (data s') = List_.count (data s) + Z.of_nat n /\
    (List_.count (data s) + Z.of_nat n <= List_.capacity (data s) ->
     List_.capacity (data s') = List_.capacity (data s) /\ a' = a).
Proof.
  induction n as [| n IH]; intros src i s a Hsound Hterm Hi Hbound.
  - exists s, a. cbn [push_chars take]. rewrite app_nil_r.
    split; [reflexivity |]. split; [exact Hterm |]. split; [reflexivity |].
    split; [lia |]. intros _. split; reflexivity.
  - cbn [push_chars].
    destruct (lookup_lt_is_Some_2 src i) as [c Hc]; [lia |].
    rewrite cell_nat, Hc. cbn [deref obind].
    pose proof Hterm as ((Hcount & _ & _) & _ & _).
    destruct (string_push_spec s c a Hsound Hterm)
      as (s1 & a1 & Hpush & Hterm1 & Hch1 & Hc1 & Hkeep1).
    { intros Heq. lia. }
    rewrite Hpush. cbn [obind].
    replace (Z.of_nat i + 1) with (Z.of_nat (S i)) by lia.
    destruct (IH src (S i) s1 a1 Hsound Hterm1) as (s' & a' & Hrun & Hterm' & Hch' & Hc' & Hkeep');
      [lia | lia |].
    exists s', a'. split; [exact Hrun |]. split; [exact Hterm' |].
    split.
    + rewrite Hch', Hch1, <- app_assoc. f_equal.
      rewrite (drop_S src c i Hc). reflexivity.
    + split; [lia |]. intros Hroom.
      destruct Hkeep1 as [Hcap1 ->]; [lia |].
      destruct Hkeep' as [Hcap' ->]; [lia |].
      split; [congruence | reflexivity].
Qed.

(** A string made from a view holds the characters of the view and a
    terminator behind them; its own view compares equal to the one it
    was made from.  The array is requested once, with room for the
    terminator, and never regrown. *)
Theorem to_string_round_trip (sv : StringView.t) (a : A) :
  SoundZ ->
  0 <= StringView.count sv <= Z.of_nat (length (StringView.data sv)) ->
  3 * (StringView.count sv + 2) < 2 ^ 64 ->
  exists s v,
    to_string sv a
    = Done (s, (Allocator_alloc (T:=Z) (StringView.count sv + 1) a).2) /\
    terminated s /\
    chars s = take (Z.to_nat (StringView.count sv)) (StringView.data sv) /\
    view s = Done v /\
    StringView.count v = StringView.count sv /\
    StringView.eq sv v = Done true.
Proof.
  intros Hsound Hcount Hbound. unfold to_string, alloc_from.
  destruct (string_alloc_spec a (StringView.count sv) Hsound)
    as (s0 & Halloc & Hterm0 & Hch0 & Hc0 & Hcap0); [lia | lia |].
  rewrite Halloc. cbn [obind]. change 0 with (Z.of_nat 0).
  destruct (push_chars_spec (Z.to_nat (StringView.count sv)) (StringView.data sv) 0 s0
              (Allocator_alloc (T:=Z) (StringView.count sv + 1) a).2 Hsound Hterm0)
    as (s & a' & Hrun & Hterm & Hch & Hc & Hkeep); [lia | lia |].
  destruct Hkeep as [_ ->]; [lia |].
  rewrite Hch0, drop_0 in Hch. cbn [app] in Hch.
  pose proof Hterm as ((Hcnt & Hlen & Hcap) & Hone & _).
  exists s, (StringView.mk (List_.items (data s)) (StringView.count sv)).
  split; [exact Hrun |]. split; [exact Hterm |]. split; [exact Hch |].
  split.
  { unfold view, count. destruct (Z.eqb_spec (List_.count (data s)) 0); [lia |].
    cbn [obind]. rewrite u64_small by lia. do 3 f_equal. lia. }
  split; [reflexivity |].
  rewrite string_view_eq_spec.
  - cbn [StringView.data StringView.count].
    rewrite bool_decide_eq_true_2; [reflexivity |].
    rewrite <- Hch. unfold chars. do 2 f_equal. lia.
  - exact Hcount.
  - cbn [StringView.data StringView.count]. lia.
Qed.

(** [append] puts the characters of the argument behind those of the
    string, for a view and for a string alike, and the terminator stays
    last. *)
Theorem append_concatenates (s str : String_.t) (sv : StringView.t) (a : A) :
  SoundZ -> terminated s -> terminated str ->
  0 <= StringView.count sv <= Z.of_nat (length (StringView.data sv)) ->
  3 * (List_.count (data s) + List_.count (data str) + 1) < 2 ^ 64 ->
  3 * (List_.count (data s) + StringView.count sv + 1) < 2 ^ 64 ->
  (exists s' a',
     append_string s str a = Done (s', a') /\ terminated s' /\
     chars s' = chars s ++ chars str) /\
  (exists s' a',
     append s sv a = Done (s', a') /\ terminated s' /\
     chars s' = chars s ++ take (Z.to_nat (StringView.count sv)) (StringView.data sv)).
Proof.
  intros Hsound Hterm Hstr Hsv Hb1 Hb2. split.
  - pose proof Hstr as ((Hcnt & Hlen & Hcap) & Hone & _).
    unfold append_string, count.
    destruct (Z.eqb_spec (List_.count (data str)) 0); [lia |].
    cbn [obind]. rewrite u64_small by lia. change 0 with (Z.of_nat 0).
    destruct (push_chars_spec (Z.to_nat (List_.count (data str) - 1))
                (List_.items (data str)) 0 s a Hsound Hterm)
      as (s' & a' & Hrun & Hterm' & Hch & _); [lia | lia |].
    exists s', a'. split; [exact Hrun |]. split; [exact Hterm' |].
    rewrite Hch, drop_0. reflexivity.
  - unfold append. change 0 with (Z.of_nat 0).
    destruct (push_chars_spec (Z.to_nat (StringView.count sv)) (StringView.data sv) 0 s a
                Hsound Hterm)
      as (s' & a' & Hrun & Hterm' & Hch & _); [lia | lia |].
    exists s', a'. split; [exact Hrun |]. split; [exact Hterm' |].
    rewrite Hch, drop_0. reflexivity.
Qed.

End StringFacts.

(** ** Numbers to strings *)

Lemma has_digits_exists (n : nat) (v : Z) :
  (1 <= n)%nat -> 0 <= v < 10 ^ Z.of_nat n ->
  exists k, (k <= n)%nat /\ has_digits k v.
Proof.
  induction n as [| n IH]; intros Hn Hv; [lia |].
  destruct (Nat.eq_dec n 0%nat) as [-> | Hn0].
  - exists 1%nat. split; [lia |]. unfold has_digits. split; [lia |]. split; [exact Hv |].
    left. reflexivity.
  - destruct (Z.lt_ge_cases v (10 ^ Z.of_nat n)) as [Hlt | Hge].
    + destruct IH as (k & Hk & Hd); [lia | lia |]. exists k. split; [lia | exact Hd].
    + exists (S n). split; [lia |]. unfold has_digits. split; [lia |]. split; [exact Hv |].
      right. replace (Z.of_nat (S n) - 1) with (Z.of_nat n) by lia. exact Hge.
Qed.

Lemma has_digits_one (v : Z) : has_digits 1 v -> 0 <= v < 10.
Proof. intros (_ & Hv & _). change (10 ^ Z.of_nat 1) with 10 in Hv. exact Hv. Qed.

Lemma has_digits_more (k : nat) (v : Z) :
  has_digits (S (S k)) v -> has_digits (S k) (v / 10) /\ v / 10 <> 0 /\ 10 <= v.
Proof.
  intros (_ & Hv & Hlow). destruct Hlow as [Hk | Hlow]; [lia |].
  replace (Z.of_nat (S (S k)) - 1) with (Z.of_nat k + 1) in Hlow by lia.
  replace (Z.of_nat (S (S k))) with (Z.of_nat k + 1 + 1) in Hv by lia.
  rewrite Z.pow_add_r in Hlow by lia. rewrite (Z.pow_add_r 10 (Z.of_nat k + 1)) in Hv by lia.
  rewrite Z.pow_add_r in Hv by lia.
  change (10 ^ 1) with 10 in *.
  assert (Hpos : 0 < 10 ^ Z.of_nat k) by (apply Z.pow_pos_nonneg; lia).
  assert (H1 : 10 ^ Z.of_nat k <= v / 10) by (apply Z.div_le_lower_bound; lia).
  assert (H2 : v / 10 < 10 ^ Z.of_nat k * 10) by (apply Z.div_lt_upper_bound; lia).
  split; [| split; [lia | lia]].
  unfold has_digits. split; [lia |]. split.
  - replace (Z.of_nat (S k)) with (Z.of_nat k + 1) by lia.
    rewrite Z.pow_add_r by lia. change (10 ^ 1) with 10. lia.
  - right. replace (Z.of_nat (S k) - 1) with (Z.of_nat k) by lia. exact H1.
Qed.

Lemma has_digits_bound (k n : nat) (v : Z) :
  has_digits k v -> 10 ^ Z.of_nat n <= v -> (n < k)%nat.
Proof.
  intros (_ & Hv & _) Hn.
  destruct (Nat.lt_ge_cases n k) as [Hlt | Hge]; [exact Hlt |].
  assert (10 ^ Z.of_nat k <= 10 ^ Z.of_nat n) by (apply Z.pow_le_mono_r; lia). lia.
Qed.

Lemma count_digits_spec (k : nat) :
  forall (fuel : nat) (value_copy idx : Z),
  has_digits k (Z.abs value_copy) -> (k <= fuel)%nat ->
  count_digits fuel value_copy idx = Done (idx + Z.of_nat k - 1).
Proof.
  induction k as [| k IH]; intros fuel vc idx Hd Hfuel; [destruct Hd; lia |].
  destruct fuel as [| fuel]; [lia |]. cbn [count_digits].
  assert (Habs : Z.abs (Z.quot vc 10) = Z.abs vc / 10).
  { rewrite <- (Z.quot_abs vc 10) by lia. change (Z.abs 10) with 10.
    apply Z.quot_div_nonneg; lia. }
  destruct k as [| k].
  - apply has_digits_one in Hd.
    assert (Hq : Z.quot vc 10 = 0) by (apply Z.quot_small_iff; [lia |]; change (Z.abs 10) with 10; lia).
    rewrite Hq. cbn [Z.eqb]. f_equal. lia.
  - apply has_digits_more in Hd as (Hd & Hne & _). rewrite <- Habs in Hd, Hne.
    destruct (Z.eqb_spec (Z.quot vc 10) 0) as [E | _]; [rewrite E in Hne; cbn in Hne; lia |].
    rewrite (IH fuel (Z.quot vc 10) (idx + 1) Hd) by lia. f_equal. lia.
Qed.

Lemma parse_snoc (cs : list Z) (c : Z) : parse (cs ++ [c]) = 10 * parse cs + (c - 48).
Proof. unfold parse. rewrite foldl_snoc. reflexivity. Qed.

Lemma write_digits_spec (k : nat) :
  forall (fuel : nat) (v : Z) (j : nat) (its : list Z),
  has_digits k v -> (k <= fuel)%nat -> (k <= S j)%nat -> (j < length its)%nat ->
  exists ds,
    write_digits fuel v (Z.of_nat j) its
    = Done (take (S j - k) its ++ ds ++ drop (S j) its) /\
    length ds = k /\ Forall (fun c => 48 <= c <= 57) ds /\ parse ds = v /\
    (v <> 0 -> head ds <> Some 48).
Proof.
  induction k as [| k IH]; intros fuel v j its Hd Hfuel Hk Hj; [destruct Hd; lia |].
  destruct fuel as [| fuel]; [lia |]. cbn [write_digits].
  pose proof Hd as (_ & Hv & _).
  rewrite Z.rem_mod_nonneg, Z.quot_div_nonneg by lia.
  pose proof (Z.mod_pos_bound v 10 ltac:(lia)) as Hm.
  pose proof (Z.div_mod v 10 ltac:(lia)) as Hdm.
  assert (Hu8 : u8 (v mod 10 + 48) = v mod 10 + 48).
  { unfold u8. apply Z.mod_small. lia. }
  rewrite Hu8, store_nat by exact Hj. cbn [obind].
  destruct k as [| k].
  - apply has_digits_one in Hd.
    rewrite (Z.div_small v 10) by lia. cbn [Z.eqb].
    rewrite (Z.mod_small v 10) by lia.
    exists [v + 48]. split.
    + f_equal. replace (S j - 1)%nat with j by lia.
      rewrite insert_take_drop by exact Hj. reflexivity.
    + split; [reflexivity |]. split; [constructor; [lia | constructor] |].
      split; [unfold parse; cbn; lia |].
      intros Hne. cbn. intros [= E]. lia.
  - apply has_digits_more in Hd as (Hd' & Hne & Hten).
    destruct (Z.eqb_spec (v / 10) 0) as [E | _]; [contradiction |].
    destruct j as [| j]; [lia |].
    replace (Z.of_nat (S j) - 1) with (Z.of_nat j) by lia.
    destruct (IH fuel (v / 10) j (<[S j := v mod 10 + 48]> its) Hd')
      as (ds & Hrun & Hlen & Hdig & Hparse & Hhead).
    { lia. }
    { lia. }
    { rewrite length_insert. lia. }
    exists (ds ++ [v mod 10 + 48]). split.
    + rewrite Hrun. f_equal.
      rewrite take_insert_ge by lia. rewrite drop_insert_ge by lia.
      replace (S j - S j)%nat with 0%nat by lia.
      rewrite (insert_take_drop (drop (S j) its)) by (rewrite length_drop; lia).
      rewrite take_0, drop_drop. cbn [app].
      replace (S (S j) - S (S k))%nat with (S j - S k)%nat by lia.
      replace (S j + 1)%nat with (S (S j)) by lia.
      rewrite <- app_assoc. reflexivity.
    + split; [rewrite length_app; cbn [length]; lia |].
      split; [apply Forall_app; split; [exact Hdig | constructor; [lia | constructor]] |].
      split; [rewrite parse_snoc, Hparse; lia |].
      intros _. destruct ds as [| d ds]; [cbn in Hlen; lia |].
      cbn. apply (Hhead Hne).
Qed.

Lemma write_digits_outside (fuel : nat) (v idx : Z) (its : list Z) :
  Z.of_nat (length its) <= idx -> write_digits (S fuel) v idx its = Fault.
Proof.
  intros Hidx. cbn [write_digits]. rewrite store_out_of_range by exact Hidx. reflexivity.
Qed.

Section NumberFacts.
Context {A : Type} `{Allocator A Z, Deallocator A Z}.
Import String_.

Local Abbreviation SoundN := (List_.sound (T:=Z) (A:=A)).

(** The digits fit: [idx0] cells are kept, the numeral follows, then the
    terminator. *)
Lemma finish_digits_fits (fuel k idx0 : nat) (s : String_.t) (v vc : Z) :
  has_digits k v -> Z.abs vc = v -> (k <= fuel)%nat ->
  List_.wf (data s) ->
  Z.of_nat (idx0 + k) < List_.capacity (data s) ->
  exists ds s',
    finish_digits fuel s v vc (Z.of_nat idx0) = Done s' /\
    terminated s' /\
    chars s' = take idx0 (List_.items (data s)) ++ ds /\
    length ds = k /\ Forall (fun c => 48 <= c <= 57) ds /\ parse ds = v /\
    (v <> 0 -> head ds <> Some 48).
Proof.
  intros Hd Habs Hfuel (Hcount & Hlen & Hcap) Hfit.
  pose proof Hd as (Hk1 & _ & _).
  unfold finish_digits.
  rewrite (count_digits_spec k fuel vc (Z.of_nat idx0)) by (rewrite ?Habs; assumption).
  cbn [obind].
  replace (Z.of_nat idx0 + Z.of_nat k - 1) with (Z.of_nat (idx0 + k - 1)) by lia.
  destruct (write_digits_spec k fuel v (idx0 + k - 1) (List_.items (data s)) Hd Hfuel)
    as (ds & Hrun & Hlends & Hdig & Hparse & Hhead); [lia | lia |].
  rewrite Hrun. cbn [obind].
  replace (S (idx0 + k - 1) - k)%nat with idx0 by lia.
  replace (S (idx0 + k - 1)) with (idx0 + k)%nat by lia.
  replace (Z.of_nat (idx0 + k - 1) + 1) with (Z.of_nat (idx0 + k)) by lia.
  set (its := List_.items (data s)) in *.
  assert (Hlen1 : length (take idx0 its ++ ds ++ drop (idx0 + k) its) = length its).
  { rewrite !length_app, length_take, length_drop. lia. }
  rewrite store_nat by lia. cbn [obind].
  rewrite u64_small by lia.
  eexists ds, _. split; [reflexivity |].
  assert (Hpre : length (take idx0 its ++ ds) = (idx0 + k)%nat).
  { rewrite length_app, length_take. lia. }
  split; [| split; [| split; [exact Hlends | split; [exact Hdig | split; [exact Hparse | exact Hhead]]]]].
  - unfold terminated. cbn [data List_.items List_.count List_.capacity].
    split; [unfold List_.wf; cbn [List_.items List_.count List_.capacity];
            rewrite length_insert; lia |].
    split; [lia |].
    replace (Z.to_nat (Z.of_nat (idx0 + k) + 1 - 1)) with (idx0 + k)%nat by lia.
    apply list_lookup_insert_eq. lia.
  - unfold chars. cbn [data List_.items List_.count].
    replace (Z.to_nat (Z.of_nat (idx0 + k) + 1 - 1)) with (idx0 + k)%nat by lia.
    rewrite take_insert_ge by lia.
    rewrite app_assoc. rewrite take_app_length' by (symmetry; exact Hpre). reflexivity.
Qed.

(** The digits do not fit: a cell behind the array is written. *)
Lemma finish_digits_overflows (fuel k idx0 : nat) (s : String_.t) (v vc : Z) :
  has_digits k v -> Z.abs vc = v -> (k <= fuel)%nat ->
  List_.wf (data s) ->
  List_.capacity (data s) <= Z.of_nat (idx0 + k) ->
  finish_digits fuel s v vc (Z.of_nat idx0) = Fault.
Proof.
  intros Hd Habs Hfuel (Hcount & Hlen & Hcap) Hover.
  pose proof Hd as (Hk1 & _ & _).
  unfold finish_digits.
  rewrite (count_digits_spec k fuel vc (Z.of_nat idx0)) by (rewrite ?Habs; assumption).
  cbn [obind].
  replace (Z.of_nat idx0 + Z.of_nat k - 1) with (Z.of_nat (idx0 + k - 1)) by lia.
  destruct (Z.eq_dec (List_.capacity (data s)) (Z.of_nat (idx0 + k))) as [Heq | Hne].
  - destruct (write_digits_spec k fuel v (idx0 + k - 1) (List_.items (data s)) Hd Hfuel)
      as (ds & Hrun & Hlends & _); [lia | lia |].
    rewrite Hrun. cbn [obind].
    rewrite store_out_of_range; [reflexivity |].
    rewrite !length_app, length_take, length_drop. lia.
  - destruct fuel as [| fuel]; [lia |].
    rewrite write_digits_outside by lia. reflexivity.
Qed.

Lemma wrap_small bits x : 0 <= x < 2 ^ bits -> wrap bits x = x.
Proof. intros Hx. unfold wrap. apply Z.mod_small. exact Hx. Qed.

(** [to_string] of an unsigned number below 10^10, every [uint32_t]
    among them, gives its decimal numeral, terminated, in the one
    array of 11 cells the function asks for. *)
Theorem to_string_unsigned_is_decimal (bits : Z) (fuel : nat) (a : A) (value : Z) :
  SoundN -> bits = 32 \/ bits = 64 ->
  0 <= value < 2 ^ bits -> value < 10 ^ 10 -> (10 <= fuel)%nat ->
  exists s,
    to_string_unsigned bits fuel a value = Done (s, (Allocator_alloc (T:=Z) 11 a).2) /\
    terminated s /\ numeral (chars s) value.
Proof.
  intros Hsound Hbits Hv Hten Hfuel. unfold to_string_unsigned.
  destruct (string_alloc_spec a 10 Hsound) as (s0 & Halloc & Hterm0 & _ & Hc0 & Hcap0);
    [lia | lia |].
  change (10 + 1) with 11 in Halloc, Hcap0. rewrite Halloc. cbn [obind].
  rewrite wrap_small by exact Hv.
  destruct (has_digits_exists 10 value) as (k & Hk & Hd); [lia | lia |].
  pose proof Hterm0 as (Hwf0 & _ & _).
  change 0 with (Z.of_nat 0) at 1.
  destruct (finish_digits_fits fuel k 0 s0 value value Hd) as
    (ds & s & Hrun & Hterm & Hch & Hlen & Hdig & Hparse & Hhead).
  { lia. }
  { lia. }
  { exact Hwf0. }
  { rewrite Hcap0. lia. }
  rewrite Hrun. cbn [obind]. exists s. split; [reflexivity |]. split; [exact Hterm |].
  rewrite Hch, take_0. cbn [app]. unfold numeral.
  split; [exact Hdig |]. split; [exact Hparse |].
  destruct Hd as (Hk1 & Hrange & Hlow).
  split; [intros ->; cbn in Hlen; lia |].
  destruct (Z.eq_dec value 0) as [-> | Hne]; [| right; exact (Hhead Hne)].
  left. destruct Hlow as [-> | Hlow]; [exact Hlen |].
  assert (0 < 10 ^ (Z.of_nat k - 1)) by (apply Z.pow_pos_nonneg; lia). lia.
Qed.

(** [to_string] of a [uint64_t] of 11 digits or more writes past the
    array: the function asks for 11 cells whatever the value, and a
    64-bit number has up to 20 digits. *)
Theorem to_string_uint64_overflows (fuel : nat) (a : A) (value : Z) :
  SoundN -> 10 ^ 10 <= value < 2 ^ 64 -> (20 <= fuel)%nat ->
  to_string_unsigned 64 fuel a value = Fault.
Proof.
  intros Hsound Hv Hfuel. unfold to_string_unsigned.
  destruct (string_alloc_spec a 10 Hsound) as (s0 & Halloc & Hterm0 & _ & Hc0 & Hcap0);
    [lia | lia |].
  change (10 + 1) with 11 in Halloc, Hcap0. rewrite Halloc. cbn [obind].
  rewrite wrap_small by lia.
  destruct (has_digits_exists 20 value) as (k & Hk & Hd); [lia | lia |].
  pose proof (has_digits_bound k 10 value Hd ltac:(lia)) as Hk10.
  pose proof Hterm0 as (Hwf0 & _ & _).
  change 0 with (Z.of_nat 0) at 1.
  rewrite (finish_digits_overflows fuel k 0 s0 value value Hd); [reflexivity | | | |].
  - lia.
  - lia.
  - exact Hwf0.
  - rewrite Hcap0. lia.
Qed.

Lemma signed_value bits v :
  bits = 32 \/ bits = 64 -> 0 <= v <= 2 ^ (bits - 1) -> Z.abs (signed bits v) = v.
Proof.
  intros Hbits Hv. unfold signed.
  assert (Hp : 2 ^ bits = 2 * 2 ^ (bits - 1)).
  { destruct Hbits as [-> | ->]; reflexivity. }
  assert (Hpos : 0 < 2 ^ (bits - 1)) by (destruct Hbits as [-> | ->]; reflexivity).
  rewrite wrap_small by lia.
  destruct (Z.ltb_spec v (2 ^ (bits - 1))); lia.
Qed.

(** The signed [to_string], on every value from -999999999 to
    9999999999: the decimal numeral, behind a minus sign for a
    negative value. *)
Theorem to_string_signed_is_decimal (bits : Z) (fuel : nat) (a : A) (v : Z) :
  SoundN -> bits = 32 \/ bits = 64 ->
  - 2 ^ (bits - 1) <= v < 2 ^ (bits - 1) ->
  - 10 ^ 9 < v < 10 ^ 10 -> (10 <= fuel)%nat ->
  exists s,
    to_string_signed bits fuel a v = Done (s, (Allocator_alloc (T:=Z) 11 a).2) /\
    terminated s /\
    (0 <= v -> numeral (chars s) v) /\
    (v < 0 -> exists ds, chars s = 45 :: ds /\ numeral ds (- v)).
Proof.
  intros Hsound Hbits Hrange Hv Hfuel. unfold to_string_signed.
  assert (Hp : 2 ^ bits = 2 * 2 ^ (bits - 1)).
  { destruct Hbits as [-> | ->]; reflexivity. }
  assert (Hpos : 0 < 2 ^ (bits - 1)) by (destruct Hbits as [-> | ->]; reflexivity).
  destruct (string_alloc_spec a 10 Hsound) as (s0 & Halloc & Hterm0 & Hch0 & Hc0 & Hcap0);
    [lia | lia |].
  change (10 + 1) with 11 in Halloc, Hcap0. rewrite Halloc. cbn [obind].
  destruct (Z.ltb_spec v 0) as [Hneg | Hnonneg].
  - destruct (string_push_spec s0 45 (Allocator_alloc (T:=Z) 11 a).2 Hsound Hterm0)
      as (s1 & a1 & Hpush & Hterm1 & Hch1 & Hc1 & Hkeep); [lia |].
    destruct Hkeep as [Hcap1 ->]; [lia |].
    rewrite Hpush. cbn [obind].
    assert (Hval : wrap bits (- wrap bits v) = - v).
    { unfold wrap. rewrite <- (Z.mod_add v 1 (2 ^ bits)) by lia.
      rewrite (Z.mod_small (v + 1 * 2 ^ bits)) by lia.
      replace (- (v + 1 * 2 ^ bits)) with (- v + (-1) * 2 ^ bits) by lia.
      rewrite Z.mod_add by lia. apply Z.mod_small. lia. }
    rewrite Hval.
    destruct (has_digits_exists 9 (- v)) as (k & Hk & Hd); [lia | lia |].
    pose proof Hterm1 as (Hwf1 & _ & _).
    change 1 with (Z.of_nat 1) at 1.
    destruct (finish_digits_fits fuel k 1 s1 (- v) (signed bits (- v)) Hd) as
      (ds & s & Hrun & Hterm & Hch & Hlen & Hdig & Hparse & Hhead).
    { apply signed_value; [exact Hbits | lia]. }
    { lia. }
    { exact Hwf1. }
    { rewrite Hcap1, Hcap0. lia. }
    rewrite Hrun. cbn [obind]. exists s. split; [reflexivity |]. split; [exact Hterm |].
    split; [intros Hge; lia |]. intros _. exists ds.
    split.
    + rewrite Hch. rewrite Hch0 in Hch1. cbn [app] in Hch1.
      unfold chars in Hch1. rewrite Hc1, Hc0 in Hch1.
      change (Z.to_nat (1 + 1 - 1)) with 1%nat in Hch1. rewrite Hch1. reflexivity.
    + unfold numeral. split; [exact Hdig |]. split; [exact Hparse |].
      destruct Hd as (Hk1 & _ & _).
      split; [intros ->; cbn in Hlen; lia |]. right. apply Hhead. lia.
  - cbn [obind]. rewrite wrap_small by lia.
    destruct (has_digits_exists 10 v) as (k & Hk & Hd); [lia | lia |].
    pose proof Hterm0 as (Hwf0 & _ & _).
    change 0 with (Z.of_nat 0) at 1.
    destruct (finish_digits_fits fuel k 0 s0 v (signed bits v) Hd) as
      (ds & s & Hrun & Hterm & Hch & Hlen & Hdig & Hparse & Hhead).
    { apply signed_value; [exact Hbits | lia]. }
    { lia. }
    { exact Hwf0. }
    { rewrite Hcap0. lia. }
    rewrite Hrun. cbn [obind]. exists s. split; [reflexivity |]. split; [exact Hterm |].
    split; [| intros Hlt; lia]. intros _.
    rewrite Hch, take_0. cbn [app]. unfold numeral.
    split; [exact Hdig |]. split; [exact Hparse |].
    destruct Hd as (Hk1 & Hrange' & Hlow).
    split; [intros ->; cbn in Hlen; lia |].
    destruct (Z.eq_dec v 0) as [-> | Hne]; [| right; exact (Hhead Hne)].
    left. destruct Hlow as [-> | Hlow]; [exact Hlen |].
    assert (0 < 10 ^ (Z.of_nat k - 1)) by (apply Z.pow_pos_nonneg; lia). lia.
Qed.

(** The signed [to_string] writes past its array of 11 cells for every
    negative number of 10 digits (the [int32_t] values from -2^31 to
    -10^9 among them) and for every number of 11 digits or more: the
    minus sign takes the cell the terminator needs. *)
Theorem to_string_signed_overflows (bits : Z) (fuel : nat) (a : A) (v : Z) :
  SoundN -> bits = 32 \/ bits = 64 ->
  - 2 ^ (bits - 1) <= v < 2 ^ (bits - 1) ->
  v <= - 10 ^ 9 \/ 10 ^ 10 <= v -> (20 <= fuel)%nat ->
  to_string_signed bits fuel a v = Fault.
Proof.
  intros Hsound Hbits Hrange Hv Hfuel. unfold to_string_signed.
  assert (Hp : 2 ^ bits = 2 * 2 ^ (bits - 1)).
  { destruct Hbits as [-> | ->]; reflexivity. }
  assert (Hpos : 0 < 2 ^ (bits - 1) <= 2 ^ 63) by (destruct Hbits as [-> | ->]; cbn; lia).
  destruct (string_alloc_spec a 10 Hsound) as (s0 & Halloc & Hterm0 & Hch0 & Hc0 & Hcap0);
    [lia | lia |].
  change (10 + 1) with 11 in Halloc, Hcap0. rewrite Halloc. cbn [obind].
  destruct (Z.ltb_spec v 0) as [Hneg | Hnonneg].
  - destruct (string_push_spec s0 45 (Allocator_alloc (T:=Z) 11 a).2 Hsound Hterm0)
      as (s1 & a1 & Hpush & Hterm1 & Hch1 & Hc1 & Hkeep); [lia |].
    destruct Hkeep as [Hcap1 ->]; [lia |].
    rewrite Hpush. cbn [obind].
    assert (Hval : wrap bits (- wrap bits v) = - v).
    { unfold wrap. rewrite <- (Z.mod_add v 1 (2 ^ bits)) by lia.
      rewrite (Z.mod_small (v + 1 * 2 ^ bits)) by lia.
      replace (- (v + 1 * 2 ^ bits)) with (- v + (-1) * 2 ^ bits) by lia.
      rewrite Z.mod_add by lia. apply Z.mod_small. lia. }
    rewrite Hval.
    destruct (has_digits_exists 20 (- v)) as (k & Hk & Hd); [lia | lia |].
    pose proof (has_digits_bound k 9 (- v) Hd ltac:(lia)) as Hk9.
    pose proof Hterm1 as (Hwf1 & _ & _).
    change 1 with (Z.of_nat 1) at 1.
    rewrite (finish_digits_overflows fuel k 1 s1 (- v) (signed bits (- v)) Hd);
      [reflexivity | | | |].
    + apply signed_value; [exact Hbits | lia].
    + lia.
    + exact Hwf1.
    + rewrite Hcap1, Hcap0. lia.
  - cbn [obind]. rewrite wrap_small by lia.
    destruct (has_digits_exists 20 v) as (k & Hk & Hd); [lia | lia |].
    pose proof (has_digits_bound k 10 v Hd ltac:(lia)) as Hk10.
    pose proof Hterm0 as (Hwf0 & _ & _).
    change 0 with (Z.of_nat 0) at 1.
    rewrite (finish_digits_overflows fuel k 0 s0 v (signed bits v) Hd);
      [reflexivity | | | |].
    + apply signed_value; [exact Hbits | lia].
    + lia.
    + exact Hwf0.
    + rewrite Hcap0. lia.
Qed.

End NumberFacts.

Lemma to_string_round_trip_witness :
  exists s v,
    String_.to_string (StringView.mk [104; 105; 33] 2) (mkZeroPages [])
    = Done (s, (Allocator_alloc (T:=Z)
                  (StringView.count (StringView.mk [104; 105; 33] 2) + 1)
                  (mkZeroPages [])).2) /\
    String_.terminated s /\
    String_.chars s
    = take (Z.to_nat (StringView.count (StringView.mk [104; 105; 33] 2)))
        (StringView.data (StringView.mk [104; 105; 33] 2)) /\
    String_.view s = Done v /\
    StringView.count v = StringView.count (StringView.mk [104; 105; 33] 2) /\
    StringView.eq (StringView.mk [104; 105; 33] 2) v = Done true.
Proof.
  apply (to_string_round_trip (StringView.mk [104; 105; 33] 2) (mkZeroPages [])
           ZeroPages_sound).
  - simpl. lia.
  - simpl. lia.
Defined.

Lemma append_concatenates_witness :
  let s := String_.mk (List_.mk [104; 105; 0; 0] 3 4) in
  let str := String_.mk (List_.mk [33; 0] 2 2) in
  let sv := StringView.mk [63; 63; 63] 2 in
  (exists s' a',
     String_.append_string s str (mkZeroPages []) = Done (s', a') /\
     String_.terminated s' /\
     String_.chars s' = String_.chars s ++ String_.chars str) /\
  (exists s' a',
     String_.append s sv (mkZeroPages []) = Done (s', a') /\ String_.terminated s' /\
     String_.chars s'
     = String_.chars s ++ take (Z.to_nat (StringView.count sv)) (StringView.data sv)).
Proof.
  intros s str sv.
  apply (append_concatenates s str sv (mkZeroPages []) ZeroPages_sound).
  - unfold String_.terminated, List_.wf. simpl. repeat split; lia.
  - unfold String_.terminated, List_.wf. simpl. repeat split; lia.
  - simpl. lia.
  - simpl. lia.
  - simpl. lia.
Defined.

Lemma to_string_unsigned_is_decimal_witness :
  exists s,
    to_string_unsigned 32 10 (mkZeroPages []) 4294967295
    = Done (s, (Allocator_alloc (T:=Z) 11 (mkZeroPages [])).2) /\
    String_.terminated s /\ numeral (String_.chars s) 4294967295.
Proof.
  apply (to_string_unsigned_is_decimal 32 10 (mkZeroPages []) 4294967295 ZeroPages_sound).
  - left. reflexivity.
  - lia.
  - lia.
  - lia.
Defined.

Lemma to_string_uint64_overflows_witness :
  to_string_unsigned 64 20 (mkZeroPages []) 10000000000 = Fault.
Proof.
  apply (to_string_uint64_overflows 20 (mkZeroPages []) 10000000000 ZeroPages_sound).
  - lia.
  - lia.
Defined.

Lemma to_string_signed_is_decimal_witness :
  exists s,
    to_string_signed 32 10 (mkZeroPages []) (-123)
    = Done (s, (Allocator_alloc (T:=Z) 11 (mkZeroPages [])).2) /\
    String_.terminated s /\
    (0 <= -123 -> numeral (String_.chars s) (-123)) /\
    (-123 < 0 -> exists ds, String_.chars s = 45 :: ds /\ numeral ds (- -123)).
Proof.
  apply (to_string_signed_is_decimal 32 10 (mkZeroPages []) (-123) ZeroPages_sound).
  - left. reflexivity.
  - lia.
  - lia.
  - lia.
Defined.

Lemma to_string_signed_overflows_witness :
  to_string_signed 32 20 (mkZeroPages []) (- 2 ^ 31) = Fault.
Proof.
  apply (to_string_signed_overflows 32 20 (mkZeroPages []) (- 2 ^ 31) ZeroPages_sound).
  - left. reflexivity.
  - lia.
  - left. lia.
  - lia.
Defined.

(** ** Set<T> through the table it corresponds to *)

Section SetMore.
Context {T : Type} `{EqDecision T} (hash : T -> Z).
Context {A : Type} `{Allocator A T, Allocator A Z}.
Implicit Types (s : Set_.t T) (x : T) (a : A).

Local Abbreviation Tput := (Table.put (V:=unit) (H0:=no_values) hash).
Local Abbreviation Talloc := (Table.alloc (K:=T) (V:=unit) (A:=A) (H0:=no_values)).
Local Abbreviation Tclean := (Table.clean (K:=T) (V:=unit) (A:=A) (H0:=no_values)).
Local Abbreviation Sclean := (Set_.clean (T:=T) (A:=A)).
Local Abbreviation Salloc := (Set_.alloc (T:=T) (A:=A)).

Lemma clean_as_table : Sclean -> Tclean.
Proof.
  intros Hc n a. destruct (Hc n a) as (HT & HZ & Hfree).
  split; [exact HT |]. split; [apply length_replicate |]. split; [exact HZ | exact Hfree].
Qed.

Lemma alloc_as_table a n :
  Sclean ->
  (Talloc a n).1 = as_table (Salloc a n).1 /\ (Talloc a n).2 = (Salloc a n).2.
Proof.
  intros Hc. unfold Table.alloc, Set_.alloc.
  destruct (Hc n a) as (HT & _).
  destruct (Allocator_alloc (T:=T) n a) as [vs a1]. cbn [fst] in HT.
  change (@Allocator_alloc A unit no_values n a1) with (replicate (Z.to_nat n) tt, a1).
  cbv beta iota.
  destruct (Allocator_alloc (T:=Z) n a1) as [ms a2].
  cbn [fst snd]. unfold as_table. cbn [Set_.values Set_.meta Set_.count Set_.capacity].
  rewrite HT. split; reflexivity.
Qed.

Lemma store_unit (vs : list T) h x :
  store (replicate (length vs) tt) h tt
  = let! vs' := store vs h x in Done (replicate (length vs') tt).
Proof.
  unfold store. rewrite length_replicate.
  destruct ((0 <=? h) && (h <? Z.of_nat (length vs))); cbn [obind]; [| reflexivity].
  rewrite insert_replicate, length_insert. reflexivity.
Qed.

Lemma sim_probe fuel :
  forall s x h,
  Table.put_probe fuel (as_table s) x tt h
  = let! s' := Set_.put_probe fuel s x h in Done (as_table s').
Proof.
  induction fuel as [| fuel IH]; intros s x h; [reflexivity |].
  cbn [Table.put_probe Set_.put_probe].
  change (Table.meta (as_table s)) with (Set_.meta s).
  change (Table.keys (as_table s)) with (Set_.values s).
  change (Table.values (as_table s)) with (replicate (length (Set_.values s)) tt).
  change (Table.count (as_table s)) with (Set_.count s).
  change (Table.capacity (as_table s)) with (Set_.capacity s).
  destruct (cell (Set_.meta s) h) as [m | | |]; cbn [obind]; try reflexivity.
  destruct (COMT_TAB_IS_FREE m).
  - destruct (store (Set_.meta s) h (Z.lor m COMT_TAB_META_OCCUPIED)) as [ms' | | |];
      cbn [obind]; try reflexivity.
    rewrite (store_unit (Set_.values s) h x).
    destruct (store (Set_.values s) h x) as [vs' | | |]; cbn [obind]; reflexivity.
  - destruct (cell (Set_.values s) h) as [k | | |]; cbn [obind]; try reflexivity.
    destruct (bool_decide (k = x)).
    + rewrite (store_unit (Set_.values s) h x).
      destruct (store (Set_.values s) h x) as [vs' | | |]; cbn [obind]; reflexivity.
    + destruct (Set_.capacity s =? 0); [reflexivity |].
      apply IH.
Qed.

Lemma count_small s :
  Table.wf hash (as_table s) -> 0 <= Set_.count s <= Set_.capacity s.
Proof.
  intros [_ _ _ _ Hm Hcnt _]. cbn [as_table Table.meta Table.count Table.capacity] in *.
  pose proof (occupied_count_range (Set_.meta s)). lia.
Qed.

Lemma load_as_table s :
  Table.wf hash (as_table s) ->
  Set_.load_percentage s = Table.load_percentage (as_table s).
Proof.
  intros Hwf. pose proof (count_small s Hwf) as Hc.
  pose proof (Table.wf_cap_hi hash _ Hwf) as Hhi. cbn [as_table Table.capacity] in Hhi.
  unfold Set_.load_percentage, Table.load_percentage.
  cbn [as_table Table.count Table.capacity].
  rewrite u64_small by lia. rewrite (Z.mul_comm 100). reflexivity.
Qed.

Lemma start_slot s x :
  Set_.capacity s < 2 ^ 64 -> 0 <= hash x < Set_.capacity s ->
  u64 (hash x) mod Set_.capacity s = u64 (hash x).
Proof.
  intros Hcap Hx. rewrite u64_small by lia. apply Z.mod_small. exact Hx.
Qed.

(** A [put] that does not grow the set. *)
Lemma sim_put_in_place fuel s x a :
  Table.wf hash (as_table s) -> Table.load_percentage (as_table s) < 70 ->
  0 <= hash x < Set_.capacity s ->
  (Z.to_nat (Set_.capacity s) < fuel)%nat ->
  exists s',
    Set_.put hash fuel s x a = Done (s', a) /\
    Tput fuel (as_table s) x tt a = Done (as_table s', a).
Proof.
  intros Hwf Hload Hx Hfuel.
  destruct (put_in_place (V:=unit) (H0:=no_values) hash fuel (as_table s) x tt a Hwf Hload)
    as (tab' & Hput & _); [exact Hfuel |].
  pose proof (Table.wf_cap hash _ Hwf) as Hpos.
  pose proof (Table.wf_cap_hi hash _ Hwf) as Hhi.
  cbn [as_table Table.capacity] in Hpos, Hhi.
  pose proof Hput as Hput0.
  destruct fuel as [| fuel]; [lia |].
  cbn [Table.put] in Hput. unfold Table.grow in Hput.
  destruct (Z.leb_spec 70 (Table.load_percentage (as_table s))) as [G | _]; [lia |].
  cbn [obind] in Hput.
  change (Table.capacity (as_table s)) with (Set_.capacity s) in Hput.
  destruct (Z.eqb_spec (Set_.capacity s) 0) as [E | _]; [lia |].
  rewrite (start_slot s x) in Hput by lia.
  rewrite sim_probe in Hput.
  destruct (Set_.put_probe fuel s x (u64 (hash x))) as [s' | | |] eqn:Eprobe;
    cbn [obind] in Hput; try discriminate.
  injection Hput as <-.
  exists s'. split; [| exact Hput0].
  cbn [Set_.put]. unfold Set_.grow. rewrite (load_as_table s Hwf).
  destruct (Z.leb_spec 70 (Table.load_percentage (as_table s))) as [G | _]; [lia |].
  cbn [obind]. rewrite Eprobe. reflexivity.
Qed.

Lemma sim_rehash fuel (olds : Set_.t T) a :
  Table.wf hash (as_table olds) ->
  forall (n : nat) (i : Z) (ns : Set_.t T),
    0 <= i -> i + Z.of_nat n <= Set_.capacity olds ->
    Table.rehash_inv hash (as_table olds) (as_table ns) i ->
    100 * Set_.capacity olds <= 70 * Set_.capacity ns ->
    (Z.to_nat (Set_.capacity ns) < fuel)%nat ->
    (forall j k, Table.holds (as_table olds) j k -> 0 <= hash k < Set_.capacity ns) ->
    exists ns',
      Set_.rehash_loop (Set_.put hash fuel) olds n i ns a = Done (ns', a) /\
      Table.rehash_loop (Tput fuel) (as_table olds) n i (as_table ns) a
      = Done (as_table ns', a).
Proof.
  intros Hwf. induction n as [| n IH]; intros i ns Hi Hin Hinv Hcap Hfuel Hsmall.
  - exists ns. split; reflexivity.
  - destruct (rehash_loop_spec (V:=unit) (H0:=no_values) hash fuel (as_table olds) a Hwf
                1 i (as_table ns)) as (nt1 & Hstep & Hinv1 & Hcap1);
      [lia | cbn [as_table Table.capacity]; lia | exact Hinv
       | cbn [as_table Table.capacity]; lia | cbn [as_table Table.capacity]; lia |].
    cbn [as_table Table.capacity] in Hcap1.
    pose proof Hwf as [_ _ Hk Hv Hm _ _].
    cbn [as_table Table.keys Table.values Table.meta Table.capacity] in Hk, Hv, Hm.
    destruct (cell_in_range (Set_.meta olds) i) as [m Hcm]; [lia |].
    destruct (cell_in_range (Set_.values olds) i) as [k Hck]; [lia |].
    cbn [Table.rehash_loop Set_.rehash_loop] in *.
    change (Table.meta (as_table olds)) with (Set_.meta olds) in Hstep |- *.
    change (Table.keys (as_table olds)) with (Set_.values olds) in Hstep |- *.
    change (Table.values (as_table olds))
      with (replicate (length (Set_.values olds)) tt) in Hstep |- *.
    rewrite Hcm in *. cbn [obind] in *.
    unfold COMT_TAB_IS_FREE.
    destruct (COMT_TAB_IS_OCCUPIED m) eqn:Hocc; cbn [negb].
    + rewrite Hck in *. cbn [obind] in *.
      assert (Hcv : cell (replicate (length (Set_.values olds)) tt) i = Done tt).
      { destruct (cell_in_range (replicate (length (Set_.values olds)) tt) i) as [[] E];
          [rewrite length_replicate; lia | exact E]. }
      rewrite Hcv in *. cbn [obind] in *.
      assert (Hholds : Table.holds (as_table olds) i k).
      { exists m. cbn [as_table Table.meta Table.keys]. auto. }
      pose proof Hinv as (Hwfn & Hcnt & _).
      assert (Hload : Table.load_percentage (as_table ns) < 70).
      { apply (proj2 (load_below hash _ Hwfn)).
        change (Table.count (as_table ns)) with (Set_.count ns) in Hcnt |- *.
        change (Table.capacity (as_table ns)) with (Set_.capacity ns).
        change (Table.meta (as_table olds)) with (Set_.meta olds) in Hcnt.
        pose proof (occupied_count_range (take (Z.to_nat i) (Set_.meta olds))) as R.
        rewrite length_take in R. lia. }
      destruct (sim_put_in_place fuel ns k a Hwfn Hload (Hsmall i k Hholds) Hfuel)
        as (ns1 & Hs & Ht).
      rewrite Hs. rewrite Ht in *. cbn [obind] in *.
      injection Hstep as <-.
      cbn [as_table Table.capacity] in Hcap1.
      destruct (IH (i + 1) ns1) as (ns' & Hrs & Hrt);
        [lia | lia | | lia | lia | |].
      * replace (i + 1) with (i + Z.of_nat 1) by lia. exact Hinv1.
      * intros j k' Hj. rewrite Hcap1. apply (Hsmall j k' Hj).
      * exists ns'. split; [exact Hrs | exact Hrt].
    + injection Hstep as <-.
      destruct (IH (i + 1) ns) as (ns' & Hrs & Hrt);
        [lia | lia | | lia | lia | exact Hsmall |].
      * replace (i + 1) with (i + Z.of_nat 1) by lia. exact Hinv1.
      * exists ns'. split; [exact Hrs | exact Hrt].
Qed.

Lemma sim_put fuel s x a :
  Sclean -> Table.wf hash (as_table s) ->
  (forall j k, Table.holds (as_table s) j k -> 0 <= hash k < Set_.capacity s) ->
  0 <= hash x < Set_.capacity s ->
  (Z.to_nat (Set_.capacity s) < fuel)%nat ->
  (70 <= Table.load_percentage (as_table s) ->
   100 * (3 * (Set_.capacity s + 1)) < 2 ^ 64 /\
   (Z.to_nat (3 * (Set_.capacity s + 1)) + 1 < fuel)%nat) ->
  exists s' a',
    Set_.put hash fuel s x a = Done (s', a') /\
    Tput fuel (as_table s) x tt a = Done (as_table s', a').
Proof.
  intros Hclean Hwf Hsmall Hx Hfuel Hgrow.
  destruct (Z.lt_ge_cases (Table.load_percentage (as_table s)) 70) as [Hlow | Hhigh].
  { destruct (sim_put_in_place fuel s x a Hwf Hlow Hx Hfuel) as (s' & Hs & Ht).
    exists s', a. split; assumption. }
  destruct (Hgrow Hhigh) as [Hb Hf].
  pose proof (Table.wf_cap hash _ Hwf) as Hpos. cbn [as_table Table.capacity] in Hpos.
  destruct (put_spec (V:=unit) (H0:=no_values) hash fuel (as_table s) x tt a
              (clean_as_table Hclean) Hwf)
    as (tab' & a' & Hput & _); [exact Hfuel | intros _; exact (conj Hb Hf) |].
  pose proof Hput as Hput0.
  destruct fuel as [| fuel]; [lia |].
  destruct (grow_spec (V:=unit) (H0:=no_values) hash fuel (as_table s) a
              (clean_as_table Hclean) Hwf Hhigh)
    as (tabg & Hg & Hwfg & Hcapg & _); [exact Hb | cbn [as_table Table.capacity]; lia |].
  cbn [as_table Table.capacity] in Hcapg.
  cbn [Table.put] in Hput.
  rewrite Hg in Hput. cbn [obind] in Hput.
  change (Table.capacity (as_table s)) with (Set_.capacity s) in Hput.
  unfold Table.grow in Hg.
  destruct (Z.leb_spec 70 (Table.load_percentage (as_table s))) as [_ | L]; [| lia].
  change (Table.capacity (as_table s)) with (Set_.capacity s) in Hg.
  destruct (alloc_as_table a (COMT_TABLE_GROWTH_FACTOR (Set_.capacity s)) Hclean)
    as [Ha1 Ha2].
  pose proof (growth_factor_value (Set_.capacity s) ltac:(lia) ltac:(lia)) as HG.
  assert (Hinv0 : Table.rehash_inv hash (as_table s)
                    (Talloc a (COMT_TABLE_GROWTH_FACTOR (Set_.capacity s))).1 0).
  { apply rehash_inv_start; [exact (clean_as_table Hclean) | lia | lia]. }
  destruct (Talloc a (COMT_TABLE_GROWTH_FACTOR (Set_.capacity s))) as [nt0 a0].
  destruct (Salloc a (COMT_TABLE_GROWTH_FACTOR (Set_.capacity s))) as [ns0 a0'] eqn:Ealloc.
  cbn [fst snd] in Ha1, Ha2, Hinv0. subst nt0 a0'.
  assert (Hcap0 : Set_.capacity ns0 = (Set_.capacity s + 1) * 3).
  { revert Ealloc. unfold Set_.alloc.
    destruct (Allocator_alloc (T:=T) (COMT_TABLE_GROWTH_FACTOR (Set_.capacity s)) a)
      as [vs a1].
    destruct (Allocator_alloc (T:=Z) (COMT_TABLE_GROWTH_FACTOR (Set_.capacity s)) a1)
      as [ms a2].
    intros [= <- _]. cbn [Set_.capacity]. exact HG. }
  destruct (sim_rehash fuel s a0 Hwf (Z.to_nat (Set_.capacity s)) 0 ns0)
    as (sg & Hrs & Hrt); [lia | lia | exact Hinv0 | lia | lia | |].
  { intros j k Hj. specialize (Hsmall j k Hj). lia. }
  rewrite Hrt in Hg. injection Hg as <-.
  cbn [as_table Table.capacity] in Hput, Hcapg.
  destruct (Z.eqb_spec (Set_.capacity sg) 0) as [E | _]; [lia |].
  rewrite (start_slot sg x) in Hput by lia.
  rewrite sim_probe in Hput.
  destruct (Set_.put_probe fuel sg x (u64 (hash x))) as [s' | | |] eqn:Eprobe;
    cbn [obind] in Hput; try discriminate.
  injection Hput as <- <-.
  exists s', a0. split; [| exact Hput0].
  cbn [Set_.put]. unfold Set_.grow. rewrite (load_as_table s Hwf).
  destruct (Z.leb_spec 70 (Table.load_percentage (as_table s))) as [_ | L]; [| lia].
  unfold COMT_SET_GROWTH_FACTOR. rewrite Ealloc, Hrs. cbn [obind].
  rewrite Eprobe. reflexivity.
Qed.

Lemma sim_has_loop fuel :
  forall s x idx h,
  Table.has_loop fuel (as_table s) x idx h = Set_.has_loop fuel s x idx h.
Proof.
  induction fuel as [| fuel IH]; intros s x idx h; [reflexivity |].
  cbn [Table.has_loop Set_.has_loop]. unfold Table.hit.
  change (Table.meta (as_table s)) with (Set_.meta s).
  change (Table.keys (as_table s)) with (Set_.values s).
  change (Table.capacity (as_table s)) with (Set_.capacity s).
  destruct (cell (Set_.meta s) idx) as [m | | |]; cbn [obind]; try reflexivity.
  destruct (COMT_TAB_IS_OCCUPIED m).
  - destruct (cell (Set_.values s) idx) as [k | | |]; cbn [obind]; try reflexivity.
    destruct (bool_decide (k = x)); [reflexivity |].
    destruct (Set_.capacity s =? 0); [reflexivity |].
    destruct (u64 (idx + 1) mod Set_.capacity s =? h); [reflexivity | apply IH].
  - cbn [obind].
    destruct (Set_.capacity s =? 0); [reflexivity |].
    destruct (u64 (idx + 1) mod Set_.capacity s =? h); [reflexivity | apply IH].
Qed.

Lemma sim_has fuel s x :
  0 < Set_.capacity s < 2 ^ 64 -> 0 <= hash x < Set_.capacity s ->
  Set_.has hash fuel s x = Table.has hash fuel (as_table s) x.
Proof.
  intros Hcap Hx. unfold Set_.has, Table.has.
  cbn [as_table Table.capacity].
  destruct (Z.eqb_spec (Set_.capacity s) 0) as [E | _]; [lia |].
  rewrite (start_slot s x) by lia. rewrite sim_has_loop. reflexivity.
Qed.

Lemma latest_unit (xs : list T) (x : T) :
  latest ((fun y => (y, tt)) <$> xs) x = Some tt <-> x ∈ xs.
Proof.
  assert (Hkeys : ((fun y : T => (y, tt)) <$> xs).*1 = xs).
  { induction xs as [| y xs IH]; cbn; [reflexivity |]. f_equal. exact IH. }
  pose proof (latest_None ((fun y => (y, tt)) <$> xs) x) as Hn. rewrite Hkeys in Hn.
  destruct (latest ((fun y => (y, tt)) <$> xs) x) as [[] |].
  - split; [intros _ | reflexivity].
    destruct (decide (x ∈ xs)) as [Hin | Hnot]; [exact Hin |].
    apply Hn in Hnot. discriminate.
  - split; [discriminate |]. intros Hin. exfalso. apply (proj1 Hn); [reflexivity | exact Hin].
Qed.

Lemma set_run (c B : Z) fuel :
  Sclean -> 0 < c -> 100 * B < 2 ^ 64 -> (Z.to_nat B + 1 < fuel)%nat ->
  forall xs done s a,
    Table.represents hash (as_table s) ((fun y => (y, tt)) <$> done) ->
    Forall (fun y => 0 <= hash y < c) done ->
    Forall (fun y => 0 <= hash y < c) xs ->
    c <= Set_.capacity s <= B ->
    5 * (Z.of_nat (length done) + Z.of_nat (length xs)) + 3 <= B ->
    exists s' a',
      Set_.put_all hash fuel xs s a = Done (s', a') /\
      Table.represents hash (as_table s') ((fun y => (y, tt)) <$> (done ++ xs)) /\
      c <= Set_.capacity s' <= B.
Proof.
  intros Hclean Hc HB Hfuel.
  induction xs as [| x xs IH]; intros done s a Hrep Hdone Hxs Hcap Hlen.
  - exists s, a. rewrite app_nil_r. split; [reflexivity | split; assumption].
  - cbn [length] in Hlen.
    apply Forall_cons in Hxs as [Hx Hxs].
    pose proof Hrep as (Hwf & Hent & Hcount).
    pose proof (distinct_range ((fun y => (y, tt)) <$> done)) as Hd.
    rewrite length_fmap in Hd.
    assert (Hgrow : 70 <= Table.load_percentage (as_table s) ->
                    (Set_.capacity s + 1) * 3 <= B).
    { intros Hload. pose proof (growth_bound hash _ Hwf Hload) as G.
      cbn [as_table Table.capacity Table.count] in G, Hcount. lia. }
    assert (Hsmall : forall j k, Table.holds (as_table s) j k ->
                                 0 <= hash k < Set_.capacity s).
    { intros j k Hj.
      pose proof Hwf as [_ _ _ Hv _ _ _].
      cbn [as_table Table.values Table.capacity] in Hv.
      pose proof Hj as (m0 & Hm0 & _). apply cell_Done in Hm0 as [Hr _].
      cbn [as_table Table.meta] in Hr.
      pose proof (Table.wf_meta hash _ Hwf) as Hm. cbn [as_table Table.meta Table.capacity] in Hm.
      assert (He : Table.entry (as_table s) k tt).
      { exists j. split; [exact Hj |].
        destruct (cell_in_range (Table.values (as_table s)) j) as [[] E]; [| exact E].
        cbn [as_table Table.values]. rewrite length_replicate.
        rewrite length_replicate in Hv. lia. }
      apply Hent in He. apply latest_unit in He.
      rewrite Forall_forall in Hdone. specialize (Hdone k He). lia. }
    destruct (sim_put fuel s x a Hclean Hwf Hsmall) as (s1 & a1 & Hs & Ht);
      [lia | lia | |].
    { intros Hload. specialize (Hgrow Hload). split; lia. }
    destruct (put_spec (V:=unit) (H0:=no_values) hash fuel (as_table s) x tt a
                (clean_as_table Hclean) Hwf)
      as (tab1 & a1' & Hput & Hwf1 & Hkv & Hothers & Hcnt & Hcap1).
    { cbn [as_table Table.capacity]. lia. }
    { intros Hload. specialize (Hgrow Hload). cbn [as_table Table.capacity]. split; lia. }
    rewrite Ht in Hput. injection Hput as <- <-.
    cbn [Set_.put_all]. rewrite Hs. cbn [obind].
    cbn [as_table Table.capacity] in Hcap1.
    assert (Hmono : c <= Set_.capacity s1 <= B).
    { destruct Hcap1 as [-> | [Hload ->]]; [lia |]. specialize (Hgrow Hload). lia. }
    destruct (IH (done ++ [x]) s1 a1) as (s' & a' & Hrun & Hrep' & Hcap').
    + rewrite fmap_app. cbn [fmap list_fmap].
      eapply represents_put; eassumption.
    + apply Forall_app. split; [exact Hdone |]. constructor; [exact Hx | constructor].
    + exact Hxs.
    + exact Hmono.
    + rewrite length_app. cbn [length]. lia.
    + exists s', a'. rewrite <- app_assoc in Hrep'.
      split; [exact Hrun | split; assumption].
Qed.

(** A set answers [has] with what was put, for elements whose hash is
    below the capacity the set was allocated with: after any run of
    [put] calls of such elements, across any number of rehashes, [has]
    is true exactly for the elements put, and [count] is the number of
    distinct ones.  The set then behaves as the table of its elements;
    a hash at or above the capacity is outside this statement. *)
Theorem set_has_what_was_put (c : Z) (xs : list T) (a : A) (fuel : nat) :
  Sclean -> 0 < c ->
  100 * Z.max c (5 * Z.of_nat (length xs) + 3) < 2 ^ 53 ->
  (Z.to_nat (Z.max c (5 * Z.of_nat (length xs) + 3)) + 1 < fuel)%nat ->
  Forall (fun y => 0 <= hash y < c) xs ->
  exists s a',
    Set_.put_all hash fuel xs (Salloc a c).1 (Salloc a c).2 = Done (s, a') /\
    Set_.count s = Z.of_nat (length (remove_dups xs)) /\
    c <= Set_.capacity s /\
    forall x, 0 <= hash x < c ->
      Set_.has hash fuel s x = Done (bool_decide (x ∈ xs)).
Proof.
  intros Hclean Hc HB Hfuel Hxs.
  assert (HB64 : 100 * Z.max c (5 * Z.of_nat (length xs) + 3) < 2 ^ 64) by lia.
  destruct (alloc_as_table a c Hclean) as [Ha1 Ha2].
  destruct (alloc_spec (V:=unit) (H0:=no_values) hash a c (clean_as_table Hclean) Hc)
    as (_ & Hcap0 & _); [lia |].
  rewrite Ha1 in Hcap0. cbn [as_table Table.capacity] in Hcap0.
  destruct (set_run c _ fuel Hclean Hc HB64 Hfuel xs [] (Salloc a c).1 (Salloc a c).2)
    as (s & a' & Hrun & (Hwf & Hent & Hcount) & Hcap).
  { rewrite <- Ha1. apply represents_start; [exact (clean_as_table Hclean) | exact Hc | lia]. }
  { constructor. }
  { exact Hxs. }
  { lia. }
  { cbn [length]. lia. }
  cbn [app] in Hent, Hcount.
  exists s, a'. split; [exact Hrun |]. split; [| split; [lia |]].
  - cbn [as_table Table.count] in Hcount. rewrite Hcount. unfold distinct.
    do 3 f_equal. clear. induction xs as [| y xs IH]; cbn; [reflexivity |]. f_equal. exact IH.
  - intros x Hx.
    pose proof (Table.wf_cap hash _ Hwf) as Hpos.
    pose proof (Table.wf_cap_hi hash _ Hwf) as Hhi.
    cbn [as_table Table.capacity] in Hpos, Hhi.
    rewrite sim_has by lia.
    destruct (decide (x ∈ xs)) as [Hin | Hnot].
    + rewrite bool_decide_eq_true_2 by exact Hin.
      apply (has_found hash fuel (as_table s) x tt Hwf).
      * apply Hent. apply latest_unit. exact Hin.
      * cbn [as_table Table.capacity]. lia.
    + rewrite bool_decide_eq_false_2 by exact Hnot.
      apply has_all_miss.
      * cbn [as_table Table.capacity]. lia.
      * apply (absent_key_misses hash (as_table s) x Hwf).
        intros [] Hv. apply Hent in Hv. apply latest_unit in Hv. contradiction.
      * cbn [as_table Table.capacity]. lia.
Qed.

End SetMore.

Lemma ZeroPages_set_clean : Set_.clean (T:=Z) (A:=ZeroPages).
Proof.
  intros n a. cbn. rewrite length_replicate.
  split; [reflexivity |]. split; [reflexivity |].
  apply Forall_replicate. reflexivity.
Qed.

Lemma set_has_what_was_put_witness :
  exists s a',
    Set_.put_all id 200 [1; 5; 1] (Set_.alloc (T:=Z) (mkZeroPages []) 47).1
      (Set_.alloc (T:=Z) (mkZeroPages []) 47).2 = Done (s, a') /\
    Set_.count s = Z.of_nat (length (remove_dups [1; 5; 1])) /\
    47 <= Set_.capacity s /\
    forall x, 0 <= id x < 47 ->
      Set_.has id 200 s x = Done (bool_decide (x ∈ [1; 5; 1])).
Proof.
  apply (set_has_what_was_put id 47 [1; 5; 1] (mkZeroPages []) 200 ZeroPages_set_clean).
  - lia.
  - simpl. lia.
  - simpl. lia.
  - repeat constructor; simpl; lia.
Defined.
